(** * firecrawl-mcp: the local service supervisor

    A shallow embedding of [src/firecrawl/processManager.ts]
    (class [FirecrawlProcessManager]) and of [FirecrawlClient.healthCheck]
    from [src/firecrawl/client.ts].

    The manager is asynchronous TypeScript running on Node's event loop.
    Every [await] of the source is rendered as a step of a small monad that
    threads the manager object and the outside world (a virtual clock in
    milliseconds and the table of child processes), returns the outcome of
    the promise, and records what the step did as a list of timestamped
    events.  What the outside world does (whether [redis-cli ping] answers,
    how a spawned child reacts to SIGTERM, what the HTTP endpoint answers) is
    an explicit [environment] argument.

    Around the manager, the development also embeds its callers and the
    client it is probed with: [FirecrawlMcpServer]'s constructor and
    [initialize] ([src/firecrawlServer.ts]), the operations of
    [FirecrawlClient] with [makeRequest] and [handleError], the option
    objects the tool handlers build ([src/handlers/firecrawl]) and
    [parseCliArgs] with the command switch ([src/index.ts]). *)

From Stdlib Require Import ZArith NArith Lia Bool.
From stdpp Require Import base option list strings pretty.

(** ** Child processes (Node's [ChildProcess] objects) *)

Inductive signal := SIGTERM | SIGKILL.

(** The part of a [ChildProcess] the manager reads or changes, and the part
    of the operating-system process behind it that decides what the manager
    observes.  Times are in milliseconds on the world's clock. *)
Record ChildProcess := {
  killed : bool;        (* [subprocess.killed]: [kill()] delivered a signal *)
  exited : bool;        (* 'exit' (or 'error') was emitted; no OS process is left *)
  exit_at : option N;   (* when the OS process exits if nothing else happens *)
  on_term : option N    (* after SIGTERM: exits that many ms later; [None] ignores it *)
}.

(** 'exit' is emitted for every process whose time has come. *)
Definition settle (t : N) (p : ChildProcess) : ChildProcess :=
  if exited p then p else
  match exit_at p with
  | Some e => if (e <=? t)%N
              then {| killed := killed p; exited := true;
                      exit_at := exit_at p; on_term := on_term p |}
              else p
  | None => p
  end.

Definition earliest (a b : option N) : option N :=
  match a, b with
  | Some x, Some y => Some (N.min x y)
  | Some x, None => Some x
  | None, o => o
  end.

(** A signal was delivered at time [t]: [killed] becomes true (that is all
    [killed] means in Node: a signal was sent, not that the child is gone);
    SIGKILL ends the process at once, SIGTERM when the process chooses to. *)
Definition signalled (sig : signal) (t : N) (p : ChildProcess) : ChildProcess :=
  {| killed := true;
     exited := exited p;
     exit_at := earliest (exit_at p)
                  match sig with
                  | SIGKILL => Some t
                  | SIGTERM => (λ d, (t + d)%N) <$> on_term p
                  end;
     on_term := on_term p |}.

(** ** The manager object *)

Record FirecrawlConfig := {
  redisUrl : string;
  port : N;
  firecrawlPath : string
}.

Record FirecrawlProcessManager := {
  redisProcess : option nat;
  workerProcess : option nat;
  apiProcess : option nat;
  config : FirecrawlConfig;
  isShuttingDown : bool
}.

(** The constructor's argument: every key is optional. *)
Record FirecrawlConfigArg := {
  arg_redisUrl : option string;
  arg_port : option N;
  arg_firecrawlPath : option string
}.

(** [constructor(config = {})]; [cwd] stands for [process.cwd()]. *)
Definition constructor (cwd : string) (a : FirecrawlConfigArg) : FirecrawlProcessManager :=
  {| redisProcess := None;
     workerProcess := None;
     apiProcess := None;
     config := {| redisUrl := default "redis://localhost:6379" (arg_redisUrl a);
                  port := default 3002%N (arg_port a);
                  firecrawlPath := default cwd (arg_firecrawlPath a) |};
     isShuttingDown := false |}.

(** ** The world, events, outcomes *)

Record world := {
  now : N;
  procs : list ChildProcess
}.

Record state := {
  this : FirecrawlProcessManager;
  env : world
}.

Inductive program := RedisCli | RedisServer | QueueWorker | ApiIndex.

Inductive method := GET | POST.

Inductive fetch_result :=
  | Response (status : Z)
  | FetchFailed.            (* connection refused, abort, timeout: [fetch] throws *)

Inductive event :=
  | Log (msg : string)                              (* console.log *)
  | Ping (code : option Z)                          (* [redis-cli ping] ran and exited *)
  | Spawn (prog : program) (h : nat)                (* spawn(...) returned child [h] *)
  | ErrorEvent (h : nat)                            (* 'error' emitted by child [h] *)
  | ReadyOutput (h : nat)                           (* stdout: 'Ready to accept connections' *)
  | ExitEvent (h : nat)                             (* an 'exit' listener of the manager ran *)
  | Kill (h : nat) (sig : signal) (delivered : bool)(* process.kill(sig) and what it returned *)
  | Delay (ms : N)                                  (* this.delay(ms) *)
  | TimerFired (ms : N)                             (* a setTimeout callback ran *)
  | TimerCleared                                    (* clearTimeout *)
  | Fetch (m : method) (url : string) (r : fetch_result). (* fetch(url, {method}) settled *)

Definition trace := list (N * event).

Inductive ErrorCode := InternalError | InvalidRequest.

Inductive error :=
  | McpError (code : ErrorCode) (message : string)
  | TypeError (message : string)       (* what a failed [fetch] throws *)
  | SpawnErrno (file : string).        (* the Error of an 'error' event nobody listens to *)

(** How an asynchronous call ends.  An exception thrown inside an event
    listener does not reject the promise the manager is awaiting: it leaves
    the manager altogether (Node reports it as an uncaught exception), so no
    [catch] block of the manager runs. *)
Inductive outcome (A : Type) :=
  | Returned (a : A)
  | Rejected (e : error)
  | Uncaught (e : error).
Arguments Returned {A} a.
Arguments Rejected {A} e.
Arguments Uncaught {A} e.

Record run (A : Type) := {
  result : outcome A;
  final : state;
  events : trace
}.
Arguments result {A} r.
Arguments final {A} r.
Arguments events {A} r.

Definition M (A : Type) : Type := state → run A.

Definition ret {A} (a : A) : M A :=
  λ s, {| result := Returned a; final := s; events := [] |}.

Definition bind {A B} (m : M A) (k : A → M B) : M B :=
  λ s, let r := m s in
       match result r with
       | Returned a =>
           let r' := k a (final r) in
           {| result := result r'; final := final r';
              events := events r ++ events r' |}
       | Rejected e => {| result := Rejected e; final := final r; events := events r |}
       | Uncaught e => {| result := Uncaught e; final := final r; events := events r |}
       end.

#[global] Instance M_ret : MRet M := @ret.
#[global] Instance M_bind : MBind M := λ A B k m, bind m k.

Definition throw {A} (e : error) : M A :=
  λ s, {| result := Rejected e; final := s; events := [] |}.

Definition uncaught {A} (e : error) : M A :=
  λ s, {| result := Uncaught e; final := s; events := [] |}.

(** [try { body } catch (error) { handler(error) }] *)
Definition try_catch {A} (body : M A) (handler : error → M A) : M A :=
  λ s, let r := body s in
       match result r with
       | Rejected e =>
           let r' := handler e (final r) in
           {| result := result r'; final := final r';
              events := events r ++ events r' |}
       | _ => r
       end.

Definition emit (e : event) : M unit :=
  λ s, {| result := Returned tt; final := s; events := [(now (env s), e)] |}.

Definition log (msg : string) : M unit := emit (Log msg).

Definition get_this : M FirecrawlProcessManager :=
  λ s, {| result := Returned (this s); final := s; events := [] |}.

Definition set_this (f : FirecrawlProcessManager → FirecrawlProcessManager) : M unit :=
  λ s, {| result := Returned tt;
          final := {| this := f (this s); env := env s |};
          events := [] |}.

Definition set_env (f : world → world) : M unit :=
  λ s, {| result := Returned tt;
          final := {| this := this s; env := f (env s) |};
          events := [] |}.

(** The event loop is idle for [ms] milliseconds. *)
Definition elapse (ms : N) : M unit :=
  set_env (λ w, {| now := (now w + ms)%N;
                   procs := settle (now w + ms)%N <$> procs w |}).

(** The event loop is idle until time [t]. *)
Definition elapse_until (t : N) : M unit :=
  set_env (λ w, {| now := N.max (now w) t;
                   procs := settle (N.max (now w) t) <$> procs w |}).

(** [private delay(ms)]: [new Promise(resolve => setTimeout(resolve, ms))] *)
Definition delay (ms : N) : M unit :=
  emit (Delay ms);; elapse ms.

(** How a child created by [spawn] behaves. *)
Record child_spec := {
  lifetime : option N;     (* exits by itself after that many ms *)
  term_delay : option N    (* see [on_term] *)
}.

Inductive spawn_outcome :=
  | Spawned (c : child_spec)
  | SpawnError (msg : string).   (* no OS process; 'error' is emitted on the next tick *)

(** [spawn(...)] always returns a [ChildProcess]; its handle is its index in
    the world's table. *)
Definition spawn (prog : program) (o : spawn_outcome) : M nat :=
  λ s, let w := env s in
       let h := length (procs w) in
       let p := match o with
                | Spawned c => {| killed := false; exited := false;
                                  exit_at := (λ d, (now w + d)%N) <$> lifetime c;
                                  on_term := term_delay c |}
                | SpawnError _ => {| killed := false; exited := true;
                                     exit_at := None; on_term := None |}
                end in
       {| result := Returned h;
          final := {| this := this s;
                      env := {| now := now w; procs := procs w ++ [p] |} |};
          events := [(now w, Spawn prog h)] |}.

(** [process.killed] *)
Definition get_killed (h : nat) : M bool :=
  λ s, {| result := Returned (from_option killed false (procs (env s) !! h));
          final := s; events := [] |}.

(** [process.kill(sig)]: delivers the signal if the OS process is still
    there and then sets [killed]; otherwise returns false and changes
    nothing. *)
Definition kill (h : nat) (sig : signal) : M bool :=
  λ s, let w := env s in
       match procs w !! h with
       | Some p =>
           if exited p
           then {| result := Returned false; final := s;
                   events := [(now w, Kill h sig false)] |}
           else {| result := Returned true;
                   final := {| this := this s;
                               env := {| now := now w;
                                         procs := <[h := signalled sig (now w) p]> (procs w) |} |};
                   events := [(now w, Kill h sig true)] |}
       | None => {| result := Returned false; final := s;
                    events := [(now w, Kill h sig false)] |}
       end.

(** ** What the outside world does during one call of [start] *)

Inductive ping_outcome :=
  | PingExit (ms : N) (code : option Z)   (* [redis-cli ping] exits after [ms]; [None] is a null code *)
  | PingSpawnError.                       (* [redis-cli] cannot be run: 'error' without a listener *)

(** What [redis-server] does first after being spawned. *)
Inductive redis_outcome :=
  | RedisReady (ms : N)                   (* prints 'Ready to accept connections' after [ms] *)
  | RedisSpawnError (msg : string)        (* 'error' event *)
  | RedisExit (ms : N) (code : option Z)  (* exits after [ms] without having been ready *)
  | RedisSilent.                          (* stays up and never prints the line *)

Record environment := {
  ping : ping_outcome;
  redis : redis_outcome;
  redis_term : option N;                  (* how redis-server reacts to SIGTERM *)
  worker : spawn_outcome;
  api : spawn_outcome;
  fetch_ms : nat → N;                     (* how long the n-th probe takes *)
  fetch_answer : nat → fetch_result       (* what the n-th probe gets *)
}.

(** [response.ok]: the status is in the range 200-299. *)
Definition ok (status : Z) : bool :=
  (200 <=? status)%Z && (status <=? 299)%Z.

(** The answer is a response, and it is ok. *)
Definition answers_ok (r : fetch_result) : bool :=
  match r with
  | Response status => ok status
  | FetchFailed => false
  end.

Definition test_url (cfg : FirecrawlConfig) : string :=
  "http://localhost:" +:+ pretty (port cfg) +:+ "/test".

(** [await fetch(url, {method})], answered by the world after [ms]: the
    status of the response, or an exception.  Without options the method is
    GET. *)
Definition fetch (m : method) (url : string) (ms : N) (r : fetch_result) : M Z :=
  elapse ms;;
  emit (Fetch m url r);;
  match r with
  | Response status => mret status
  | FetchFailed => throw (TypeError "fetch failed")
  end.

(** ** [stop] *)

(** Lines 70-83: the promise that [stop] awaits after SIGTERM.  It settles
    when the 'exit' listener runs (which clears the timer) or when the
    5000 ms timer fires, whichever comes first. *)

(** Lines 71-77: the timer callback. *)
Definition grace_timer_fires (name : string) (h : nat) (grace : N) : M unit :=
  elapse grace;;
  emit (TimerFired grace);;
  k ← get_killed h;
  if negb k
  then log ("Force killing " +:+ name +:+ "...");; _ ← kill h SIGKILL; mret tt
  else mret tt.

(** Lines 79-82: the 'exit' listener, run when the child exits at time [e]. *)
Definition exit_listener_runs (h : nat) (e : N) : M unit :=
  elapse_until e;;
  emit (ExitEvent h);;
  emit TimerCleared.

Definition await_exit_or_timeout (name : string) (h : nat) (grace : N) : M unit :=
  λ s, match procs (env s) !! h with
       | Some p =>
           match (if exited p then None else exit_at p) with
           | Some e =>
               if (e <? now (env s) + grace)%N
               then exit_listener_runs h e s
               else grace_timer_fires name h grace s
           | None => grace_timer_fires name h grace s
           end
       | None => grace_timer_fires name h grace s
       end.

(** Lines 65-84: the body of the loop for one entry of [processes]. *)
Definition terminate (name : string) (process : option nat) : M unit :=
  match process with
  | None => mret tt
  | Some h =>
      k ← get_killed h;
      if negb k
      then log ("Stopping " +:+ name +:+ "...");;
           _ ← kill h SIGTERM;
           await_exit_or_timeout name h 5000
      else mret tt
  end.

Fixpoint for_of {A} (l : list A) (body : A → M unit) : M unit :=
  match l with
  | [] => mret tt
  | x :: l' => body x;; for_of l' body
  end.

(** Lines 58-87: what [stop] does once it has set the flag. *)
Definition stop_loop : M unit :=
  m ← get_this;
  let processes := [("API Server", apiProcess m);
                    ("Workers", workerProcess m);
                    ("Redis", redisProcess m)] in
  for_of processes (λ '(name, process), terminate name process);;
  log "Firecrawl services stopped".

Definition stop : M unit :=
  m ← get_this;
  if isShuttingDown m then mret tt else
  set_this (λ m, {| redisProcess := redisProcess m; workerProcess := workerProcess m;
                    apiProcess := apiProcess m; config := config m;
                    isShuttingDown := true |});;
  log "Stopping Firecrawl services...";;
  stop_loop.

(** ** [start] and its stages *)

Definition redis_timeout : error :=
  McpError InternalError "Redis failed to start within 10 seconds".

(** ['Redis exited with code ${code}'] *)
Definition show_code (code : option Z) : string :=
  match code with Some c => pretty c | None => "null" end.

Definition set_redisProcess (h : nat) : M unit :=
  set_this (λ m, {| redisProcess := Some h; workerProcess := workerProcess m;
                    apiProcess := apiProcess m; config := config m;
                    isShuttingDown := isShuttingDown m |}).

Definition set_workerProcess (h : nat) : M unit :=
  set_this (λ m, {| redisProcess := redisProcess m; workerProcess := Some h;
                    apiProcess := apiProcess m; config := config m;
                    isShuttingDown := isShuttingDown m |}).

Definition set_apiProcess (h : nat) : M unit :=
  set_this (λ m, {| redisProcess := redisProcess m; workerProcess := workerProcess m;
                    apiProcess := Some h; config := config m;
                    isShuttingDown := isShuttingDown m |}).

(** The promise of [startRedis] settles on the first of: the line on stdout
    (resolve), 'error' (reject), a non-zero 'exit' while not shutting down
    (reject), the 10 s timer (reject).  The timer is never cleared; when it
    fires after the promise has settled its [reject] does nothing, and that
    late callback is not recorded.  [redis-cli] is given no 'error'
    listener, so failing to run it is an uncaught exception. *)
Definition startRedis (E : environment) : M unit :=
  match ping E with
  | PingSpawnError => uncaught (SpawnErrno "redis-cli")
  | PingExit ms code =>
      elapse ms;;
      emit (Ping code);;
      if bool_decide (code = Some 0%Z)
      then log "Redis is already running"
      else
        log "Starting Redis server...";;
        match redis E with
        | RedisSpawnError msg =>
            h ← spawn RedisServer (SpawnError msg);
            set_redisProcess h;;
            emit (ErrorEvent h);;
            throw (McpError InternalError
                     ("Failed to start Redis: " +:+ msg +:+ ". Make sure Redis is installed."))
        | RedisReady d =>
            h ← spawn RedisServer (Spawned {| lifetime := None; term_delay := redis_term E |});
            set_redisProcess h;;
            if (d <? 10000)%N
            then elapse d;; emit (ReadyOutput h)
            else elapse 10000;; emit (TimerFired 10000);; throw redis_timeout
        | RedisExit d code =>
            h ← spawn RedisServer (Spawned {| lifetime := Some d; term_delay := redis_term E |});
            set_redisProcess h;;
            if (d <? 10000)%N
            then
              elapse d;;
              emit (ExitEvent h);;
              m ← get_this;
              if negb (bool_decide (code = Some 0%Z)) && negb (isShuttingDown m)
              then throw (McpError InternalError ("Redis exited with code " +:+ show_code code))
              else elapse (10000 - d);; emit (TimerFired 10000);; throw redis_timeout
            else elapse 10000;; emit (TimerFired 10000);; throw redis_timeout
        | RedisSilent =>
            h ← spawn RedisServer (Spawned {| lifetime := None; term_delay := redis_term E |});
            set_redisProcess h;;
            elapse 10000;; emit (TimerFired 10000);; throw redis_timeout
        end
  end.

Definition apiPath (cfg : FirecrawlConfig) : string :=
  firecrawlPath cfg +:+ "/apps/api".

(** The stdout and stderr listeners only log and are left out.  The 'error'
    listener throws inside the listener: that is an uncaught exception, not
    a rejection of the promise [start] awaits.  It is raised here where the
    listener is registered; Node delivers 'error' on a later tick. *)
Definition startWorkers (E : environment) : M unit :=
  log "Starting Firecrawl workers...";;
  m ← get_this;
  let workerScript := apiPath (config m) +:+ "/dist/src/services/queue-worker.js" in
  log ("[Debug] Starting worker with script: " +:+ workerScript);;
  h ← spawn QueueWorker (worker E);
  set_workerProcess h;;
  match worker E with
  | Spawned _ => mret tt
  | SpawnError msg =>
      emit (ErrorEvent h);;
      uncaught (McpError InternalError ("Failed to start Firecrawl workers: " +:+ msg))
  end.

Definition startApiServer (E : environment) : M unit :=
  log "Starting Firecrawl API server...";;
  m ← get_this;
  let apiScript := apiPath (config m) +:+ "/dist/src/index.js" in
  log ("[Debug] Starting API with script: " +:+ apiScript);;
  h ← spawn ApiIndex (api E);
  set_apiProcess h;;
  match api E with
  | Spawned _ => mret tt
  | SpawnError msg =>
      emit (ErrorEvent h);;
      uncaught (McpError InternalError ("Failed to start Firecrawl API server: " +:+ msg))
  end.

Definition readiness_error (maxAttempts : nat) : error :=
  McpError InternalError
    ("Firecrawl API server failed to respond after " +:+ pretty maxAttempts +:+ " seconds").

(** The loop [for (let attempt = 1; attempt <= maxAttempts; attempt++)] of
    [waitForServices], entered at [attempt] with [todo] iterations left
    ([todo = maxAttempts + 1 - attempt]).  [ready] is whether the [try]
    block reached its [return]. *)
Fixpoint poll (E : environment) (maxAttempts : nat) (delayMs : N)
    (todo attempt : nat) : M unit :=
  match todo with
  | O => mret tt
  | S todo' =>
      m ← get_this;
      try_catch (A := bool)
        (response ← fetch GET (test_url (config m))
                      (fetch_ms E attempt) (fetch_answer E attempt);
         mret (ok response))
        (λ _ : error, mret false)
      ≫= λ ready : bool,
      if ready then mret tt
      else if bool_decide (attempt = maxAttempts)
      then throw (readiness_error maxAttempts)
      else delay delayMs;; poll E maxAttempts delayMs todo' (S attempt)
  end.

Definition waitForServices_with (maxAttempts : nat) (delayMs : N) (E : environment) : M unit :=
  poll E maxAttempts delayMs maxAttempts 1.

Definition waitForServices : environment → M unit :=
  waitForServices_with 30 1000.

(** Lines 42-45: what [start] does once the three stages are spawned. *)
Definition ready_tail (E : environment) : M unit :=
  waitForServices E;;
  log "Firecrawl services started successfully".

(** Lines 33-45: what [start] does once [startRedis] has resolved. *)
Definition after_redis (E : environment) : M unit :=
  delay 2000;;
  startWorkers E;;
  startApiServer E;;
  ready_tail E.

(** Lines 30-45: the [try] block of [start]. *)
Definition start_try (E : environment) : M unit :=
  startRedis E;;
  delay 2000;;
  startWorkers E;;
  startApiServer E;;
  waitForServices E;;
  log "Firecrawl services started successfully".

Definition start (E : environment) : M unit :=
  log "Starting Firecrawl services...";;
  try_catch (start_try E) (λ error, stop;; throw error).

(** ** [healthCheck] *)

(** [FirecrawlProcessManager.healthCheck].  The [timeout] key it passes is
    not an option of [fetch]; whatever ends the request without a response
    makes [fetch] throw. *)
Definition healthCheck (ms : N) (answer : fetch_result) : M bool :=
  m ← get_this;
  try_catch (A := bool)
    (response ← fetch GET (test_url (config m)) ms answer;
     mret (ok response))
    (λ _ : error, mret false).

(** [FirecrawlClient.healthCheck], against [${baseUrl}/test]. *)
Definition client_healthCheck (baseUrl : string) (ms : N) (answer : fetch_result) : M bool :=
  try_catch (A := bool)
    (response ← fetch GET (baseUrl +:+ "/test") ms answer;
     mret (ok response))
    (λ _ : error, mret false).

(** ** Calls from outside, one after another *)

Inductive call :=
  | CallStart (E : environment)
  | CallStop
  | CallHealthCheck (ms : N) (answer : fetch_result).

Definition perform (c : call) (s : state) : state * trace :=
  match c with
  | CallStart E => let r := start E s in (final r, events r)
  | CallStop => let r := stop s in (final r, events r)
  | CallHealthCheck ms answer => let r := healthCheck ms answer s in (final r, events r)
  end.

Fixpoint perform_all (cs : list call) (s : state) : state * trace :=
  match cs with
  | [] => (s, [])
  | c :: cs' =>
      let '(s1, t1) := perform c s in
      let '(s2, t2) := perform_all cs' s1 in
      (s2, t1 ++ t2)
  end.

(** ** Vocabulary of the statements *)

Definition is_kill (e : event) : bool :=
  match e with Kill _ _ _ => true | _ => false end.

Definition is_sigkill (e : event) : bool :=
  match e with Kill _ SIGKILL _ => true | _ => false end.

(** A SIGKILL that reached a process. *)
Definition is_delivered_sigkill (e : event) : bool :=
  match e with Kill _ SIGKILL true => true | _ => false end.

Definition is_fetch (e : event) : bool :=
  match e with Fetch _ _ _ => true | _ => false end.

Definition is_log (e : event) : bool :=
  match e with Log _ => true | _ => false end.

Definition is_worker_spawn (e : event) : bool :=
  match e with Spawn QueueWorker _ => true | _ => false end.

Definition is_api_spawn (e : event) : bool :=
  match e with Spawn ApiIndex _ => true | _ => false end.

(** Neither the workers nor the API server are spawned by this event. *)
Definition not_stage (e : event) : bool :=
  negb (is_worker_spawn e) && negb (is_api_spawn e).

(** The events show that the broker is up: [redis-cli ping] exited with
    code 0, or a [redis-server] spawned here printed its ready line. *)
Definition broker_live (t : trace) : Prop :=
  (∃ t0, (t0, Ping (Some 0%Z)) ∈ t) ∨
  (∃ t1 t2 h, (t1, Spawn RedisServer h) ∈ t ∧ (t2, ReadyOutput h) ∈ t).

(** The line [stop] logs right before it enters its termination loop. *)
Definition is_stop_loop (e : event) : bool :=
  match e with
  | Log msg => bool_decide (msg = "Stopping Firecrawl services...")
  | _ => false
  end.

Definition not_kill (e : event) : bool := negb (is_kill e).

Definition not_stop_loop (e : event) : bool := negb (is_stop_loop e).

Definition count (P : event → bool) (t : trace) : nat :=
  length (List.filter (λ te, P te.2) t).

(** The three handle fields of the manager, in the order [stop] visits them. *)
Definition handles (m : FirecrawlProcessManager) : list (option nat) :=
  [apiProcess m; workerProcess m; redisProcess m].

(** [h] is the child behind one of the manager's handle fields. *)
Definition managed (s : state) (h : nat) : Prop :=
  Some h ∈ handles (this s).

(** The operating-system process behind [h] is still there. *)
Definition running (s : state) (h : nat) : bool :=
  from_option (λ p, negb (exited p)) false (procs (env s) !! h).

(** No child has been sent a signal it has not died of yet. *)
Definition calm (s : state) : Prop :=
  ∀ h p, procs (env s) !! h = Some p → killed p = true → exited p = true.

(** Child [h] has been sent no signal it has not died of yet. *)
Definition unsignalled (h : nat) (s : state) : Prop :=
  ∀ p, procs (env s) !! h = Some p → killed p = true → exited p = true.

(** Child [h] exists and its OS process is gone. *)
Definition gone (h : nat) (s : state) : Prop :=
  ∃ p, procs (env s) !! h = Some p ∧ exited p = true.

(** How child [h], if there is one, reacts to SIGTERM. *)
Definition reaction (h : nat) (s : state) : option (option N) :=
  on_term <$> procs (env s) !! h.

(** A child that exits within the grace period once it gets SIGTERM. *)
Definition prompt (p : ChildProcess) : Prop :=
  ∃ d, on_term p = Some d ∧ (d < 5000)%N.

(** The state right after line 54, [this.isShuttingDown = true]. *)
Definition shutting_down (s : state) : state :=
  {| this := {| redisProcess := redisProcess (this s);
                workerProcess := workerProcess (this s);
                apiProcess := apiProcess (this s);
                config := config (this s);
                isShuttingDown := true |};
     env := env s |}.

(** The shutting-down flag has value [b]. *)
Definition flag_is (b : bool) (s : state) : Prop := isShuttingDown (this s) = b.

(** ** Properties of monadic steps *)

(** [keeps I f]: the state property [I] survives [f]. *)
Definition keeps {A} (I : state → Prop) (f : M A) : Prop :=
  ∀ s, I s → I (final (f s)).

(** [emits P f]: [f] only records events that satisfy [P]. *)
Definition emits {A} (P : event → bool) (f : M A) : Prop :=
  ∀ s, Forall (λ te, P te.2 = true) (events (f s)).

(** [within c f]: [f] takes at most [c] milliseconds. *)
Definition within {A} (c : N) (f : M A) : Prop :=
  ∀ s, (now (env s) ≤ now (env (final (f s))) ≤ now (env s) + c)%N.

(** [returns f]: the promise of [f] is always resolved. *)
Definition returns {A} (f : M A) : Prop :=
  ∀ s, ∃ a, result (f s) = Returned a.


(** ** Concrete managers, worlds and environments *)

Definition fresh (cwd : string) : state :=
  {| this := constructor cwd {| arg_redisUrl := None; arg_port := None;
                                arg_firecrawlPath := None |};
     env := {| now := 0; procs := [] |} |}.

(** A child that is up and exits [d] ms after SIGTERM ([None]: never). *)
Definition child_up (d : option N) : ChildProcess :=
  {| killed := false; exited := false; exit_at := None; on_term := d |}.

(** A manager whose three children are up, each needing 4000 ms to exit
    after SIGTERM. *)
Definition three_up : state :=
  {| this := {| redisProcess := Some 0; workerProcess := Some 1; apiProcess := Some 2;
                config := config (this (fresh "/opt/firecrawl"));
                isShuttingDown := false |};
     env := {| now := 0;
               procs := [child_up (Some 4000%N); child_up (Some 4000%N);
                         child_up (Some 4000%N)] |} |}.

(** Redis has to be started and gets ready, workers and API server come up
    and exit 100 ms after SIGTERM, but the endpoint never answers; [ms] is
    how long each probe takes. *)
Definition never_ready (ms : N) : environment :=
  {| ping := PingExit 10 (Some 1%Z);
     redis := RedisReady 300;
     redis_term := Some 50%N;
     worker := Spawned {| lifetime := None; term_delay := Some 100%N |};
     api := Spawned {| lifetime := None; term_delay := Some 100%N |};
     fetch_ms := λ _, ms;
     fetch_answer := λ _, FetchFailed |}.

(** The same backend, answering 200 to the first probe. *)
Definition ready_at_once : environment :=
  {| ping := PingExit 10 (Some 1%Z);
     redis := RedisReady 300;
     redis_term := Some 50%N;
     worker := Spawned {| lifetime := None; term_delay := Some 100%N |};
     api := Spawned {| lifetime := None; term_delay := Some 100%N |};
     fetch_ms := λ _, 5%N;
     fetch_answer := λ _, Response 200 |}.

(** A manager whose only child is an API server that ignores SIGTERM. *)
Definition stubborn_api : state :=
  {| this := {| redisProcess := None; workerProcess := None; apiProcess := Some 0;
                config := config (this (fresh "/opt/firecrawl"));
                isShuttingDown := false |};
     env := {| now := 0; procs := [child_up None] |} |}.

(** C2 as the spec states it: a shutdown takes no longer than one grace
    period. *)
Definition concurrent_latency_bound : Prop :=
  ∀ s, (now (env (final (stop s))) ≤ now (env s) + 5000)%N.

(** C1 as the spec states it: after a [start] that failed, no child of the
    manager is running. *)
Definition rollback_complete : Prop :=
  ∀ E s e h,
    result (start E s) = Rejected e →
    managed (final (start E s)) h →
    running (final (start E s)) h = false.

(** C4 as the spec states it, for the part about the elapsed duration: the
    error of an exhausted poll determines how long the poll took. *)
Definition error_carries_elapsed : Prop :=
  ∃ elapsed_of : error → N,
    ∀ E s e, result (waitForServices E s) = Rejected e →
             (now (env s) + elapsed_of e)%N = now (env (final (waitForServices E s))).

(** C6 as the spec states it, for the worker stage: a delay separates the
    spawn of the workers from the spawn of the API server. *)
Definition delay_after_workers : Prop :=
  ∀ E s i j ti tj hw ha,
    events (start E s) !! i = Some (ti, Spawn QueueWorker hw) →
    events (start E s) !! j = Some (tj, Spawn ApiIndex ha) →
    ∃ k t ms, i < k < j ∧ events (start E s) !! k = Some (t, Delay ms).

(** The lifecycle states of the spec.  The source stores no state; this is
    the view of a handle field that the world gives: no handle, a child
    that is up (signalled or not), a child that is gone (after a signal or
    by itself).  [Starting] cannot be told from [Running] and is not
    produced. *)
Inductive lifecycle := Unstarted | Starting | Running | Stopping | Stopped | Failed.

Definition lifecycle_of (s : state) (handle : option nat) : lifecycle :=
  match handle with
  | None => Unstarted
  | Some h =>
      match procs (env s) !! h with
      | Some p =>
          if exited p then (if killed p then Stopped else Failed)
          else (if killed p then Stopping else Running)
      | None => Failed
      end
  end.

Definition holds_process (l : lifecycle) : bool :=
  match l with
  | Starting | Running | Stopping => true
  | Unstarted | Stopped | Failed => false
  end.

(** C8 as the spec states it, at every state a manager can reach. *)
Definition handle_iff_live : Prop :=
  ∀ cwd cs handle,
    let s := (perform_all cs (fresh cwd)).1 in
    handle ∈ handles (this s) →
    (is_Some handle ↔ holds_process (lifecycle_of s handle) = true).

(** ** Vocabulary of the further properties of the manager *)

(** The child a SIGTERM was sent to, delivered or not. *)
Definition sigterm_target (e : event) : option nat :=
  match e with Kill h SIGTERM _ => Some h | _ => None end.

Definition not_sigterm (e : event) : bool :=
  match e with Kill _ SIGTERM _ => false | _ => true end.

(** The children that were sent SIGTERM, in the order of the signals. *)
Definition sigterm_targets (t : trace) : list nat :=
  omap (λ te, sigterm_target te.2) t.

(** [process.killed] of child [h], as [stop] reads it in line 65. *)
Definition flagged (s : state) (h : nat) : bool :=
  from_option killed false (procs (env s) !! h).

(** The time [terminate] waits for a child that is up and does not exit by
    itself: until the child's reaction to SIGTERM, or for the whole grace
    period of 5000 ms when the child reacts later or not at all. *)
Definition grace_wait (p : ChildProcess) : N :=
  match on_term p with
  | Some d => N.min d 5000
  | None => 5000%N
  end.

(** The SIGTERMs of a trace with their times. *)
Definition sigterm_times (t : trace) : list (N * nat) :=
  omap (λ te, (λ h, (te.1, h)) <$> sigterm_target te.2) t.

(** Child [h] is up, has not been signalled and does not exit by itself. *)
Definition idle_child (s : state) (h : nat) (p : ChildProcess) : Prop :=
  procs (env s) !! h = Some p ∧
  killed p = false ∧ exited p = false ∧ exit_at p = None.

Definition not_redis_spawn (e : event) : bool :=
  match e with Spawn RedisServer _ => false | _ => true end.

Definition is_redis_spawn (e : event) : bool := negb (not_redis_spawn e).

(** The time the probes number [from], ..., [from + n - 1] take together. *)
Definition probe_time (E : environment) (from n : nat) : N :=
  foldr N.add 0%N (fetch_ms E <$> seq from n).

(** How long [redis-cli ping] runs. *)
Definition ping_time (E : environment) : N :=
  match ping E with PingExit ms _ => ms | PingSpawnError => 0%N end.

(** The longest a call of [start] can take: the ping, the 10 s Redis timer,
    the 2 s delay, 30 probes with 29 delays of 1 s between them, and three
    grace periods of the rollback. *)
Definition start_budget (E : environment) : N :=
  (ping_time E + 10000 + 2000 + (probe_time E 1 30 + 29 * 1000) + 3 * 5000)%N.

(** A manager with one child, a worker that has already exited by itself. *)
Definition crashed_worker : state :=
  {| this := {| redisProcess := None; workerProcess := Some 0; apiProcess := None;
                config := config (this (fresh "/opt/firecrawl"));
                isShuttingDown := false |};
     env := {| now := 0;
               procs := [{| killed := false; exited := true;
                            exit_at := None; on_term := None |}] |} |}.

(** A Redis that is already running: [redis-cli ping] exits with code 0. *)
Definition external_redis : environment :=
  {| ping := PingExit 10 (Some 0%Z);
     redis := RedisSilent;
     redis_term := None;
     worker := Spawned {| lifetime := None; term_delay := Some 100%N |};
     api := Spawned {| lifetime := None; term_delay := Some 100%N |};
     fetch_ms := λ _, 5%N;
     fetch_answer := λ _, Response 200 |}.

(** ** Invariants of the manager *)

(** The handle fields name children that exist, and different ones. *)
Definition well_handled (s : state) : Prop :=
  NoDup (omap id (handles (this s))) ∧
  ∀ h, managed s h → h < length (procs (env s)).

(** Child [h] is up, does not exit by itself and ignores SIGTERM. *)
Definition stubborn (h : nat) (s : state) : Prop :=
  ∃ p, procs (env s) !! h = Some p ∧
       exited p = false ∧ exit_at p = None ∧ on_term p = None.

(** ** How [start] can fail *)

(** [rejects P f]: [f] only rejects with errors that satisfy [P]. *)
Definition rejects {A} (P : error → Prop) (f : M A) : Prop :=
  ∀ s e, result (f s) = Rejected e → P e.

(** [escapes P f]: the only exceptions that leave [f] uncaught satisfy [P]. *)
Definition escapes {A} (P : error → Prop) (f : M A) : Prop :=
  ∀ s e, result (f s) = Uncaught e → P e.

(** The errors [start] rejects with in environment [E]. *)
Definition start_rejection (E : environment) (e : error) : Prop :=
  (∃ msg, redis E = RedisSpawnError msg ∧
          e = McpError InternalError
                ("Failed to start Redis: " +:+ msg +:+ ". Make sure Redis is installed.")) ∨
  (∃ d code, redis E = RedisExit d code ∧ code ≠ Some 0%Z ∧
             e = McpError InternalError ("Redis exited with code " +:+ show_code code)) ∨
  e = McpError InternalError "Redis failed to start within 10 seconds" ∨
  e = McpError InternalError "Firecrawl API server failed to respond after 30 seconds".

(** The exceptions that leave [start] uncaught in environment [E]. *)
Definition start_escape (E : environment) (e : error) : Prop :=
  (ping E = PingSpawnError ∧ e = SpawnErrno "redis-cli") ∨
  (∃ msg, worker E = SpawnError msg ∧
          e = McpError InternalError ("Failed to start Firecrawl workers: " +:+ msg)) ∨
  (∃ msg, api E = SpawnError msg ∧
          e = McpError InternalError ("Failed to start Firecrawl API server: " +:+ msg)).

(** ** [FirecrawlMcpServer] ([src/firecrawlServer.ts]) *)

(** *** The port, as the two constructors see it *)

(** The value of the [port] property of a [FirecrawlConfig] object that has
    one.  The type [port?: number] admits [undefined]; [main] puts
    [parseInt(process.env.FIRECRAWL_PORT || '3002')] there, which is an
    integer or, for a text that does not start with a number, NaN. *)
Inductive port_value :=
  | PortUndefined
  | PortNaN
  | PortNumber (n : Z).

(** Truthiness, as [||] tests it: [undefined], NaN and 0 are falsy. *)
Definition port_truthy (v : port_value) : bool :=
  match v with
  | PortNumber n => negb (n =? 0)%Z
  | PortUndefined | PortNaN => false
  end.

(** [`${port}`] in a template literal. *)
Definition port_text (v : port_value) : string :=
  match v with
  | PortUndefined => "undefined"
  | PortNaN => "NaN"
  | PortNumber n => pretty n
  end.

(** [config.port || 3002] and [firecrawlConfig?.port || 3002].  [None]: there
    is no configuration object or it has no [port] property, so that the
    property reads as [undefined]. *)
Definition port_or_default (configured : option port_value) : port_value :=
  match configured with
  | Some v => if port_truthy v then v else PortNumber 3002
  | None => PortNumber 3002
  end.

(** [this.config.port] after lines 18-23 of the manager's constructor: the
    object literal first gets [port: config.port || 3002], and then the
    spread [...config] copies the argument's own [port] property over it,
    whatever its value. *)
Definition manager_port (configured : option port_value) : port_value :=
  let defaulted := port_or_default configured in
  match configured with
  | Some v => v
  | None => defaulted
  end.

(** The URL of lines 211 and 235 for the manager that line 73 of the
    server's constructor makes. *)
Definition manager_test_url (configured : option port_value) : string :=
  "http://localhost:" +:+ port_text (manager_port configured) +:+ "/test".

(** Lines 74-76 of the server's constructor: the [baseUrl] of the client. *)
Definition client_baseUrl (configured : option port_value) : string :=
  "http://localhost:" +:+ port_text (port_or_default configured).

(** What the endpoint answers to the health checks of one [initialize]: how
    long the n-th check takes and what it gets. *)
Record health_environment := {
  health_ms : nat → N;
  health_answer : nat → fetch_result
}.

Definition unhealthy_error : error :=
  McpError InternalError "Firecrawl services failed to become healthy".

(** Lines 92-105: the loop [while (attempts < maxAttempts)] of [initialize],
    entered with [attempts] failed checks so far; [todo] bounds the number
    of iterations (the loop never runs more than [maxAttempts] times). *)
Fixpoint health_loop (baseUrl : string) (H : health_environment)
    (maxAttempts todo attempts : nat) : M unit :=
  match todo with
  | O => mret tt
  | S todo' =>
      if bool_decide (attempts < maxAttempts)
      then
        isHealthy ← client_healthCheck baseUrl (health_ms H (S attempts))
                      (health_answer H (S attempts));
        if isHealthy : bool then mret tt
        else
          let attempts := S attempts in
          if bool_decide (maxAttempts ≤ attempts)
          then throw unhealthy_error
          else elapse 2000;; emit (TimerFired 2000);;
               health_loop baseUrl H maxAttempts todo' attempts
      else mret tt
  end.

(** [initialize], lines 86-105, in the world of the manager ([this] is
    [this.processManager]).  The lines of the server's logger go to stderr
    and are not recorded; [registerTools] and [setupGracefulShutdown], which
    follow a successful loop, register callbacks and do nothing else. *)
Definition initialize (baseUrl : string) (E : environment) (H : health_environment) : M unit :=
  start E;;
  health_loop baseUrl H 10 10 0.

(** How long the health checks number [from + 1], ..., [from + n] take
    together. *)
Definition health_time (H : health_environment) (from n : nat) : N :=
  foldr N.add 0%N (health_ms H <$> seq (S from) n).

(** An endpoint that answers 503 to every health check, after 20 ms. *)
Definition never_healthy : health_environment :=
  {| health_ms := λ _, 20%N; health_answer := λ _, Response 503 |}.

(** ** [FirecrawlClient] ([src/firecrawl/client.ts]) *)

(** *** JavaScript values *)

(** A JSON value, as [JSON.parse] and [response.json()] give it and as an
    object literal builds it.  [JNumber] covers the integers (which
    JavaScript prints in decimal up to 1e21).  The members of an object are
    listed in the order they were written; when a key occurs twice the later
    member overrides the earlier one, as in [JSON.parse] and in an object
    literal with a spread.  A value of type [option json] may also be
    [undefined] ([None]). *)
#[warnings="-register-all"] Inductive json :=
  | JNull
  | JBool (b : bool)
  | JNumber (n : Z)
  | JString (s : string)
  | JArray (items : list json)
  | JObject (members : list (string * json)).

(** The value of [!!v]. *)
Definition truthy (v : option json) : bool :=
  match v with
  | None => false
  | Some JNull => false
  | Some (JBool b) => b
  | Some (JNumber n) => negb (n =? 0)%Z
  | Some (JString s) => negb (String.eqb s EmptyString)
  | Some (JArray _) => true
  | Some (JObject _) => true
  end.

(** The member [key] of an object. *)
Fixpoint member (key : string) (members : list (string * json)) : option json :=
  match members with
  | [] => None
  | (k, v) :: rest =>
      match member key rest with
      | Some v' => Some v'
      | None => if String.eqb k key then Some v else None
      end
  end.

(** [`${v}`], the string a template literal makes of [v].  Numbers are the
    integers here and are printed with all their digits (JavaScript switches
    to the exponent notation from 1e21 on). *)
Fixpoint to_string (v : json) : string :=
  match v with
  | JNull => "null"
  | JBool b => if b then "true" else "false"
  | JNumber n => pretty n
  | JString s => s
  | JArray items =>
      String.concat ","
        (List.map (λ x, match x with JNull => EmptyString | _ => to_string x end) items)
  | JObject _ => "[object Object]"
  end.

(** [a || b], where [b] is defined. *)
Definition or_else (a : option json) (b : json) : json :=
  match a with
  | Some v => if truthy a then v else b
  | None => b
  end.

(** [s.includes(sub)] *)
Fixpoint includes (s sub : string) : bool :=
  String.prefix sub s ||
  match s with
  | EmptyString => false
  | String _ s' => includes s' sub
  end.

(** *** Exceptions *)

(** What a [catch] block of the client can receive: an [McpError], another
    [Error] with its [name] and [message], or a value that is not an
    [Error].  [ThrownMcpError code message] is the error that
    [new McpError(code, message)] makes: it records the two arguments of the
    constructor call.  The [message] property of that object is the SDK's
    business (it puts the code in front of the text); the client never reads
    it, it only tests [instanceof McpError]. *)
Inductive thrown :=
  | ThrownMcpError (code : ErrorCode) (message : string)
  | ThrownError (name message : string)
  | ThrownValue.

(** A call that returns a value or throws. *)
Definition exn (A : Type) : Type := thrown + A.

#[global] Instance exn_ret : MRet exn := λ A a, inr a.

#[global] Instance exn_bind : MBind exn := λ A B k m,
  match m with
  | inl e => inl e
  | inr a => k a
  end.

(** [try { body } catch (error) { handler(error) }] *)
Definition try_ {A} (body : exn A) (handler : thrown → exn A) : exn A :=
  match body with
  | inl e => handler e
  | inr a => inr a
  end.

(** [v.key], for the keys the client reads ('error', 'message', 'success',
    'data'), none of which is a property of a built-in prototype: reading a
    property of [null] throws a [TypeError], a string, number, boolean or
    array has no such property. *)
Definition get (v : json) (key : string) : exn (option json) :=
  match v with
  | JNull => inl (ThrownError "TypeError"
                    ("Cannot read properties of null (reading '" +:+ key +:+ "')"))
  | JObject members => inr (member key members)
  | _ => inr None
  end.

(** *** One HTTP exchange *)

(** The request [fetch] is called with (the headers are constant, the
    timeout signal shows in the reply); [req_body] is the value that
    [JSON.stringify] is applied to. *)
Record request := {
  req_url : string;
  req_method : method;
  req_body : option json
}.

(** What the world makes of the request: [fetch] rejects (connection
    refused, aborted by the timeout signal), or a response arrives with its
    status and its body text, or a response arrives and reading its body
    rejects. *)
Inductive reply :=
  | FetchRejects (name message : string)
  | Responds (status : Z) (body : string)
  | BodyRejects (status : Z) (name message : string).

Definition is_post (m : method) : bool :=
  match m with POST => true | GET => false end.

Section client.
(** [JSON.parse]: the value, or the message of the [SyntaxError]. *)
Variable JSON_parse : string → string + json.
Variable baseUrl : string.

Definition parse (text : string) : exn json :=
  match JSON_parse text with
  | inl message => inl (ThrownError "SyntaxError" message)
  | inr v => inr v
  end.

(** Lines 185-192: the message of an error response. *)
Definition errorMessage (status : Z) (errorText : string) : json :=
  match
    (errorJson ← parse errorText;
     e ← get errorJson "error";
     if truthy e then mret (or_else e (JString errorText))
     else
       m ← get errorJson "message";
       mret (or_else m (JString errorText))) : exn json
  with
  | inr v => v
  | inl _ => JString (if String.eqb errorText EmptyString then "HTTP " +:+ pretty status
                      else errorText)
  end.

(** [makeRequest], lines 167-201: the request that is sent, and what the
    call gives for the world's reply. *)
Definition makeRequest (endpoint : string) (m : method) (body : option json)
    (r : reply) : request * exn json :=
  let url := baseUrl +:+ endpoint in
  let options := {| req_url := url; req_method := m;
                    req_body := if truthy body && is_post m then body else None |} in
  (options,
   match r with
   | FetchRejects name message => inl (ThrownError name message)
   | BodyRejects status name message => inl (ThrownError name message)
   | Responds status text =>
       if negb (ok status)
       then inl (ThrownMcpError InternalError
                   ("Firecrawl API error (" +:+ pretty status +:+ "): "
                      +:+ to_string (errorMessage status text)))
       else parse text
   end).

(** [handleError], lines 203-233; it never returns. *)
Definition handleError {A} (error : thrown) (operation : string) : exn A :=
  match error with
  | ThrownMcpError code message => inl (ThrownMcpError code message)
  | ThrownError name message =>
      if String.eqb name "AbortError" || includes message "timeout"
      then inl (ThrownMcpError InternalError
                  ("Request to " +:+ operation
                     +:+ " timed out. The operation may still be processing."))
      else if includes message "fetch"
      then inl (ThrownMcpError InternalError
                  ("Unable to connect to Firecrawl server at " +:+ baseUrl
                     +:+ ". Make sure Firecrawl is running locally."))
      else inl (ThrownMcpError InternalError
                  ("Failed to " +:+ operation +:+ ": " +:+ message))
  | ThrownValue =>
      inl (ThrownMcpError InternalError
             ("Unknown error occurred while trying to " +:+ operation))
  end.

(** [scrapeUrl], lines 81-99; [options] are the members of the options
    object. *)
Definition scrapeUrl (url : string) (options : list (string * json)) (r : reply)
    : request * exn (option json) :=
  let sent := makeRequest "/v1/scrape" POST
                (Some (JObject (("url", JString url) :: options))) r in
  (sent.1,
   try_ (response ← sent.2;
         success ← get response "success";
         if negb (truthy success)
         then e ← get response "error";
              inl (ThrownMcpError InvalidRequest
                     ("Scrape failed: " +:+ to_string (or_else e (JString "Unknown error"))))
         else get response "data")
        (λ error, handleError error "scrape URL")).

(** [crawlWebsite], lines 101-119. *)
Definition crawlWebsite (url : string) (options : list (string * json)) (r : reply)
    : request * exn (option json) :=
  let sent := makeRequest "/v1/crawl" POST
                (Some (JObject (("url", JString url) :: options))) r in
  (sent.1,
   try_ (response ← sent.2;
         success ← get response "success";
         if negb (truthy success)
         then e ← get response "error";
              inl (ThrownMcpError InvalidRequest
                     ("Crawl failed: " +:+ to_string (or_else e (JString "Unknown error"))))
         else get response "data")
        (λ error, handleError error "crawl website")).

(** [getCrawlStatus], lines 121-136. *)
Definition getCrawlStatus (jobId : string) (r : reply) : request * exn (option json) :=
  let sent := makeRequest ("/v1/crawl/" +:+ jobId) GET None r in
  (sent.1,
   try_ (response ← sent.2;
         success ← get response "success";
         if negb (truthy success)
         then e ← get response "error";
              inl (ThrownMcpError InvalidRequest
                     ("Get crawl status failed: "
                        +:+ to_string (or_else e (JString "Unknown error"))))
         else get response "data")
        (λ error, handleError error "get crawl status")).

(** [searchAndScrape], lines 138-153. *)
Definition searchAndScrape (options : list (string * json)) (r : reply)
    : request * exn (option json) :=
  let sent := makeRequest "/v1/search" POST (Some (JObject options)) r in
  (sent.1,
   try_ (response ← sent.2;
         success ← get response "success";
         if negb (truthy success)
         then e ← get response "error";
              inl (ThrownMcpError InvalidRequest
                     ("Search failed: " +:+ to_string (or_else e (JString "Unknown error"))))
         else get response "data")
        (λ error, handleError error "search and scrape")).

(** The four operations of the client, as calls. *)
Inductive operation :=
  | ScrapeUrl (url : string) (options : list (string * json))
  | CrawlWebsite (url : string) (options : list (string * json))
  | GetCrawlStatus (jobId : string)
  | SearchAndScrape (options : list (string * json)).

Definition call_client (o : operation) (r : reply) : request * exn (option json) :=
  match o with
  | ScrapeUrl url options => scrapeUrl url options r
  | CrawlWebsite url options => crawlWebsite url options r
  | GetCrawlStatus jobId => getCrawlStatus jobId r
  | SearchAndScrape options => searchAndScrape options r
  end.
End client.

(** The text an [McpError] was constructed with carries the wording of
    [makeRequest] for an error response. *)
Definition is_backend_error (message : string) : bool :=
  String.prefix "Firecrawl API error (" message.

(** The wording the client gives each operation in [handleError]. *)
Definition operation_name (o : operation) : string :=
  match o with
  | ScrapeUrl _ _ => "scrape URL"
  | CrawlWebsite _ _ => "crawl website"
  | GetCrawlStatus _ => "get crawl status"
  | SearchAndScrape _ => "search and scrape"
  end.

(** A parser for three texts, enough to run the client on examples. *)
Definition example_parse (text : string) : string + json :=
  if String.eqb text "null" then inr JNull
  else if String.eqb text "true" then inr (JBool true)
  else if String.eqb text "[]" then inr (JArray [])
  else inl "Unexpected token in JSON at position 0".

(** ** The tool handlers ([src/handlers/firecrawl]) *)

(** [...v] inside an object literal: the own enumerable properties of [v]
    (the members of an object, the elements of an array and the characters
    of a string under their indices, nothing for any other value). *)
Definition spread (v : option json) : list (string * json) :=
  match v with
  | Some (JObject members) => members
  | Some (JArray items) => imap (λ i x, (pretty i, x)) items
  | Some (JString s) =>
      imap (λ i c, (pretty i, JString (String c EmptyString))) (String.list_ascii_of_string s)
  | _ => []
  end.

(** [ScrapeHandler.runTool], lines 29-32: the options object passed to
    [scrapeUrl]; [options] are the members of [args] other than [url]. *)
Definition scrapeOptions (options : list (string * json)) : list (string * json) :=
  ("formats", or_else (member "formats" options) (JArray [JString "markdown"]))
  :: options.

(** [CrawlHandler.runTool], lines 35-43: the options object passed to
    [crawlWebsite]. *)
Definition crawlOptions (options : list (string * json)) : list (string * json) :=
  ("maxDepth", or_else (member "maxDepth" options) (JNumber 2))
  :: ("limit", or_else (member "limit" options) (JNumber 10))
  :: ("scrapeOptions",
      JObject (("formats", JArray [JString "markdown"])
                 :: spread (member "scrapeOptions" options)))
  :: options.

(** [SearchHandler.runTool], lines 26-34: the options object passed to
    [searchAndScrape]; [options] are the members of [args] other than
    [query]. *)
Definition searchOptions (query : json) (options : list (string * json))
    : list (string * json) :=
  ("query", query)
  :: ("limit", or_else (member "limit" options) (JNumber 5))
  :: ("scrapeOptions",
      JObject (("formats", JArray [JString "markdown"])
                 :: spread (member "scrapeOptions" options)))
  :: options.

(** The value a key gets when the caller's options do not have it. *)
Definition markdown_only : json := JObject [("formats", JArray [JString "markdown"])].

(** ** The command line ([src/index.ts]) *)

Definition is_info_flag (arg : string) : bool :=
  String.eqb arg "--version" || String.eqb arg "-v" ||
  String.eqb arg "--help" || String.eqb arg "-h".

Definition takes_value (arg : string) : bool :=
  String.eqb arg "--transport" || String.eqb arg "--port" || String.eqb arg "--host".

(** [!command] *)
Definition no_command (command : option string) : bool :=
  match command with
  | None => true
  | Some c => String.eqb c EmptyString
  end.

(** Lines 108-133: the loop of [parseCliArgs] over the arguments that are
    left, with the command found so far. *)
Fixpoint parse_loop (args : list string) (command : option string) : option string :=
  match args with
  | [] => command
  | arg :: rest =>
      if is_info_flag arg then parse_loop rest (Some arg)
      else if takes_value arg
      then match rest with
           | [] => command
           | _ :: rest' => parse_loop rest' command
           end
      else if String.eqb arg "--debug" then parse_loop rest command
      else if no_command command && negb (String.prefix "--" arg)
      then parse_loop rest (Some arg)
      else parse_loop rest command
  end.

(** [parseCliArgs], on [process.argv]. *)
Definition parseCliArgs (argv : list string) : option string :=
  parse_loop (drop 2 argv) None.

(** What the [switch] of lines 141-168 runs. *)
Inductive action :=
  | CheckSetup
  | Main
  | ShowVersion
  | ShowHelp
  | UnknownCommand (command : string).

Definition dispatch (command : option string) : action :=
  match command with
  | None => Main
  | Some c =>
      if String.eqb c "setup" then CheckSetup
      else if String.eqb c "start" then Main
      else if String.eqb c "version" || String.eqb c "--version" || String.eqb c "-v"
      then ShowVersion
      else if String.eqb c "help" || String.eqb c "--help" || String.eqb c "-h"
      then ShowHelp
      else UnknownCommand c
  end.

(** What a version or help flag shows. *)
Definition shown_by (flag : string) : action :=
  if String.eqb flag "--version" || String.eqb flag "-v" then ShowVersion else ShowHelp.

(** ** Reasoning about the monad *)

#[global] Arguments stop : simpl never.
#[global] Arguments stop_loop : simpl never.
#[global] Arguments start : simpl never.
#[global] Arguments start_try : simpl never.
#[global] Arguments terminate : simpl never.
#[global] Arguments await_exit_or_timeout : simpl never.

Section combinators.
Context {A B : Type}.

Lemma bind_returned (m : M A) (k : A → M B) s a :
  result (m s) = Returned a →
  (m ≫= k) s = {| result := result (k a (final (m s)));
                  final := final (k a (final (m s)));
                  events := events (m s) ++ events (k a (final (m s))) |}.
Proof. intros H. unfold mbind, M_bind, bind. by rewrite H. Qed.

Lemma bind_step (m : M A) (k : A → M B) s a s' evs :
  m s = {| result := Returned a; final := s'; events := evs |} →
  (m ≫= k) s = {| result := result (k a s'); final := final (k a s');
                  events := evs ++ events (k a s') |}.
Proof. intros H. unfold mbind, M_bind, bind. by rewrite H. Qed.

Lemma bind_throw (k : A → M B) s e : (throw e ≫= k) s = throw e s.
Proof. reflexivity. Qed.

Lemma bind_uncaught_now (k : A → M B) s e : (uncaught e ≫= k) s = uncaught e s.
Proof. reflexivity. Qed.

Lemma bind_pure (m : M A) (k : A → M B) s a :
  m s = {| result := Returned a; final := s; events := [] |} →
  (m ≫= k) s = k a s.
Proof. intros H. rewrite (bind_step _ _ _ _ _ _ H). by destruct (k a s). Qed.
End combinators.

Lemma bind_assoc {A B C} (m : M A) (f : A → M B) (g : B → M C) s :
  ((m ≫= f) ≫= g) s = (m ≫= λ x, f x ≫= g) s.
Proof.
  unfold mbind, M_bind, bind.
  destruct (result (m s)) as [a| |]; cbn [result final events]; [|done|done].
  destruct (result (f a (final (m s)))) as [b| |]; cbn [result final events];
    by rewrite ?app_assoc.
Qed.

(** The same steps, one projection at a time: rewriting with these never
    asks for a large term to be unfolded. *)
Section projections.
Context {A B : Type} (m : M A) (k : A → M B) (s : state).

Lemma result_bind_step a s' evs :
  m s = {| result := Returned a; final := s'; events := evs |} →
  result ((m ≫= k) s) = result (k a s').
Proof. intros H. by rewrite (bind_step _ _ _ _ _ _ H). Qed.

Lemma final_bind_step a s' evs :
  m s = {| result := Returned a; final := s'; events := evs |} →
  final ((m ≫= k) s) = final (k a s').
Proof. intros H. by rewrite (bind_step _ _ _ _ _ _ H). Qed.

Lemma events_bind_silent a s' :
  m s = {| result := Returned a; final := s'; events := [] |} →
  events ((m ≫= k) s) = events (k a s').
Proof. intros H. by rewrite (bind_step _ _ _ _ _ _ H). Qed.

Lemma events_bind_returned a :
  result (m s) = Returned a →
  events ((m ≫= k) s) = events (m s) ++ events (k a (final (m s))).
Proof. intros H. by rewrite (bind_returned _ _ _ _ H). Qed.

Lemma events_bind_failed :
  (∀ a, result (m s) ≠ Returned a) → events ((m ≫= k) s) = events (m s).
Proof.
  intros H. unfold mbind, M_bind, bind.
  destruct (result (m s)) as [a| |]; [by destruct (H a)|done|done].
Qed.

Lemma events_bind_emit a s' te :
  m s = {| result := Returned a; final := s'; events := [te] |} →
  events ((m ≫= k) s) = te :: events (k a s').
Proof. intros H. by rewrite (bind_step _ _ _ _ _ _ H). Qed.
End projections.

Section keeps.
Context (I : state → Prop).

Lemma keeps_ret {A} (a : A) : keeps I (mret a).
Proof. by intros s. Qed.

Lemma keeps_throw {A} e : keeps I (@throw A e).
Proof. by intros s. Qed.

Lemma keeps_uncaught {A} e : keeps I (@uncaught A e).
Proof. by intros s. Qed.

Lemma keeps_emit e : keeps I (emit e).
Proof. by intros s. Qed.

Lemma keeps_get_this : keeps I get_this.
Proof. by intros s. Qed.

Lemma keeps_get_killed h : keeps I (get_killed h).
Proof. by intros s. Qed.

Lemma keeps_bind {A B} (m : M A) (k : A → M B) :
  keeps I m → (∀ a, keeps I (k a)) → keeps I (m ≫= k).
Proof.
  intros Hm Hk s Hs. unfold mbind, M_bind, bind.
  destruct (result (m s)) eqn:Hr; simpl; auto.
  apply Hk, Hm, Hs.
Qed.

Lemma keeps_try_catch {A} (body : M A) handler :
  keeps I body → (∀ e, keeps I (handler e)) → keeps I (try_catch body handler).
Proof.
  intros Hb Hh s Hs. unfold try_catch.
  destruct (result (body s)) eqn:Hr; simpl; auto.
  apply Hh, Hb, Hs.
Qed.

Lemma keeps_for_of {A} (l : list A) body :
  (∀ x, keeps I (body x)) → keeps I (for_of l body).
Proof.
  intros Hb. induction l as [|x l IH]; simpl.
  - apply keeps_ret.
  - apply keeps_bind; auto.
Qed.
End keeps.

Section emits.
Context (P : event → bool).

Lemma emits_ret {A} (a : A) : emits P (mret a).
Proof. intros s. constructor. Qed.

Lemma emits_throw {A} e : emits P (@throw A e).
Proof. intros s. constructor. Qed.

Lemma emits_uncaught {A} e : emits P (@uncaught A e).
Proof. intros s. constructor. Qed.

Lemma emits_get_this : emits P get_this.
Proof. intros s. constructor. Qed.

Lemma emits_get_killed h : emits P (get_killed h).
Proof. intros s. constructor. Qed.

Lemma emits_set_this f : emits P (set_this f).
Proof. intros s. constructor. Qed.

Lemma emits_set_env f : emits P (set_env f).
Proof. intros s. constructor. Qed.

Lemma emits_emit e : P e = true → emits P (emit e).
Proof. intros He s. by repeat constructor. Qed.

Lemma emits_spawn prog o : (∀ h, P (Spawn prog h) = true) → emits P (spawn prog o).
Proof. intros He s. repeat constructor. apply He. Qed.

Lemma emits_kill h sig : (∀ b, P (Kill h sig b) = true) → emits P (kill h sig).
Proof.
  intros He s. unfold kill.
  destruct (procs (env s) !! h) as [p|]; [destruct (exited p)|];
    repeat constructor; apply He.
Qed.

Lemma emits_bind {A B} (m : M A) (k : A → M B) :
  emits P m → (∀ a, emits P (k a)) → emits P (m ≫= k).
Proof.
  intros Hm Hk s. unfold mbind, M_bind, bind.
  destruct (result (m s)) eqn:Hr; simpl; auto.
  apply Forall_app; split; [apply Hm | apply Hk].
Qed.

Lemma emits_try_catch {A} (body : M A) handler :
  emits P body → (∀ e, emits P (handler e)) → emits P (try_catch body handler).
Proof.
  intros Hb Hh s. unfold try_catch.
  destruct (result (body s)) eqn:Hr; simpl; auto.
  apply Forall_app; split; [apply Hb | apply Hh].
Qed.

Lemma emits_for_of {A} (l : list A) body :
  (∀ x, emits P (body x)) → emits P (for_of l body).
Proof.
  intros Hb. induction l as [|x l IH]; simpl.
  - apply emits_ret.
  - apply emits_bind; auto.
Qed.
End emits.

Section returns.
Lemma returns_ret {A} (a : A) : returns (mret a).
Proof. intros s. by exists a. Qed.

Lemma returns_emit e : returns (emit e).
Proof. intros s. by exists tt. Qed.

Lemma returns_get_this : returns get_this.
Proof. intros s. by eexists. Qed.

Lemma returns_get_killed h : returns (get_killed h).
Proof. intros s. by eexists. Qed.

Lemma returns_set_this f : returns (set_this f).
Proof. intros s. by exists tt. Qed.

Lemma returns_set_env f : returns (set_env f).
Proof. intros s. by exists tt. Qed.

Lemma returns_spawn prog o : returns (spawn prog o).
Proof. intros s. by eexists. Qed.

Lemma returns_kill h sig : returns (kill h sig).
Proof.
  intros s. unfold kill.
  destruct (procs (env s) !! h) as [p|]; [destruct (exited p)|]; by eexists.
Qed.

Lemma returns_bind {A B} (m : M A) (k : A → M B) :
  returns m → (∀ a, returns (k a)) → returns (m ≫= k).
Proof.
  intros Hm Hk s. destruct (Hm s) as [a Ha].
  rewrite (bind_returned _ _ _ _ Ha). simpl. apply Hk.
Qed.

Lemma returns_for_of {A} (l : list A) body :
  (∀ x, returns (body x)) → returns (for_of l body).
Proof.
  intros Hb. induction l as [|x l IH]; simpl.
  - apply returns_ret.
  - apply returns_bind; auto.
Qed.

Lemma returns_unit (f : M unit) s : returns f → result (f s) = Returned tt.
Proof. intros Hf. destruct (Hf s) as [[] H]. exact H. Qed.
End returns.

(** Properties that only read the manager object, or only the world. *)
Section about_this.
Context (J : FirecrawlProcessManager → Prop).

Lemma this_set_env f : keeps (λ s, J (this s)) (set_env f).
Proof. by intros s. Qed.

Lemma this_spawn prog o : keeps (λ s, J (this s)) (spawn prog o).
Proof. by intros s. Qed.

Lemma this_kill h sig : keeps (λ s, J (this s)) (kill h sig).
Proof.
  intros s Hs. unfold kill.
  destruct (procs (env s) !! h) as [p|]; [destruct (exited p)|]; exact Hs.
Qed.

Lemma this_set_this f : (∀ m, J m → J (f m)) → keeps (λ s, J (this s)) (set_this f).
Proof. intros Hf s Hs. by apply Hf. Qed.
End about_this.

Section about_env.
Context (J : world → Prop).

Lemma env_set_this f : keeps (λ s, J (env s)) (set_this f).
Proof. by intros s. Qed.

End about_env.

Create HintDb mgr discriminated.

#[local] Hint Resolve keeps_ret keeps_throw keeps_uncaught keeps_emit keeps_get_this
  keeps_get_killed this_set_env this_spawn this_kill env_set_this : mgr.
#[local] Hint Resolve emits_ret emits_throw emits_uncaught emits_get_this emits_get_killed
  emits_set_this emits_set_env : mgr.
#[local] Hint Resolve returns_ret returns_emit returns_get_this returns_get_killed
  returns_set_this returns_set_env returns_spawn returns_kill : mgr.

(** Walks through a monadic program, leaving the steps the hints do not
    cover. *)
Ltac mstep0 :=
  repeat first
    [ progress intros
    | progress cbv beta
    | apply keeps_bind | apply keeps_try_catch | apply keeps_for_of
    | apply emits_bind | apply emits_try_catch | apply emits_for_of
    | apply returns_bind | apply returns_for_of
    | solve [eauto with mgr]
    | solve [apply emits_emit; reflexivity]
    | solve [apply emits_spawn; reflexivity]
    | solve [apply emits_kill; reflexivity]
    | solve [apply this_set_this; intros ? ?; assumption]
    | case_match ].

Ltac munfold :=
  unfold start, start_try, after_redis, ready_tail, stop, stop_loop, startRedis, startWorkers, startApiServer,
    waitForServices, waitForServices_with, healthCheck, client_healthCheck,
    terminate, grace_timer_fires, exit_listener_runs, delay, fetch, log,
    set_redisProcess, set_workerProcess, set_apiProcess.

(** Runs the straight-line part of a monadic program on a state. *)
Ltac mrun :=
  cbv [mbind M_bind bind mret M_ret ret throw uncaught try_catch emit log
       get_this set_this set_env elapse elapse_until delay fetch spawn get_killed
       set_redisProcess set_workerProcess set_apiProcess];
  cbn [result final events this env now procs app
       redisProcess workerProcess apiProcess config isShuttingDown].

(** Runs the first step of [(m ≫= k) s] under a projection, for a step [m]
    that is one of the primitives. *)
Ltac primitive_step :=
  cbv [mret M_ret ret emit log get_this set_this set_env
       elapse elapse_until spawn get_killed
       set_redisProcess set_workerProcess set_apiProcess];
  cbn [this env now procs redisProcess workerProcess apiProcess config isShuttingDown];
  reflexivity.

Ltac bstep :=
  first
    [ rewrite bind_assoc
    | rewrite bind_throw
    | rewrite bind_uncaught_now
    | erewrite events_bind_emit by primitive_step
    | erewrite events_bind_silent by primitive_step
    | erewrite result_bind_step by primitive_step
    | erewrite final_bind_step by primitive_step ];
  cbv beta.

(** Runs a straight-line program to its end. *)
Ltac brun :=
  unfold delay, fetch; repeat bstep;
  cbv [mret M_ret ret throw uncaught emit log];
  cbn [result final events].

(** *** The poll loop and the grace-period promise, step by step *)

Lemma keeps_poll I E maxAttempts delayMs todo attempt :
  (∀ ms, keeps I (elapse ms)) →
  keeps I (poll E maxAttempts delayMs todo attempt).
Proof.
  intros Hel. revert attempt.
  induction todo as [|todo IH]; intros attempt; simpl; munfold; mstep0.
Qed.

Lemma emits_poll P E maxAttempts delayMs todo attempt :
  (∀ m u r, P (Fetch m u r) = true) → (∀ ms, P (Delay ms) = true) →
  emits P (poll E maxAttempts delayMs todo attempt).
Proof.
  intros Hf Hd. revert attempt.
  induction todo as [|todo IH]; intros attempt; simpl; munfold;
    unfold elapse; mstep0; by apply emits_emit.
Qed.

Lemma await_cases name h grace s :
  await_exit_or_timeout name h grace s = grace_timer_fires name h grace s ∨
  ∃ p e, procs (env s) !! h = Some p ∧ exited p = false ∧ exit_at p = Some e ∧
         (e < now (env s) + grace)%N ∧
         await_exit_or_timeout name h grace s = exit_listener_runs h e s.
Proof.
  unfold await_exit_or_timeout.
  destruct (procs (env s) !! h) as [p|]; [|by left].
  destruct (exited p) eqn:Hx; [by left|].
  destruct (exit_at p) as [e|] eqn:He; [|by left].
  destruct (e <? now (env s) + grace)%N eqn:Hlt; [|by left].
  right. exists p, e. apply N.ltb_lt in Hlt. by repeat split.
Qed.

Lemma keeps_await I name h grace :
  keeps I (grace_timer_fires name h grace) →
  (∀ e, keeps I (exit_listener_runs h e)) →
  keeps I (await_exit_or_timeout name h grace).
Proof.
  intros Ht Hx s Hs.
  destruct (await_cases name h grace s) as [->|(p & e & _ & _ & _ & _ & ->)]; auto.
  by apply Hx.
Qed.

Lemma emits_await P name h grace :
  emits P (grace_timer_fires name h grace) →
  (∀ e, emits P (exit_listener_runs h e)) →
  emits P (await_exit_or_timeout name h grace).
Proof.
  intros Ht Hx s.
  destruct (await_cases name h grace s) as [->|(p & e & _ & _ & _ & _ & ->)];
    [apply Ht | apply Hx].
Qed.

Lemma returns_await name h grace : returns (await_exit_or_timeout name h grace).
Proof.
  intros s.
  destruct (await_cases name h grace s) as [->|(p & e & _ & _ & _ & _ & ->)];
    revert s; munfold; unfold elapse, elapse_until; mstep0.
Qed.

#[local] Hint Resolve returns_await : mgr.

Lemma returns_terminate name process : returns (terminate name process).
Proof. munfold. mstep0. Qed.

Lemma stop_returns s : result (stop s) = Returned tt.
Proof. apply returns_unit. munfold. mstep0. Qed.

(** The same walk, through the whole of [start] and [stop]. *)
Ltac mstep :=
  repeat first
    [ progress intros
    | progress cbv beta
    | assumption
    | apply keeps_poll | apply emits_poll
    | apply keeps_await | apply emits_await
    | apply keeps_bind | apply keeps_try_catch | apply keeps_for_of
    | apply emits_bind | apply emits_try_catch | apply emits_for_of
    | apply returns_bind | apply returns_for_of
    | solve [eauto with mgr]
    | solve [apply emits_emit; reflexivity]
    | solve [apply emits_spawn; reflexivity]
    | solve [apply emits_kill; reflexivity]
    | progress munfold
    | case_match ].

(** *** Steps that leave the manager object alone *)

(** Brings the facts of [about_this] for the property [J] into the context,
    where [mstep] finds them. *)
Ltac about_this J :=
  pose proof (this_set_env J) as Hthis_env;
  pose proof (this_spawn J) as Hthis_spawn;
  pose proof (this_kill J) as Hthis_kill;
  pose proof (λ ms, this_set_env J (λ w, {| now := (now w + ms)%N;
                 procs := settle (now w + ms)%N <$> procs w |})) as Hthis_elapse;
  pose proof (λ t, this_set_env J (λ w, {| now := N.max (now w) t;
                 procs := settle (N.max (now w) t) <$> procs w |})) as Hthis_until;
  pose proof (λ h, this_set_this J (λ m, {| redisProcess := Some h;
                 workerProcess := workerProcess m; apiProcess := apiProcess m;
                 config := config m; isShuttingDown := isShuttingDown m |})) as Hthis_redis;
  pose proof (λ h, this_set_this J (λ m, {| redisProcess := redisProcess m;
                 workerProcess := Some h; apiProcess := apiProcess m;
                 config := config m; isShuttingDown := isShuttingDown m |})) as Hthis_worker;
  pose proof (λ h, this_set_this J (λ m, {| redisProcess := redisProcess m;
                 workerProcess := workerProcess m; apiProcess := Some h;
                 config := config m; isShuttingDown := isShuttingDown m |})) as Hthis_api;
  cbv beta in Hthis_env, Hthis_spawn, Hthis_kill, Hthis_elapse, Hthis_until,
    Hthis_redis, Hthis_worker, Hthis_api;
  fold elapse in Hthis_elapse; fold elapse_until in Hthis_until;
  fold set_redisProcess in Hthis_redis; fold set_workerProcess in Hthis_worker;
  fold set_apiProcess in Hthis_api.

(** *** The shutting-down flag *)

Lemma flag_start_try b E : keeps (flag_is b) (start_try E).
Proof. unfold flag_is. about_this (λ m, isShuttingDown m = b). mstep. Qed.

Lemma flag_healthCheck b ms answer : keeps (flag_is b) (healthCheck ms answer).
Proof. unfold flag_is. about_this (λ m, isShuttingDown m = b). mstep. Qed.

Lemma stop_noop s : isShuttingDown (this s) = true → stop s = ret tt s.
Proof. intros H. unfold stop, mbind, M_bind, bind. simpl. by rewrite H. Qed.

Lemma stop_first s :
  isShuttingDown (this s) = false →
  let s1 := shutting_down s in
  stop s = {| result := result (stop_loop s1);
              final := final (stop_loop s1);
              events := (now (env s), Log "Stopping Firecrawl services...")
                          :: events (stop_loop s1) |}.
Proof. intros H. unfold stop, mbind, M_bind, bind. simpl. by rewrite H. Qed.

Lemma flag_stop_loop b : keeps (flag_is b) stop_loop.
Proof. unfold flag_is. about_this (λ m, isShuttingDown m = b). mstep. Qed.

Lemma stop_sets_flag s : isShuttingDown (this (final (stop s))) = true.
Proof.
  destruct (isShuttingDown (this s)) eqn:H.
  - by rewrite stop_noop.
  - rewrite stop_first by done. cbn [final]. by apply (flag_stop_loop true).
Qed.

Lemma stop_twice s : stop (final (stop s)) = ret tt (final (stop s)).
Proof. apply stop_noop, stop_sets_flag. Qed.

(** [start] is its [try] block, followed by [stop] when the block throws. *)
Lemma start_run E s :
  let rb := start_try E s in
  start E s =
    {| result := result rb;
       final := match result rb with
                | Rejected _ => final (stop (final rb))
                | _ => final rb
                end;
       events := (now (env s), Log "Starting Firecrawl services...")
                   :: events rb ++
                      match result rb with
                      | Rejected _ => events (stop (final rb))
                      | _ => []
                      end |}.
Proof.
  intros rb. unfold start.
  rewrite (bind_returned (log _) _ s tt eq_refl).
  change (final (log "Starting Firecrawl services..." s)) with s.
  change (events (log "Starting Firecrawl services..." s))
    with [(now (env s), Log "Starting Firecrawl services...")].
  unfold try_catch. fold rb.
  destruct (result rb) eqn:Hr; cbn [result final events app]; rewrite ?Hr, ?app_nil_r; try done.
  rewrite (bind_returned stop _ (final rb) tt (stop_returns _)).
  cbn [result final events throw]. by rewrite app_nil_r.
Qed.

Lemma start_rejected_flag E s e :
  result (start E s) = Rejected e → isShuttingDown (this (final (start E s))) = true.
Proof.
  rewrite start_run. simpl. intros Hr. rewrite Hr. apply stop_sets_flag.
Qed.

(** C5. [stop] is idempotent: it always returns normally, a second [stop]
    right after a first returns normally without changing anything and
    without any event (so without a signal to any process), the same holds
    for a [stop] after a [start] that failed and rolled back, and for a
    [stop] entered while the flag is already set (a [stop] in progress). *)
Theorem stop_idempotent s :
  result (stop s) = Returned tt ∧
  stop (final (stop s)) = ret tt (final (stop s)) ∧
  (∀ E e, result (start E s) = Rejected e →
          stop (final (start E s)) = ret tt (final (start E s))) ∧
  (isShuttingDown (this s) = true → stop s = ret tt s).
Proof.
  split; [apply stop_returns|].
  split; [apply stop_twice|].
  split; [|apply stop_noop].
  intros E e Hr. eapply stop_noop, start_rejected_flag, Hr.
Qed.

(** C9. Both health checks make exactly one request and always return:
    [true] exactly when a response arrived whose status is between 200 and
    299, [false] for any other status and when [fetch] threw.  The manager's
    request is a GET of [http://localhost:<port>/test] for the port of its
    configuration, [http://localhost:3002/test] on a manager made without
    one; the client's is a GET of [<baseUrl>/test]. *)
Theorem healthCheck_single_probe ms answer s baseUrl :
  result (healthCheck ms answer s) = Returned (answers_ok answer) ∧
  events (healthCheck ms answer s) =
    [((now (env s) + ms)%N,
      Fetch GET ("http://localhost:" +:+ pretty (port (config (this s))) +:+ "/test") answer)] ∧
  (∀ cwd, events (healthCheck ms answer (fresh cwd)) =
            [(ms, Fetch GET "http://localhost:3002/test" answer)]) ∧
  result (client_healthCheck baseUrl ms answer s) = Returned (answers_ok answer) ∧
  events (client_healthCheck baseUrl ms answer s) =
    [((now (env s) + ms)%N, Fetch GET (baseUrl +:+ "/test") answer)] ∧
  (answers_ok answer = true ↔ ∃ status, answer = Response status ∧ (200 ≤ status ≤ 299)%Z).
Proof.
  repeat split; try (by destruct answer).
  - destruct answer as [status|]; cbn [answers_ok]; [|done]. unfold ok.
    intros [H1 H2]%andb_prop. exists status. split; [done|]. lia.
  - intros (status & -> & H). cbn [answers_ok]. unfold ok.
    apply andb_true_intro. split; lia.
Qed.

(** *** Counting events *)

Lemma count_nil P : count P [] = 0.
Proof. reflexivity. Qed.

Lemma count_app P t1 t2 : count P (t1 ++ t2) = count P t1 + count P t2.
Proof. unfold count. by rewrite List.filter_app, length_app. Qed.

Lemma count_cons P te t : count P (te :: t) = (if P te.2 then 1 else 0) + count P t.
Proof. unfold count. simpl. by destruct (P te.2). Qed.

Lemma count_none P Q t :
  (∀ e, Q e = true → P e = false) →
  Forall (λ te, Q te.2 = true) t → count P t = 0.
Proof.
  intros HQ. induction 1 as [|te t Hte _ IH]; [done|].
  rewrite count_cons, IH, (HQ _ Hte). done.
Qed.

Lemma count_not_kill t : Forall (λ te, not_kill te.2 = true) t → count is_kill t = 0.
Proof. apply count_none. intros e. unfold not_kill. by destruct (is_kill e). Qed.

Lemma count_not_stop_loop t :
  Forall (λ te, not_stop_loop te.2 = true) t → count is_stop_loop t = 0.
Proof. apply count_none. intros e. unfold not_stop_loop. by destruct (is_stop_loop e). Qed.

(** *** Who signals, and who enters the termination loop *)

Lemma start_try_no_kill E : emits not_kill (start_try E).
Proof. mstep. Qed.

Lemma start_try_no_stop_loop E : emits not_stop_loop (start_try E).
Proof. mstep. Qed.

Lemma stop_loop_once : emits not_stop_loop stop_loop.
Proof. mstep. Qed.

Lemma healthCheck_no_stop_loop ms answer : emits not_stop_loop (healthCheck ms answer).
Proof. mstep. Qed.

Lemma stop_count s :
  count is_stop_loop (events (stop s)) = if isShuttingDown (this s) then 0 else 1.
Proof.
  destruct (isShuttingDown (this s)) eqn:H.
  - by rewrite stop_noop.
  - rewrite stop_first by done. cbn [events]. rewrite count_cons.
    rewrite count_not_stop_loop by apply stop_loop_once. done.
Qed.

Lemma start_no_kill E s :
  isShuttingDown (this s) = true → count is_kill (events (start E s)) = 0.
Proof.
  intros H. rewrite start_run. cbn [events].
  rewrite count_cons, count_app.
  rewrite count_not_kill by apply start_try_no_kill.
  pose proof (flag_start_try true E s H) as H'. unfold flag_is in H'.
  destruct (result (start_try E s)); [done| |done].
  by rewrite stop_noop.
Qed.

Lemma perform_flag c s :
  isShuttingDown (this s) = true → isShuttingDown (this (perform c s).1) = true.
Proof.
  intros H. destruct c as [E| |ms answer]; unfold perform; cbn [fst snd].
  - rewrite start_run. cbn [final].
    pose proof (flag_start_try true E s H) as H'. unfold flag_is in H'.
    destruct (result (start_try E s)); [done| |done]. apply stop_sets_flag.
  - apply stop_sets_flag.
  - by apply (flag_healthCheck true).
Qed.

Lemma perform_all_flag cs s :
  isShuttingDown (this s) = true → isShuttingDown (this (perform_all cs s).1) = true.
Proof.
  revert s. induction cs as [|c cs IH]; intros s H; simpl; [done|].
  pose proof (perform_flag c s H) as Hc.
  destruct (perform c s) as [s1 t1]. specialize (IH s1 Hc).
  by destruct (perform_all cs s1) as [s2 t2].
Qed.

Lemma perform_budget c s :
  count is_stop_loop (perform c s).2
    + (if isShuttingDown (this (perform c s).1) then 0 else 1)
  ≤ if isShuttingDown (this s) then 0 else 1.
Proof.
  destruct c as [E| |ms answer]; unfold perform; cbn [fst snd].
  - rewrite start_run. cbn [final events].
    rewrite count_cons, count_app.
    rewrite count_not_stop_loop by apply start_try_no_stop_loop.
    pose proof (flag_start_try (isShuttingDown (this s)) E s eq_refl) as H'.
    unfold flag_is in H'.
    destruct (result (start_try E s)); rewrite ?count_nil, ?stop_count, ?stop_sets_flag, ?H';
      simpl; destruct (isShuttingDown (this s)); simpl; lia.
  - rewrite stop_count, stop_sets_flag. destruct (isShuttingDown (this s)); simpl; lia.
  - rewrite count_not_stop_loop by apply healthCheck_no_stop_loop.
    pose proof (flag_healthCheck (isShuttingDown (this s)) ms answer s eq_refl) as H'.
    unfold flag_is in H'. rewrite H'. lia.
Qed.

Lemma perform_all_budget cs s :
  count is_stop_loop (perform_all cs s).2
    + (if isShuttingDown (this (perform_all cs s).1) then 0 else 1)
  ≤ if isShuttingDown (this s) then 0 else 1.
Proof.
  revert s. induction cs as [|c cs IH]; intros s; simpl; [lia|].
  pose proof (perform_budget c s) as Hc.
  destruct (perform c s) as [s1 t1]. specialize (IH s1).
  destruct (perform_all cs s1) as [s2 t2]. simpl in *.
  rewrite count_app. lia.
Qed.

(** C10. The shutting-down flag is set by [stop] and no later call clears
    it; over any sequence of calls the termination loop of [stop] is entered
    at most once; and once a [stop] has completed, whatever is called next, a
    later [start] sends no signal to any process (so a failing one rolls
    nothing back). *)
Theorem shutting_down_flag_monotone cs s E :
  isShuttingDown (this (final (stop s))) = true ∧
  (isShuttingDown (this s) = true →
   isShuttingDown (this (perform_all cs s).1) = true) ∧
  count is_stop_loop (perform_all cs s).2 ≤ 1 ∧
  count is_kill (events (start E (perform_all cs (final (stop s))).1)) = 0.
Proof.
  split; [apply stop_sets_flag|].
  split; [apply perform_all_flag|].
  split.
  - pose proof (perform_all_budget cs s). destruct (isShuttingDown (this s)); lia.
  - apply start_no_kill, perform_all_flag, stop_sets_flag.
Qed.

(** *** The readiness poll *)

Lemma poll_step E maxAttempts delayMs todo attempt s :
  let s1 := {| this := this s;
               env := {| now := (now (env s) + fetch_ms E attempt)%N;
                         procs := settle (now (env s) + fetch_ms E attempt)%N
                                    <$> procs (env s) |} |} in
  let probe := ((now (env s) + fetch_ms E attempt)%N,
                Fetch GET (test_url (config (this s))) (fetch_answer E attempt)) in
  poll E maxAttempts delayMs (S todo) attempt s =
    if answers_ok (fetch_answer E attempt)
    then {| result := Returned tt; final := s1; events := [probe] |}
    else if bool_decide (attempt = maxAttempts)
    then {| result := Rejected (readiness_error maxAttempts); final := s1;
            events := [probe] |}
    else
      let s2 := final (delay delayMs s1) in
      let r := poll E maxAttempts delayMs todo (S attempt) s2 in
      {| result := result r; final := final r;
         events := probe :: (now (env s1), Delay delayMs) :: events r |}.
Proof.
  cbv zeta. cbn [poll]. unfold fetch.
  destruct (fetch_answer E attempt) as [status|]; mrun; cbn [answers_ok].
  - destruct (ok status); [done|].
    destruct (bool_decide (attempt = maxAttempts)); [done|]. mrun. done.
  - destruct (bool_decide (attempt = maxAttempts)); [done|]. mrun. done.
Qed.

Lemma poll_exhausts E maxAttempts delayMs todo attempt s :
  (∀ k, attempt ≤ k ≤ maxAttempts → answers_ok (fetch_answer E k) = false) →
  attempt + todo = S maxAttempts → 0 < todo →
  result (poll E maxAttempts delayMs todo attempt s) = Rejected (readiness_error maxAttempts) ∧
  count is_fetch (events (poll E maxAttempts delayMs todo attempt s)) = todo.
Proof.
  revert attempt s. induction todo as [|todo IH]; intros attempt s Hno Hsum Hpos; [lia|].
  rewrite poll_step. cbv zeta. rewrite Hno by lia.
  case_bool_decide as Hlast.
  - cbn [result events]. split; [done|]. rewrite count_cons, count_nil. simpl. lia.
  - cbn [result events]. destruct (IH (S attempt) (final (delay delayMs
      {| this := this s;
         env := {| now := (now (env s) + fetch_ms E attempt)%N;
                   procs := settle (now (env s) + fetch_ms E attempt)%N
                              <$> procs (env s) |} |}))) as [Hr Hc].
    + intros k Hk. apply Hno. lia.
    + lia.
    + lia.
    + split; [done|]. rewrite !count_cons, Hc. simpl. lia.
Qed.

Lemma poll_first_ok E maxAttempts delayMs todo attempt k s :
  attempt ≤ k ≤ maxAttempts → attempt + todo = S maxAttempts →
  answers_ok (fetch_answer E k) = true →
  (∀ j, attempt ≤ j < k → answers_ok (fetch_answer E j) = false) →
  result (poll E maxAttempts delayMs todo attempt s) = Returned tt ∧
  count is_fetch (events (poll E maxAttempts delayMs todo attempt s)) = S k - attempt.
Proof.
  revert attempt s. induction todo as [|todo IH]; intros attempt s Hk Hsum Hok Hno; [lia|].
  rewrite poll_step. cbv zeta.
  destruct (decide (attempt = k)) as [->|Hne].
  - rewrite Hok. cbn [result events]. split; [done|].
    rewrite count_cons, count_nil. simpl. lia.
  - rewrite Hno by lia. rewrite bool_decide_eq_false_2 by lia.
    cbn [result events]. destruct (IH (S attempt) (final (delay delayMs
      {| this := this s;
         env := {| now := (now (env s) + fetch_ms E attempt)%N;
                   procs := settle (now (env s) + fetch_ms E attempt)%N
                              <$> procs (env s) |} |}))) as [Hr Hc].
    + lia.
    + lia.
    + done.
    + intros j Hj. apply Hno. lia.
    + split; [done|]. rewrite !count_cons, Hc. simpl. lia.
Qed.

(** C4 (as the code has it). The attempt budget is the constant 30 of
    [waitForServices]; for it, and for any budget [maxAttempts >= 1] of the
    same loop: when no probe gets an ok response the poll makes exactly
    [maxAttempts] probes and then rejects with the InternalError whose
    message names [maxAttempts] (worded as seconds), and when the [k]-th
    probe is the first with an ok response the poll returns after exactly
    [k] probes. *)
Theorem waitForServices_bounded E maxAttempts delayMs s :
  0 < maxAttempts →
  waitForServices E s = waitForServices_with 30 1000 E s ∧
  ((∀ k, 1 ≤ k ≤ maxAttempts → answers_ok (fetch_answer E k) = false) →
   result (waitForServices_with maxAttempts delayMs E s)
     = Rejected (McpError InternalError
         ("Firecrawl API server failed to respond after "
            +:+ pretty maxAttempts +:+ " seconds")) ∧
   count is_fetch (events (waitForServices_with maxAttempts delayMs E s)) = maxAttempts) ∧
  (∀ k, 1 ≤ k ≤ maxAttempts → answers_ok (fetch_answer E k) = true →
        (∀ j, 1 ≤ j < k → answers_ok (fetch_answer E j) = false) →
   result (waitForServices_with maxAttempts delayMs E s) = Returned tt ∧
   count is_fetch (events (waitForServices_with maxAttempts delayMs E s)) = k).
Proof.
  intros Hpos. split; [done|]. split.
  - intros Hno. apply poll_exhausts; [done|lia|done].
  - intros k Hk Hok Hno.
    destruct (poll_first_ok E maxAttempts delayMs maxAttempts 1 k s) as [Hr Hc];
      [done|lia|done|done|].
    split; [done|]. unfold waitForServices_with. rewrite Hc. lia.
Qed.

(** *** One termination, step by step *)

Lemma settle_killed t p : killed (settle t p) = killed p.
Proof. unfold settle. repeat case_match; done. Qed.

Lemma settle_on_term t p : on_term (settle t p) = on_term p.
Proof. unfold settle. repeat case_match; done. Qed.

Lemma settle_exited t p : exited p = true → exited (settle t p) = true.
Proof. intros H. unfold settle. rewrite H. exact H. Qed.

Lemma settle_due t p e : exit_at p = Some e → (e ≤ t)%N → exited (settle t p) = true.
Proof.
  unfold settle. intros -> He. destruct (exited p) eqn:Hx; [done|].
  apply N.leb_le in He. by rewrite He.
Qed.

Lemma settle_idle t p : exit_at p = None → settle t p = p.
Proof. unfold settle. intros ->. by destruct (exited p). Qed.

Lemma kill_live h sig s p :
  procs (env s) !! h = Some p → exited p = false →
  kill h sig s =
    {| result := Returned true;
       final := {| this := this s;
                   env := {| now := now (env s);
                             procs := <[h := signalled sig (now (env s)) p]> (procs (env s)) |} |};
       events := [(now (env s), Kill h sig true)] |}.
Proof. intros Hp Hx. unfold kill. by rewrite Hp, Hx. Qed.

(** What [terminate] does to a child that is up and has not been signalled:
    SIGTERM is delivered, and then the promise is awaited. *)
Lemma terminate_live name h s p :
  procs (env s) !! h = Some p → killed p = false → exited p = false →
  let s1 := {| this := this s;
               env := {| now := now (env s);
                         procs := <[h := signalled SIGTERM (now (env s)) p]> (procs (env s)) |} |} in
  let r := await_exit_or_timeout name h 5000 s1 in
  terminate name (Some h) s =
    {| result := result r; final := final r;
       events := (now (env s), Log ("Stopping " +:+ name +:+ "..."))
                   :: (now (env s), Kill h SIGTERM true) :: events r |}.
Proof.
  intros Hp Hk Hx. cbv zeta. unfold terminate.
  rewrite (bind_pure (get_killed h) _ s (killed p))
    by (unfold get_killed; by rewrite Hp).
  rewrite Hk. cbn [negb]. unfold log.
  rewrite (bind_step (emit _) _ s tt s _ eq_refl).
  rewrite (bind_step (kill _ _) _ s true _ _ (kill_live _ _ _ _ Hp Hx)).
  cbn [result final events app]. done.
Qed.

(** After a delivered signal the 5000 ms timer finds [killed] set. *)
Lemma grace_timer_after_signal name h grace s p :
  procs (env s) !! h = Some p → killed p = true →
  grace_timer_fires name h grace s =
    {| result := Returned tt;
       final := {| this := this s;
                   env := {| now := (now (env s) + grace)%N;
                             procs := settle (now (env s) + grace)%N <$> procs (env s) |} |};
       events := [((now (env s) + grace)%N, TimerFired grace)] |}.
Proof.
  intros Hp Hk. unfold grace_timer_fires. mrun.
  rewrite list_lookup_fmap, Hp. cbn [fmap option_fmap option_map from_option].
  rewrite settle_killed, Hk. done.
Qed.

(** C3 (what the code does). A child that is up, has not been signalled and
    ignores SIGTERM is sent SIGTERM and nothing else: when the 5000 ms timer
    fires, [killed] is already true, so no SIGKILL is sent, and [terminate]
    returns with the child still running. *)
Theorem terminate_never_escalates name h s p :
  procs (env s) !! h = Some p →
  killed p = false → exited p = false → exit_at p = None → on_term p = None →
  let r := terminate name (Some h) s in
  result r = Returned tt ∧
  events r = [(now (env s), Log ("Stopping " +:+ name +:+ "..."));
              (now (env s), Kill h SIGTERM true);
              ((now (env s) + 5000)%N, TimerFired 5000)] ∧
  count is_sigkill (events r) = 0 ∧
  now (env (final r)) = (now (env s) + 5000)%N ∧
  running (final r) h = true.
Proof.
  intros Hp Hk Hx He Ht. cbv zeta.
  rewrite (terminate_live _ _ _ _ Hp Hk Hx). cbv zeta.
  assert (Hlt : h < length (procs (env s))) by (by eapply lookup_lt_Some).
  set (p1 := signalled SIGTERM (now (env s)) p).
  assert (Hp1 : <[h:=p1]> (procs (env s)) !! h = Some p1)
    by (by apply list_lookup_insert_eq).
  assert (He1 : exit_at p1 = None) by (unfold p1, signalled; simpl; by rewrite He, Ht).
  unfold await_exit_or_timeout. cbn [env procs now]. rewrite Hp1.
  replace (exited p1) with false by (by rewrite <- Hx).
  rewrite He1.
  rewrite (grace_timer_after_signal name h 5000
             {| this := this s;
                env := {| now := now (env s); procs := <[h:=p1]> (procs (env s)) |} |}
             p1 Hp1 eq_refl).
  cbn [result final events env now procs]. unfold running. cbn [env procs].
  rewrite list_lookup_fmap, Hp1. cbn [fmap option_fmap option_map from_option].
  rewrite settle_idle by done. replace (exited p1) with false by (by rewrite <- Hx).
  done.
Qed.

(** *** How long things take *)

Lemma within_weaken {A} c c' (f : M A) : (c ≤ c')%N → within c f → within c' f.
Proof. intros Hc Hf s. specialize (Hf s). lia. Qed.

Lemma within_instant {A} (f : M A) :
  (∀ s, now (env (final (f s))) = now (env s)) → within 0 f.
Proof. intros Hf s. rewrite Hf. lia. Qed.

Lemma within_bind {A B} c1 c2 (m : M A) (k : A → M B) :
  within c1 m → (∀ a, within c2 (k a)) → within (c1 + c2) (m ≫= k).
Proof.
  intros Hm Hk s. specialize (Hm s). unfold mbind, M_bind, bind.
  destruct (result (m s)) as [a| |]; cbn [final]; [|lia|lia].
  specialize (Hk a (final (m s))). lia.
Qed.

Lemma within_kill h sig : within 0 (kill h sig).
Proof.
  apply within_instant. intros s. unfold kill.
  destruct (procs (env s) !! h) as [p|]; [destruct (exited p)|]; done.
Qed.

Lemma within_elapse ms : within ms (elapse ms).
Proof. intros s. unfold elapse, set_env. cbn [final env now]. lia. Qed.

Lemma within_grace_timer name h grace : within grace (grace_timer_fires name h grace).
Proof.
  unfold grace_timer_fires.
  apply (within_weaken (grace + (0 + (0 + 0)))%N); [lia|].
  apply within_bind; [apply within_elapse|intros _].
  apply within_bind; [by apply within_instant|intros _].
  apply within_bind; [by apply within_instant|intros k].
  destruct (negb k); [|by apply within_instant].
  apply (within_weaken (0 + (0 + 0))%N); [lia|].
  apply within_bind; [by apply within_instant|intros _].
  apply within_bind; [apply within_kill|intros _]. by apply within_instant.
Qed.

Lemma within_await name h grace : within grace (await_exit_or_timeout name h grace).
Proof.
  intros s.
  destruct (await_cases name h grace s) as [->|(p & e & _ & _ & _ & He & ->)].
  - apply within_grace_timer.
  - unfold exit_listener_runs. mrun. lia.
Qed.

Lemma within_terminate name process : within 5000 (terminate name process).
Proof.
  unfold terminate. destruct process as [h|].
  - apply (within_weaken (0 + (0 + (0 + 5000)))%N); [lia|].
    apply within_bind; [by apply within_instant|intros k].
    destruct (negb k).
    + apply within_bind; [by apply within_instant|intros _].
      apply within_bind; [apply within_kill|intros _]. apply within_await.
    + apply (within_weaken 0); [lia|]. by apply within_instant.
  - apply (within_weaken 0); [lia|]. by apply within_instant.
Qed.

Lemma within_stop_loop : within (3 * 5000) stop_loop.
Proof.
  unfold stop_loop.
  apply (within_weaken (0 + ((5000 + (5000 + (5000 + 0))) + 0))%N); [lia|].
  apply within_bind; [by apply within_instant|intros m].
  apply within_bind; [|intros _; by apply within_instant].
  cbn [for_of].
  repeat (apply within_bind; [apply within_terminate|intros _]).
  by apply within_instant.
Qed.

Lemma within_stop : within (3 * 5000) stop.
Proof.
  intros s. destruct (isShuttingDown (this s)) eqn:H.
  - rewrite stop_noop by done. cbn [ret final]. lia.
  - rewrite stop_first by done. cbn [final].
    apply (within_stop_loop (shutting_down s)).
Qed.

(** What the termination loop is made of: one [terminate] after the other,
    each on the world the one before left behind. *)
Lemma stop_loop_run s :
  let s1 := final (terminate "API Server" (apiProcess (this s)) s) in
  let s2 := final (terminate "Workers" (workerProcess (this s)) s1) in
  let s3 := final (terminate "Redis" (redisProcess (this s)) s2) in
  stop_loop s =
    {| result := Returned tt;
       final := s3;
       events := events (terminate "API Server" (apiProcess (this s)) s)
                 ++ events (terminate "Workers" (workerProcess (this s)) s1)
                 ++ events (terminate "Redis" (redisProcess (this s)) s2)
                 ++ [(now (env s3), Log "Firecrawl services stopped")] |}.
Proof.
  cbv zeta. unfold stop_loop.
  rewrite (bind_pure get_this _ s (this s) eq_refl). cbn [for_of].
  set (t1 := terminate "API Server" (apiProcess (this s))).
  set (t2 := terminate "Workers" (workerProcess (this s))).
  set (t3 := terminate "Redis" (redisProcess (this s))).
  pose proof (returns_unit t1 s (returns_terminate _ _)) as H1.
  pose proof (returns_unit t2 (final (t1 s)) (returns_terminate _ _)) as H2.
  pose proof (returns_unit t3 (final (t2 (final (t1 s)))) (returns_terminate _ _)) as H3.
  unfold mbind, M_bind, bind. rewrite H1. cbn [result final events].
  rewrite H2. cbn [result final events]. rewrite H3. cbn [result final events].
  unfold mret, M_ret, ret, log, emit. cbn [result final events].
  by rewrite !app_nil_r, <- !app_assoc.
Qed.

(** C2 (as stated) fails: three children that each need 4000 ms to exit
    after SIGTERM are terminated in 12000 ms, more than one grace period. *)
Lemma stop_takes_the_sum : ¬ concurrent_latency_bound.
Proof.
  intros H. specialize (H three_up).
  assert (Hnow : now (env (final (stop three_up))) = 12000%N) by (by vm_compute).
  rewrite Hnow in H. cbn in H. lia.
Qed.

(** *** What happens to one child while the others are dealt with *)

Lemma lookup_settled t (ps : list ChildProcess) h :
  (settle t <$> ps) !! h = settle t <$> ps !! h.
Proof. apply list_lookup_fmap. Qed.

Lemma lookup_spawned (ps : list ChildProcess) q h p :
  (ps ++ [q]) !! h = Some p → ps !! h = Some p ∨ (ps !! h = None ∧ p = q).
Proof.
  intros [H|[Hlen H]]%lookup_app_Some; [by left|right].
  split; [by apply lookup_ge_None_2|].
  destruct (h - length ps) as [|n]; simpl in H; [congruence|done].
Qed.

Lemma kill_lookup h' sig s h :
  procs (env (final (kill h' sig s))) !! h = procs (env s) !! h ∨
  ∃ p, h = h' ∧ procs (env s) !! h = Some p ∧ exited p = false ∧
       procs (env (final (kill h' sig s))) !! h = Some (signalled sig (now (env s)) p).
Proof.
  unfold kill. destruct (procs (env s) !! h') as [p|] eqn:Hp; [|by left].
  destruct (exited p) eqn:Hx; [by left|]. cbn [final env procs].
  destruct (decide (h = h')) as [->|Hne].
  - right. exists p. repeat split; try done.
    apply list_lookup_insert_eq. by eapply lookup_lt_Some.
  - left. by apply list_lookup_insert_ne.
Qed.

(** The other half of C3 holds: a child that exits [d] ms after SIGTERM,
    within the grace period, has its exit observed then; the timer is
    cleared and no SIGKILL is sent. *)
Lemma terminate_graceful_exit name h s p d :
  procs (env s) !! h = Some p →
  killed p = false → exited p = false → exit_at p = None →
  on_term p = Some d → (d < 5000)%N →
  let r := terminate name (Some h) s in
  events r = [(now (env s), Log ("Stopping " +:+ name +:+ "..."));
              (now (env s), Kill h SIGTERM true);
              ((now (env s) + d)%N, ExitEvent h);
              ((now (env s) + d)%N, TimerCleared)] ∧
  running (final r) h = false.
Proof.
  intros Hp Hk Hx He Ht Hd. cbv zeta.
  rewrite (terminate_live _ _ _ _ Hp Hk Hx). cbv zeta.
  assert (Hlt : h < length (procs (env s))) by (by eapply lookup_lt_Some).
  set (p1 := signalled SIGTERM (now (env s)) p).
  assert (Hp1 : <[h:=p1]> (procs (env s)) !! h = Some p1)
    by (by apply list_lookup_insert_eq).
  assert (He1 : exit_at p1 = Some (now (env s) + d)%N)
    by (unfold p1, signalled; simpl; by rewrite He, Ht).
  unfold await_exit_or_timeout. cbn [env procs now]. rewrite Hp1.
  replace (exited p1) with false by (by rewrite <- Hx).
  rewrite He1.
  assert (Hlt' : (now (env s) + d <? now (env s) + 5000)%N = true)
    by (apply N.ltb_lt; lia).
  rewrite Hlt'. unfold exit_listener_runs. mrun.
  rewrite N.max_r by lia. split; [done|].
  unfold running. cbn [env procs].
  rewrite lookup_settled, Hp1. cbn [fmap option_fmap option_map from_option].
  by rewrite (settle_due _ _ _ He1).
Qed.

(** The guard of the timer callback makes the forceful kill dead code: the
    callback only reaches [kill('SIGKILL')] when [killed] is false, that is
    when SIGTERM could not be delivered because the child was already gone,
    and then SIGKILL cannot be delivered either. *)
Lemma grace_timer_no_sigkill name h grace s :
  from_option (λ p, killed p || exited p) true (procs (env s) !! h) = true →
  count is_delivered_sigkill (events (grace_timer_fires name h grace s)) = 0.
Proof.
  intros Hs. unfold grace_timer_fires.
  do 2 bstep.
  rewrite count_cons. cbn [snd is_delivered_sigkill].
  erewrite events_bind_silent by primitive_step. cbv beta. cbn [env procs].
  rewrite lookup_settled.
  destruct (procs (env s) !! h) as [p|] eqn:Hp; cbn [fmap option_fmap option_map from_option].
  - rewrite settle_killed. cbn [from_option] in Hs.
    destruct (killed p) eqn:Hk; cbn [negb]; [done|].
    cbn [orb] in Hs.
    unfold log. erewrite events_bind_emit by primitive_step. cbv beta.
    rewrite count_cons. cbn [snd is_delivered_sigkill].
    unfold mbind, M_bind, bind, kill. cbn [env procs].
    rewrite lookup_settled, Hp. cbn [fmap option_fmap option_map].
    by rewrite (settle_exited _ _ Hs).
  - cbn [negb]. unfold log. erewrite events_bind_emit by primitive_step. cbv beta.
    rewrite count_cons. cbn [snd is_delivered_sigkill].
    unfold mbind, M_bind, bind, kill. cbn [env procs].
    rewrite lookup_settled, Hp. done.
Qed.

Lemma terminate_no_sigkill name process s :
  count is_delivered_sigkill (events (terminate name process s)) = 0.
Proof.
  destruct process as [h|]; [|done]. unfold terminate.
  rewrite (bind_pure (get_killed h) _ s _ eq_refl).
  destruct (procs (env s) !! h) as [p|] eqn:Hp; cbn [from_option].
  - destruct (killed p) eqn:Hk; cbn [negb]; [done|].
    unfold log. erewrite events_bind_emit by primitive_step. cbv beta.
    rewrite count_cons. cbn [snd is_delivered_sigkill].
    destruct (exited p) eqn:Hx.
    + unfold mbind, M_bind, bind, kill. rewrite Hp, Hx. cbn [result final events].
      rewrite count_app. cbn [count]. unfold await_exit_or_timeout. rewrite Hp, Hx.
      rewrite grace_timer_no_sigkill; [done|]. rewrite Hp. cbn. by rewrite Hx, orb_true_r.
    + rewrite (bind_step _ _ _ _ _ _ (kill_live _ _ _ _ Hp Hx)). cbn [events].
      rewrite count_app. cbn [count].
      assert (Hlt : h < length (procs (env s))) by (by eapply lookup_lt_Some).
      match goal with |- context [await_exit_or_timeout name h 5000 ?s1] =>
        destruct (await_cases name h 5000 s1) as [->|(q & e & _ & _ & _ & _ & ->)]
      end.
      * rewrite grace_timer_no_sigkill; [done|]. cbn [env procs].
        by rewrite list_lookup_insert_eq.
      * unfold exit_listener_runs. brun. done.
  - cbn [negb]. unfold log. erewrite events_bind_emit by primitive_step. cbv beta.
    rewrite count_cons. cbn [snd is_delivered_sigkill].
    unfold mbind, M_bind, bind, kill. rewrite Hp. cbn [result final events].
    rewrite count_app. cbn [count]. unfold await_exit_or_timeout. rewrite Hp.
    rewrite grace_timer_no_sigkill; [done|]. by rewrite Hp.
Qed.

(** So [stop] never delivers a SIGKILL, whatever the children do. *)
Lemma stop_never_delivers_sigkill s :
  count is_delivered_sigkill (events (stop s)) = 0.
Proof.
  destruct (isShuttingDown (this s)) eqn:H.
  - by rewrite stop_noop.
  - rewrite stop_first by done. cbn [events]. rewrite count_cons.
    cbn [snd is_delivered_sigkill]. rewrite stop_loop_run. cbv zeta. cbn [events].
    by rewrite !count_app, !terminate_no_sigkill.
Qed.

Section one_child.
Context (h : nat).

Lemma gone_settled x t t' s :
  gone h s →
  gone h {| this := x; env := {| now := t'; procs := settle t <$> procs (env s) |} |}.
Proof.
  intros (p & Hp & Hx). exists (settle t p). cbn [env procs].
  rewrite lookup_settled, Hp. split; [done|]. by apply settle_exited.
Qed.

Lemma gone_elapse ms : keeps (gone h) (elapse ms).
Proof. intros s. apply gone_settled. Qed.

Lemma gone_elapse_until t : keeps (gone h) (elapse_until t).
Proof. intros s. apply gone_settled. Qed.

Lemma gone_kill h' sig : keeps (gone h) (kill h' sig).
Proof.
  intros s (p & Hp & Hx).
  destruct (kill_lookup h' sig s h) as [H|(q & _ & Hq & Hqx & _)].
  - exists p. by rewrite H.
  - congruence.
Qed.

Lemma gone_unsignalled s : gone h s → unsignalled h s.
Proof. intros (p & Hp & Hx) q Hq _. congruence. Qed.

Lemma unsignalled_settled x t t' s :
  unsignalled h s →
  unsignalled h {| this := x; env := {| now := t'; procs := settle t <$> procs (env s) |} |}.
Proof.
  intros Hs p. cbn [env procs]. rewrite lookup_settled.
  destruct (procs (env s) !! h) as [q|] eqn:Hq; [|done].
  intros [= <-]. rewrite settle_killed. intros Hk. apply settle_exited. by apply Hs.
Qed.

Lemma unsignalled_elapse ms : keeps (unsignalled h) (elapse ms).
Proof. intros s. apply unsignalled_settled. Qed.

Lemma unsignalled_elapse_until t : keeps (unsignalled h) (elapse_until t).
Proof. intros s. apply unsignalled_settled. Qed.

Lemma unsignalled_kill h' sig : h ≠ h' → keeps (unsignalled h) (kill h' sig).
Proof.
  intros Hne s Hs p.
  destruct (kill_lookup h' sig s h) as [->|(q & ? & _)]; [apply Hs|done].
Qed.

Lemma unsignalled_spawn prog o : keeps (unsignalled h) (spawn prog o).
Proof.
  intros s Hs p. unfold spawn. cbn [final env procs].
  intros [Hp|[_ ->]]%lookup_spawned; [by apply Hs|]. by destruct o.
Qed.

Lemma unsignalled_set_this f : keeps (unsignalled h) (set_this f).
Proof. by intros s. Qed.

Lemma reaction_settled x t t' s :
  reaction h {| this := x; env := {| now := t'; procs := settle t <$> procs (env s) |} |}
  = reaction h s.
Proof.
  unfold reaction. cbn [env procs]. rewrite lookup_settled.
  destruct (procs (env s) !! h) as [p|]; [|done]. cbn. by rewrite settle_on_term.
Qed.

Lemma reaction_elapse o ms : keeps (λ s, reaction h s = o) (elapse ms).
Proof. intros s. unfold elapse, set_env. cbn [final]. by rewrite reaction_settled. Qed.

Lemma reaction_elapse_until o t : keeps (λ s, reaction h s = o) (elapse_until t).
Proof. intros s. unfold elapse_until, set_env. cbn [final]. by rewrite reaction_settled. Qed.

Lemma reaction_kill o h' sig : keeps (λ s, reaction h s = o) (kill h' sig).
Proof.
  intros s <-. unfold reaction.
  destruct (kill_lookup h' sig s h) as [->|(q & _ & -> & _ & ->)]; done.
Qed.
End one_child.

Lemma gone_terminate h name process : keeps (gone h) (terminate name process).
Proof.
  pose proof (gone_elapse h). pose proof (gone_elapse_until h). pose proof (gone_kill h).
  mstep.
Qed.

Lemma reaction_terminate h o name process :
  keeps (λ s, reaction h s = o) (terminate name process).
Proof.
  pose proof (reaction_elapse h o). pose proof (reaction_elapse_until h o).
  pose proof (reaction_kill h o).
  mstep.
Qed.

Lemma unsignalled_terminate h h' name :
  h ≠ h' → keeps (unsignalled h) (terminate name (Some h')).
Proof.
  intros Hne.
  pose proof (unsignalled_elapse h). pose proof (unsignalled_elapse_until h).
  pose proof (λ sig, unsignalled_kill h h' sig Hne).
  mstep.
Qed.

(** A child that reacts to SIGTERM in less than the grace period is gone
    when its [terminate] returns. *)
Lemma terminate_prompt name h d s :
  reaction h s = Some (Some d) → (d < 5000)%N → unsignalled h s →
  gone h (final (terminate name (Some h) s)).
Proof.
  unfold reaction. intros Hr Hd Hu.
  destruct (procs (env s) !! h) as [p|] eqn:Hp; [|done].
  injection Hr as Hr.
  destruct (exited p) eqn:Hx.
  { apply gone_terminate. by exists p. }
  destruct (killed p) eqn:Hk.
  { specialize (Hu p Hp Hk). congruence. }
  rewrite (terminate_live _ _ _ _ Hp Hk Hx). cbv zeta. cbn [final].
  assert (Hlt : h < length (procs (env s))) by (by eapply lookup_lt_Some).
  set (p1 := signalled SIGTERM (now (env s)) p).
  assert (Hp1 : <[h:=p1]> (procs (env s)) !! h = Some p1)
    by (by apply list_lookup_insert_eq).
  assert (He1 : ∃ e, exit_at p1 = Some e ∧ (e < now (env s) + 5000)%N).
  { unfold p1, signalled. cbn [exit_at]. rewrite Hr. cbn.
    destruct (exit_at p) as [e0|]; cbn; eexists; (split; [done|]); lia. }
  destruct He1 as (e & He & Hlt').
  unfold await_exit_or_timeout. cbn [env procs now]. rewrite Hp1.
  replace (exited p1) with false by (by rewrite <- Hx).
  rewrite He. apply N.ltb_lt in Hlt' as ->.
  unfold exit_listener_runs. mrun.
  exists (settle (N.max (now (env s)) e) p1). cbn [env procs].
  rewrite lookup_settled, Hp1. split; [done|].
  apply (settle_due _ _ e He). lia.
Qed.

Lemma terminate_progress name process h d s :
  reaction h s = Some (Some d) → (d < 5000)%N → unsignalled h s →
  let s' := final (terminate name process s) in
  reaction h s' = Some (Some d) ∧ unsignalled h s' ∧ (process = Some h → gone h s').
Proof.
  intros Hr Hd Hu. cbv zeta.
  split; [by apply (reaction_terminate h (Some (Some d)))|].
  destruct process as [h'|]; [|done].
  destruct (decide (h' = h)) as [->|Hne].
  - pose proof (terminate_prompt name h d s Hr Hd Hu) as Hg.
    split; [by apply gone_unsignalled|done].
  - split; [by apply unsignalled_terminate|congruence].
Qed.

Lemma stop_loop_gone h d s :
  Some h ∈ handles (this s) →
  reaction h s = Some (Some d) → (d < 5000)%N → unsignalled h s →
  gone h (final (stop_loop s)).
Proof.
  intros Hin Hr Hd Hu. rewrite stop_loop_run. cbv zeta. cbn [final].
  destruct (terminate_progress "API Server" (apiProcess (this s)) h d s Hr Hd Hu)
    as (Hr1 & Hu1 & Hg1).
  destruct (terminate_progress "Workers" (workerProcess (this s)) h d _ Hr1 Hd Hu1)
    as (Hr2 & Hu2 & Hg2).
  destruct (terminate_progress "Redis" (redisProcess (this s)) h d _ Hr2 Hd Hu2)
    as (Hr3 & Hu3 & Hg3).
  unfold handles in Hin. rewrite !elem_of_cons in Hin.
  destruct Hin as [Hin|[Hin|[Hin|Hin]]].
  - by apply gone_terminate, gone_terminate, Hg1.
  - by apply gone_terminate, Hg2.
  - by apply Hg3.
  - by apply elem_of_nil in Hin.
Qed.

Lemma reaction_stop_loop h o : keeps (λ s, reaction h s = o) stop_loop.
Proof.
  pose proof (reaction_elapse h o). pose proof (reaction_elapse_until h o).
  pose proof (reaction_kill h o).
  mstep.
Qed.

Lemma handles_stop_loop hs : keeps (λ s, handles (this s) = hs) stop_loop.
Proof. about_this (λ m, handles m = hs). mstep. Qed.

Lemma handles_stop s : handles (this (final (stop s))) = handles (this s).
Proof.
  destruct (isShuttingDown (this s)) eqn:H.
  - by rewrite stop_noop.
  - rewrite stop_first by done. cbn [final].
    by apply (handles_stop_loop (handles (this s)) (shutting_down s)).
Qed.

(** *** The [try] block sends no signal *)

Lemma unsignalled_start_try h E : keeps (unsignalled h) (start_try E).
Proof.
  pose proof (unsignalled_elapse h). pose proof (unsignalled_spawn h).
  pose proof (unsignalled_set_this h).
  mstep.
Qed.

(** C1 (as the code has it). On a manager whose shutting-down flag is clear
    and whose children have no signal pending, a [start] that fails calls
    [stop] once before it rejects (the termination loop is entered, the
    flag is set), and afterwards every child behind a handle field that
    reacts to SIGTERM within the grace period is gone. *)
Theorem start_rolls_back E s e :
  isShuttingDown (this s) = false → calm s →
  result (start E s) = Rejected e →
  count is_stop_loop (events (start E s)) = 1 ∧
  isShuttingDown (this (final (start E s))) = true ∧
  ∀ h p, managed (final (start E s)) h →
         procs (env (final (start E s))) !! h = Some p →
         prompt p → running (final (start E s)) h = false.
Proof.
  intros Hflag Hcalm Hrej.
  pose proof (start_rejected_flag E s e Hrej) as Hset.
  revert Hrej Hset. rewrite start_run. cbv zeta. cbn [result final events].
  intros Hrej _. rewrite Hrej.
  pose proof (flag_start_try false E s Hflag) as Hf. unfold flag_is in Hf.
  set (s2 := final (start_try E s)) in *.
  split; [|split].
  - rewrite count_cons, count_app, stop_count, Hf.
    rewrite count_not_stop_loop by apply start_try_no_stop_loop. done.
  - apply stop_sets_flag.
  - intros h p Hm Hp (d & Hd & Hlt).
    unfold managed in Hm. rewrite handles_stop in Hm. revert Hp.
    rewrite stop_first by done. cbn [final]. intros Hp.
    assert (Hr : reaction h (shutting_down s2) = Some (Some d)).
    { pose proof (reaction_stop_loop h _ (shutting_down s2) eq_refl) as Hr.
      cbv beta in Hr. rewrite <- Hr. unfold reaction. by rewrite Hp, <- Hd. }
    assert (Hu : unsignalled h (shutting_down s2)).
    { change (unsignalled h s2). apply (unsignalled_start_try h E s).
      intros q. apply Hcalm. }
    destruct (stop_loop_gone h d (shutting_down s2) Hm Hr Hlt Hu) as (q & Hq & Hx).
    unfold running. rewrite Hq. cbn. by rewrite Hx.
Qed.

Lemma keeps_healthCheck_unsignalled h ms answer :
  keeps (unsignalled h) (healthCheck ms answer).
Proof. pose proof (unsignalled_elapse h). mstep. Qed.

(** The hypotheses of [start_rolls_back] hold on every instance on which
    [stop] has not run: until then no child has been signalled. *)
Lemma calm_until_stop cs s :
  calm s → isShuttingDown (this (perform_all cs s).1) = false →
  calm (perform_all cs s).1.
Proof.
  revert s. induction cs as [|c cs IH]; intros s Hs; [done|].
  cbn [perform_all].
  assert (Hc : isShuttingDown (this (perform c s).1) = false → calm (perform c s).1).
  { destruct c as [E| |ms answer]; unfold perform; cbn [fst].
    - rewrite start_run. cbn [final].
      destruct (result (start_try E s)); rewrite ?stop_sets_flag; try done;
        intros _ h; apply unsignalled_start_try; intros p; apply Hs.
    - by rewrite stop_sets_flag.
    - intros _ h. apply keeps_healthCheck_unsignalled. intros p. apply Hs. }
  destruct (perform c s) as [s1 t1]. cbn [fst] in Hc.
  specialize (IH s1).
  destruct (perform_all cs s1) as [s2 t2] eqn:Hall. cbn [fst] in *.
  intros Hflag. apply IH; [|done]. apply Hc.
  destruct (isShuttingDown (this s1)) eqn:H1; [|done].
  pose proof (perform_all_flag cs s1 H1) as H2. rewrite Hall in H2. cbn in H2. congruence.
Qed.

(** C1 (as stated) fails: on a manager that was stopped before, a failing
    [start] leaves Redis, the workers and the API server running. *)
Lemma start_after_stop_leaks : ¬ rollback_complete.
Proof.
  intros H.
  specialize (H (never_ready 0) (final (stop (fresh "/opt/firecrawl")))
                (readiness_error 30) 2).
  assert (Hrun : running (final (start (never_ready 0)
                   (final (stop (fresh "/opt/firecrawl"))))) 2 = true) by (by vm_compute).
  rewrite H in Hrun; [done|by vm_compute|].
  unfold managed.
  replace (handles _) with [Some 2; Some 1; Some 0] by (by vm_compute).
  apply list_elem_of_here.
Qed.

(** C4 (as stated) fails for the elapsed duration: two polls that take
    29000 ms and 32000 ms fail with the same error. *)
Lemma readiness_error_has_no_duration : ¬ error_carries_elapsed.
Proof.
  intros [elapsed_of H].
  pose proof (H (never_ready 0) (fresh "/opt/firecrawl") (readiness_error 30)) as H0.
  pose proof (H (never_ready 100) (fresh "/opt/firecrawl") (readiness_error 30)) as H1.
  assert (Hf0 : now (env (final (waitForServices (never_ready 0) (fresh "/opt/firecrawl"))))
                = 29000%N) by (by vm_compute).
  assert (Hf1 : now (env (final (waitForServices (never_ready 100) (fresh "/opt/firecrawl"))))
                = 32000%N) by (by vm_compute).
  rewrite Hf0 in H0. rewrite Hf1 in H1.
  specialize (H0 ltac:(by vm_compute)). specialize (H1 ltac:(by vm_compute)).
  cbn [fresh env now] in H0, H1. lia.
Qed.

(** *** The handle fields *)

Section handle_fields.
Context (J : FirecrawlProcessManager → Prop).
Context (J_redis : ∀ h m, J m →
  J {| redisProcess := Some h; workerProcess := workerProcess m;
       apiProcess := apiProcess m; config := config m;
       isShuttingDown := isShuttingDown m |}).
Context (J_worker : ∀ h m, J m →
  J {| redisProcess := redisProcess m; workerProcess := Some h;
       apiProcess := apiProcess m; config := config m;
       isShuttingDown := isShuttingDown m |}).
Context (J_api : ∀ h m, J m →
  J {| redisProcess := redisProcess m; workerProcess := workerProcess m;
       apiProcess := Some h; config := config m;
       isShuttingDown := isShuttingDown m |}).
Context (J_flag : ∀ m, J m →
  J {| redisProcess := redisProcess m; workerProcess := workerProcess m;
       apiProcess := apiProcess m; config := config m;
       isShuttingDown := true |}).

Lemma field_start_try E : keeps (λ s, J (this s)) (start_try E).
Proof using J_redis J_worker J_api. about_this J. mstep. Qed.

Lemma field_stop : keeps (λ s, J (this s)) stop.
Proof using J_flag.
  about_this J. pose proof (this_set_this J _ J_flag). mstep.
Qed.

Lemma field_healthCheck ms answer : keeps (λ s, J (this s)) (healthCheck ms answer).
Proof using Type. about_this J. mstep. Qed.

Lemma field_start E : keeps (λ s, J (this s)) (start E).
Proof using J_redis J_worker J_api J_flag.
  pose proof field_stop. pose proof (field_start_try E).
  unfold start, log. mstep.
Qed.

Lemma field_perform_all cs s : J (this s) → J (this (perform_all cs s).1).
Proof using J_redis J_worker J_api J_flag.
  revert s. induction cs as [|c cs IH]; intros s Hs; [done|].
  cbn [perform_all].
  assert (Hc : J (this (perform c s).1)).
  { destruct c as [E| |ms answer]; unfold perform; cbn [fst].
    - by apply field_start.
    - by apply field_stop.
    - by apply field_healthCheck. }
  destruct (perform c s) as [s1 t1]. specialize (IH s1 Hc).
  by destruct (perform_all cs s1) as [s2 t2].
Qed.
End handle_fields.

(** C8 (as the code has it). A handle field is undefined exactly as long as
    its child has not been spawned (Unstarted).  Once assigned it is never
    cleared: no sequence of calls makes a handle field undefined again, and
    [stop] leaves the three fields as they are, also when it has observed
    the exit of their children. *)
Theorem handles_never_released cs s :
  (∀ handle, lifecycle_of s handle = Unstarted ↔ handle = None) ∧
  (is_Some (redisProcess (this s)) →
   is_Some (redisProcess (this (perform_all cs s).1))) ∧
  (is_Some (workerProcess (this s)) →
   is_Some (workerProcess (this (perform_all cs s).1))) ∧
  (is_Some (apiProcess (this s)) →
   is_Some (apiProcess (this (perform_all cs s).1))) ∧
  handles (this (final (stop s))) = handles (this s).
Proof.
  split; [|split; [|split; [|split]]].
  - intros [h|]; [|done]. unfold lifecycle_of.
    split; [|done]. repeat case_match; done.
  - apply (field_perform_all (λ m, is_Some (redisProcess m))); cbn; eauto.
  - apply (field_perform_all (λ m, is_Some (workerProcess m))); cbn; eauto.
  - apply (field_perform_all (λ m, is_Some (apiProcess m))); cbn; eauto.
  - apply handles_stop.
Qed.

(** C8 (as stated) fails: after a successful [start] and a [stop] that saw
    the API server exit, [apiProcess] is still set while its child is
    Stopped. *)
Lemma handle_kept_after_exit : ¬ handle_iff_live.
Proof.
  intros H.
  specialize (H "/opt/firecrawl" [CallStart ready_at_once; CallStop] (Some 2)).
  cbv zeta in H.
  assert (Hh : handles (this (perform_all [CallStart ready_at_once; CallStop]
                                (fresh "/opt/firecrawl")).1)
               = [Some 2; Some 1; Some 0]) by (by vm_compute).
  assert (Hl : lifecycle_of (perform_all [CallStart ready_at_once; CallStop]
                               (fresh "/opt/firecrawl")).1 (Some 2) = Stopped)
    by (by vm_compute).
  rewrite Hh, Hl in H. cbn in H.
  destruct H as [H _]; [apply list_elem_of_here|]. by specialize (H (mk_is_Some _ _ eq_refl)).
Qed.

(** *** The order of the stages *)

Lemma startRedis_not_stage E : emits not_stage (startRedis E).
Proof. mstep. Qed.

Lemma ready_tail_not_stage E : emits not_stage (ready_tail E).
Proof. mstep. Qed.

Lemma stop_not_stage : emits not_stage stop.
Proof. mstep. Qed.


Lemma startRedis_live E s :
  result (startRedis E s) = Returned tt → broker_live (events (startRedis E s)).
Proof.
  unfold startRedis. destruct (ping E) as [ms code|]; [|done].
  destruct (bool_decide (code = Some 0%Z)) eqn:Hc.
  - apply bool_decide_eq_true in Hc as ->. brun. intros _. left.
    eexists. apply list_elem_of_here.
  - destruct (redis E) as [d|msg|d code'|]; repeat bstep;
      repeat case_match; repeat bstep; repeat case_match; brun; try done.
    intros _. right. do 3 eexists.
    split; repeat first [apply list_elem_of_here | apply list_elem_of_further].
Qed.

Lemma broker_live_mono t t' : t ⊆ t' → broker_live t → broker_live t'.
Proof.
  intros Hsub [[t0 H]|(t1 & t2 & h & H1 & H2)]; [left|right].
  - exists t0. by apply Hsub.
  - exists t1, t2, h. split; by apply Hsub.
Qed.

Lemma after_redis_shape E s :
  ∃ l1 l2 h B,
    events (after_redis E s) =
      (now (env s), Delay 2000)
      :: ((now (env s) + 2000)%N, Log l1)
      :: ((now (env s) + 2000)%N, Log l2)
      :: ((now (env s) + 2000)%N, Spawn QueueWorker h)
      :: B ∧
    (Forall (λ te, not_stage te.2 = true) B ∨
     ∃ l3 l4 h' B',
       B = ((now (env s) + 2000)%N, Log l3)
           :: ((now (env s) + 2000)%N, Log l4)
           :: ((now (env s) + 2000)%N, Spawn ApiIndex h')
           :: B' ∧
       Forall (λ te, not_stage te.2 = true) B').
Proof.
  unfold after_redis, startWorkers, startApiServer, delay.
  destruct (worker E) as [cw|msgw] eqn:Hw.
  - destruct (api E) as [ca|msga] eqn:Ha; repeat bstep.
    + do 4 eexists. split; [reflexivity|]. right. do 4 eexists.
      split; [reflexivity|]. apply ready_tail_not_stage.
    + do 4 eexists. split; [reflexivity|]. right. do 4 eexists.
      split; [reflexivity|]. by repeat constructor.
  - repeat bstep. do 4 eexists. split; [reflexivity|]. left.
    by repeat constructor.
Qed.

Lemma start_try_split E s : start_try E s = (startRedis E ≫= λ _, after_redis E) s.
Proof. reflexivity. Qed.

Lemma rollback_not_stage {A} (r : outcome A) s :
  Forall (λ te, not_stage te.2 = true)
    match r with Rejected _ => events (stop s) | _ => [] end.
Proof. destruct r; [constructor|apply stop_not_stage|constructor]. Qed.

Lemma shape_assemble {X} (x : X) R d l1 l2 w B S :
  (x :: R ++ d :: l1 :: l2 :: w :: B) ++ S = (x :: R) ++ d :: l1 :: l2 :: w :: B ++ S.
Proof. by rewrite <- !app_comm_cons, <- !app_assoc, <- !app_comm_cons. Qed.

(** Either [start] spawns neither workers nor API server, or its events are
    the broker stage, the 2000 ms delay, the spawn of the workers and then,
    if at all, two log lines and the spawn of the API server. *)
Lemma start_shape E s :
  Forall (λ te, not_stage te.2 = true) (events (start E s)) ∨
  ∃ A t0 l1 l2 h B,
    events (start E s) =
      A ++ (t0, Delay 2000)
        :: ((t0 + 2000)%N, Log l1)
        :: ((t0 + 2000)%N, Log l2)
        :: ((t0 + 2000)%N, Spawn QueueWorker h)
        :: B ∧
    broker_live A ∧
    Forall (λ te, not_stage te.2 = true) A ∧
    (Forall (λ te, not_stage te.2 = true) B ∨
     ∃ l3 l4 h' B',
       B = ((t0 + 2000)%N, Log l3)
           :: ((t0 + 2000)%N, Log l4)
           :: ((t0 + 2000)%N, Spawn ApiIndex h')
           :: B' ∧
       Forall (λ te, not_stage te.2 = true) B').
Proof.
  rewrite start_run. cbv zeta. cbn [events]. rewrite start_try_split.
  pose proof (startRedis_not_stage E s) as HR.
  pose proof (rollback_not_stage
                (result ((startRedis E ≫= λ _, after_redis E) s))
                (final ((startRedis E ≫= λ _, after_redis E) s))) as HS.
  revert HS.
  generalize (match result ((startRedis E ≫= λ _, after_redis E) s) with
              | Rejected _ => events (stop (final ((startRedis E ≫= λ _, after_redis E) s)))
              | _ => []
              end).
  intros S HS.
  destruct (result (startRedis E s)) as [[]| |] eqn:Hr.
  - rewrite (events_bind_returned _ _ _ _ Hr).
    pose proof (startRedis_live E s Hr) as Hlive.
    destruct (after_redis_shape E (final (startRedis E s)))
      as (l1 & l2 & h & B & -> & HB).
    revert HR Hlive HB.
    generalize (events (startRedis E s)) (now (env (final (startRedis E s)))).
    intros R t0 HR Hlive HB.
    right.
    exists ((now (env s), Log "Starting Firecrawl services...") :: R), t0, l1, l2, h, (B ++ S).
    split; [apply shape_assemble|].
    split; [|split].
    + eapply broker_live_mono; [|exact Hlive].
      intros x Hx. by apply list_elem_of_further.
    + by constructor.
    + destruct HB as [HB|(l3 & l4 & h' & B' & -> & HB')].
      * left. by apply Forall_app.
      * right. exists l3, l4, h', (B' ++ S). split; [done|]. by apply Forall_app.
  - left. rewrite events_bind_failed by (intros a; by rewrite Hr).
    constructor; [done|]. by apply Forall_app.
  - left. rewrite events_bind_failed by (intros a; by rewrite Hr).
    constructor; [done|]. by apply Forall_app.
Qed.

(** An event that occurs once in a list is found at one place only. *)
Lemma split_unique {X} (P : X → bool) A x B pre y post :
  A ++ x :: B = pre ++ y :: post →
  P y = true →
  Forall (λ z, P z = false) A → Forall (λ z, P z = false) B →
  pre = A ∧ y = x ∧ post = B.
Proof.
  intros Heq Hy HA HB. revert pre Heq.
  induction HA as [|a A Ha HA IH]; intros [|z pre] Heq; simplify_eq/=.
  - done.
  - apply Forall_app in HB as [_ HB]. apply Forall_cons in HB as [HB _]. congruence.
  - congruence.
  - destruct (IH pre) as (-> & -> & ->); done.
Qed.

Lemma split_none {X} (P : X → bool) l pre y post :
  l = pre ++ y :: post → P y = true → Forall (λ z, P z = false) l → False.
Proof.
  intros -> Hy Hl. apply Forall_app in Hl as [_ Hl].
  apply Forall_cons in Hl as [Hl _]. congruence.
Qed.

Lemma regroup3 {X} (A : list X) a b c rest :
  A ++ a :: b :: c :: rest = (A ++ [a; b; c]) ++ rest.
Proof. by rewrite <- app_assoc. Qed.

Lemma not_stage_worker (l : trace) :
  Forall (λ te, not_stage te.2 = true) l → Forall (λ te, is_worker_spawn te.2 = false) l.
Proof.
  intros H. eapply Forall_impl; [exact H|]. intros [t e]. unfold not_stage. cbn.
  by destruct (is_worker_spawn e).
Qed.

Lemma not_stage_api (l : trace) :
  Forall (λ te, not_stage te.2 = true) l → Forall (λ te, is_api_spawn te.2 = false) l.
Proof.
  intros H. eapply Forall_impl; [exact H|]. intros [t e]. unfold not_stage. cbn.
  destruct (is_worker_spawn e), (is_api_spawn e); done.
Qed.

(** Where the two spawns sit in the events of [start]. *)
Lemma start_spawn_places E s pre t prog h post :
  events (start E s) = pre ++ (t, Spawn prog h) :: post →
  (prog = QueueWorker →
   ∃ A t0 l1 l2,
     pre = A ++ [(t0, Delay 2000); ((t0 + 2000)%N, Log l1); ((t0 + 2000)%N, Log l2)] ∧
     t = (t0 + 2000)%N ∧ broker_live A) ∧
  (prog = ApiIndex →
   ∃ A hw l3 l4,
     pre = A ++ [(t, Spawn QueueWorker hw); (t, Log l3); (t, Log l4)]).
Proof.
  intros Heq.
  destruct (start_shape E s) as [Hno|(A & t0 & l1 & l2 & hw & B & Hev & Hlive & HA & HB)].
  { split; intros ->; exfalso.
    - eapply (split_none (λ te, is_worker_spawn te.2)); [exact Heq|reflexivity|].
      by apply not_stage_worker.
    - eapply (split_none (λ te, is_api_spawn te.2)); [exact Heq|reflexivity|].
      by apply not_stage_api. }
  revert Heq. rewrite Hev. clear Hev. intros Heq. split; intros ->.
  - assert (HBw : Forall (λ te, is_worker_spawn te.2 = false) B).
    { destruct HB as [HB|(l3 & l4 & h' & B' & -> & HB')].
      - by apply not_stage_worker.
      - repeat (constructor; [done|]). by apply not_stage_worker. }
    rewrite regroup3 in Heq.
    apply (split_unique (λ te, is_worker_spawn te.2)) in Heq as (-> & [= -> ->] & ->);
      [|done|apply Forall_app; split; [by apply not_stage_worker|by repeat constructor]
       |done].
    by exists A, t0, l1, l2.
  - destruct HB as [HB|(l3 & l4 & h' & B' & -> & HB')].
    + exfalso. eapply (split_none (λ te, is_api_spawn te.2)); [exact Heq|reflexivity|].
      apply Forall_app. split; [by apply not_stage_api|].
      repeat (constructor; [done|]). by apply not_stage_api.
    + rewrite regroup3, regroup3 in Heq.
      apply (split_unique (λ te, is_api_spawn te.2)) in Heq as (-> & [= -> ->] & ->);
        [|done
         |repeat (apply Forall_app; split); [by apply not_stage_api|by repeat constructor..]
         |by apply not_stage_api].
      by exists (A ++ [(t0, Delay 2000); ((t0 + 2000)%N, Log l1); ((t0 + 2000)%N, Log l2)]),
        hw, l3, l4.
Qed.

(** C7. In the events of any [start], the spawn of the workers comes after
    the evidence that the broker is up (its ping answered, or the
    [redis-server] spawned here printed its ready line) and after the
    2000 ms delay that follows it has run out; and the spawn of the API
    server comes after a spawn of the workers. *)
Theorem start_spawn_order E s pre t prog h post :
  events (start E s) = pre ++ (t, Spawn prog h) :: post →
  (prog = QueueWorker →
   ∃ pre1 pre2 t0,
     pre = pre1 ++ (t0, Delay 2000) :: pre2 ∧ broker_live pre1 ∧ (t0 + 2000 ≤ t)%N) ∧
  (prog = ApiIndex →
   ∃ pre1 pre2 tw hw,
     pre = pre1 ++ (tw, Spawn QueueWorker hw) :: pre2 ∧ (tw ≤ t)%N).
Proof.
  intros Heq. destruct (start_spawn_places E s pre t prog h post Heq) as [Hw Ha].
  split; intros ->.
  - destruct (Hw eq_refl) as (A & t0 & l1 & l2 & -> & -> & Hlive).
    exists A, [((t0 + 2000)%N, Log l1); ((t0 + 2000)%N, Log l2)], t0. done.
  - destruct (Ha eq_refl) as (A & hw & l3 & l4 & ->).
    exists A, [(t, Log l3); (t, Log l4)], t, hw. done.
Qed.

(** C6 (as the code has it). [start] waits once, 2000 ms, after the broker
    stage: the workers are spawned exactly when that delay has run out, with
    only log lines in between.  After the workers there is no delay: the API
    server is spawned at the same instant, with only log lines in between. *)
Theorem settle_delay_after_broker_only E s pre t prog h post :
  events (start E s) = pre ++ (t, Spawn prog h) :: post →
  (prog = QueueWorker →
   ∃ pre1 logs t0,
     pre = pre1 ++ (t0, Delay 2000) :: logs ∧ t = (t0 + 2000)%N ∧
     broker_live pre1 ∧ Forall (λ te, is_log te.2 = true) logs) ∧
  (prog = ApiIndex →
   ∃ pre1 logs hw,
     pre = pre1 ++ (t, Spawn QueueWorker hw) :: logs ∧
     Forall (λ te, is_log te.2 = true ∧ te.1 = t) logs).
Proof.
  intros Heq. destruct (start_spawn_places E s pre t prog h post Heq) as [Hw Ha].
  split; intros ->.
  - destruct (Hw eq_refl) as (A & t0 & l1 & l2 & -> & -> & Hlive).
    exists A, [((t0 + 2000)%N, Log l1); ((t0 + 2000)%N, Log l2)], t0.
    repeat (split; [done|]). repeat (constructor; [done|]). constructor.
  - destruct (Ha eq_refl) as (A & hw & l3 & l4 & ->).
    exists A, [(t, Log l3); (t, Log l4)], hw.
    split; [done|]. repeat (constructor; [done|]). constructor.
Qed.

(** C6 (as stated) fails for the worker stage: in a successful [start] the
    workers are spawned at 2310 ms and the API server at 2310 ms, and the two
    events between the two spawns are log lines. *)
Lemma workers_and_api_back_to_back : ¬ delay_after_workers.
Proof.
  intros H.
  destruct (H ready_at_once (fresh "/opt/firecrawl") 8 11 2310%N 2310%N 1 2)
    as (k & t & ms & [Hk1 Hk2] & Hev); [by vm_compute..|].
  assert (Hk : k = 9 ∨ k = 10) by lia.
  destruct Hk as [-> | ->]; vm_compute in Hev; discriminate.
Qed.

(** ** Further properties of the manager *)

(** *** The order of the signals *)

Lemma kill_events h sig s :
  ∃ b, events (kill h sig s) = [(now (env s), Kill h sig b)].
Proof.
  unfold kill. destruct (procs (env s) !! h) as [p|]; [destruct (exited p)|];
    by eexists.
Qed.

Lemma sigterm_targets_app t1 t2 :
  sigterm_targets (t1 ++ t2) = sigterm_targets t1 ++ sigterm_targets t2.
Proof. apply omap_app. Qed.

Lemma sigterm_targets_none t :
  Forall (λ te, not_sigterm te.2 = true) t → sigterm_targets t = [].
Proof.
  induction 1 as [|[t0 e] t He _ IH]; [done|].
  unfold sigterm_targets in *. cbn [omap list_omap snd] in *.
  rewrite IH. by destruct e as [| | | | | |? []| | | |].
Qed.

Lemma await_not_sigterm name h grace : emits not_sigterm (await_exit_or_timeout name h grace).
Proof. mstep. Qed.

Lemma terminate_targets name h s :
  sigterm_targets (events (terminate name (Some h) s)) = if flagged s h then [] else [h].
Proof.
  unfold terminate.
  rewrite (bind_pure (get_killed h) _ s _ eq_refl). fold (flagged s h).
  destruct (flagged s h); cbn [negb]; [done|].
  unfold log. erewrite events_bind_emit by primitive_step. cbv beta.
  destruct (returns_kill h SIGTERM s) as [b Hb].
  rewrite (events_bind_returned _ _ _ _ Hb).
  destruct (kill_events h SIGTERM s) as [b' ->].
  cbn [app]. unfold sigterm_targets at 1. cbn [omap list_omap snd sigterm_target].
  fold (sigterm_targets (events (await_exit_or_timeout name h 5000 (final (kill h SIGTERM s))))).
  by rewrite sigterm_targets_none by apply await_not_sigterm.
Qed.

Lemma flagged_settled x t t' s h :
  flagged {| this := x; env := {| now := t'; procs := settle t <$> procs (env s) |} |} h
  = flagged s h.
Proof.
  unfold flagged. cbn [env procs]. rewrite lookup_settled.
  destruct (procs (env s) !! h) as [p|]; [|done]. cbn. apply settle_killed.
Qed.

Lemma flagged_elapse h b ms : keeps (λ s, flagged s h = b) (elapse ms).
Proof. intros s. unfold elapse, set_env. cbn [final]. by rewrite flagged_settled. Qed.

Lemma flagged_elapse_until h b t : keeps (λ s, flagged s h = b) (elapse_until t).
Proof. intros s. unfold elapse_until, set_env. cbn [final]. by rewrite flagged_settled. Qed.

Lemma flagged_kill h b h' sig : h ≠ h' → keeps (λ s, flagged s h = b) (kill h' sig).
Proof.
  intros Hne s <-. unfold flagged.
  destruct (kill_lookup h' sig s h) as [->|(q & ? & _)]; done.
Qed.

Lemma flagged_terminate h b h' name :
  h ≠ h' → keeps (λ s, flagged s h = b) (terminate name (Some h')).
Proof.
  intros Hne.
  pose proof (flagged_elapse h b). pose proof (flagged_elapse_until h b).
  pose proof (λ sig, flagged_kill h b h' sig Hne).
  mstep.
Qed.

(** The children one [terminate] sends SIGTERM to. *)
Lemma terminate_visit name process s :
  sigterm_targets (events (terminate name process s))
  = List.filter (λ h, negb (flagged s h)) (omap id [process]).
Proof.
  destruct process as [h|]; [|done]. rewrite terminate_targets.
  cbn. by destruct (flagged s h).
Qed.

Lemma flagged_after name process s h :
  h ∉ omap id [process] →
  flagged (final (terminate name process s)) h = flagged s h.
Proof.
  destruct process as [h'|]; [|done]. cbn. intros Hne.
  apply (flagged_terminate h (flagged s h) h' name); [|done].
  intros ->. apply Hne, list_elem_of_here.
Qed.

(** X1. [stop] sends SIGTERM in the order API server, workers, Redis: on a
    manager that is not shutting down and whose handle fields name different
    children, the children that are sent SIGTERM are, in this order, those
    behind [apiProcess], [workerProcess] and [redisProcess] whose [killed]
    is not set; no child is sent SIGTERM twice. *)
Theorem stop_signals_in_reverse_order s :
  isShuttingDown (this s) = false →
  NoDup (omap id (handles (this s))) →
  sigterm_targets (events (stop s))
  = List.filter (λ h, negb (flagged s h)) (omap id (handles (this s))).
Proof.
  intros Hflag Hnd. rewrite stop_first by done. cbv zeta. cbn [events].
  rewrite stop_loop_run. cbv zeta. cbn [events].
  change (this (shutting_down s)) with
    {| redisProcess := redisProcess (this s); workerProcess := workerProcess (this s);
       apiProcess := apiProcess (this s); config := config (this s);
       isShuttingDown := true |}.
  cbn [apiProcess workerProcess redisProcess].
  unfold handles in *.
  set (s0 := shutting_down s).
  set (a := apiProcess (this s)) in *. set (w := workerProcess (this s)) in *.
  set (r := redisProcess (this s)) in *.
  change (sigterm_targets (?x :: ?t)) with (sigterm_targets t).
  rewrite !sigterm_targets_app, !terminate_visit.
  change (sigterm_targets [_]) with (@nil nat). rewrite app_nil_r.
  change [a; w; r] with ([a] ++ [w] ++ [r]) in *.
  rewrite !omap_app in *. rewrite !List.filter_app.
  apply NoDup_app in Hnd as (_ & Haw & Hnd).
  apply NoDup_app in Hnd as (_ & Hwr & _).
  apply (f_equal2 app); [done|apply (f_equal2 app)].
  - apply List.filter_ext_in. intros h Hh%list_elem_of_In. f_equal.
    rewrite flagged_after; [done|]. intros Ha. apply (Haw h Ha).
    apply elem_of_app. by left.
  - apply List.filter_ext_in. intros h Hh%list_elem_of_In. f_equal.
    rewrite flagged_after by (intros Ha; by apply (Hwr h Ha)).
    rewrite flagged_after; [done|]. intros Ha. apply (Haw h Ha).
    apply elem_of_app. by right.
Qed.

(** *** A child that is already gone *)

(** X5. A child that exited by itself before [stop] reaches it still costs
    the whole grace period: SIGTERM cannot be delivered, no 'exit' is seen
    any more, so the 5000 ms timer fires, finds [killed] unset, logs the
    forceful kill and calls [kill('SIGKILL')], which cannot be delivered
    either. *)
Theorem terminate_exited_child_waits name h s p :
  procs (env s) !! h = Some p → killed p = false → exited p = true →
  let r := terminate name (Some h) s in
  result r = Returned tt ∧
  events r = [(now (env s), Log ("Stopping " +:+ name +:+ "..."));
              (now (env s), Kill h SIGTERM false);
              ((now (env s) + 5000)%N, TimerFired 5000);
              ((now (env s) + 5000)%N, Log ("Force killing " +:+ name +:+ "..."));
              ((now (env s) + 5000)%N, Kill h SIGKILL false)] ∧
  now (env (final r)) = (now (env s) + 5000)%N.
Proof.
  intros Hp Hk Hx. cbv zeta.
  assert (Hkill : ∀ sig, kill h sig s =
            {| result := Returned false; final := s;
               events := [(now (env s), Kill h sig false)] |})
    by (intros sig; unfold kill; by rewrite Hp, Hx).
  assert (Hrun : terminate name (Some h) s =
            {| result := Returned tt;
               final := {| this := this s;
                           env := {| now := (now (env s) + 5000)%N;
                                     procs := settle (now (env s) + 5000)%N
                                                <$> procs (env s) |} |};
               events := [(now (env s), Log ("Stopping " +:+ name +:+ "..."));
                          (now (env s), Kill h SIGTERM false);
                          ((now (env s) + 5000)%N, TimerFired 5000);
                          ((now (env s) + 5000)%N, Log ("Force killing " +:+ name +:+ "..."));
                          ((now (env s) + 5000)%N, Kill h SIGKILL false)] |}).
  { unfold terminate.
    rewrite (bind_pure (get_killed h) _ s (killed p))
      by (unfold get_killed; by rewrite Hp).
    rewrite Hk. cbn [negb]. unfold log.
    rewrite (bind_step (emit _) _ s tt s _ eq_refl).
    rewrite (bind_step (kill _ _) _ s false _ _ (Hkill SIGTERM)).
    unfold await_exit_or_timeout. rewrite Hp, Hx.
    unfold grace_timer_fires. mrun.
    rewrite lookup_settled, Hp. cbn [fmap option_fmap option_map from_option].
    rewrite settle_killed, Hk. cbn [negb]. mrun.
    unfold kill. cbn [env procs now]. rewrite lookup_settled, Hp.
    cbn [fmap option_fmap option_map]. rewrite (settle_exited _ _ Hx).
    cbn [result final events app]. done. }
  rewrite Hrun. done.
Qed.

(** *** How long the readiness poll takes *)

Lemma probe_time_cons E from n :
  probe_time E from (S n) = (fetch_ms E from + probe_time E (S from) n)%N.
Proof. reflexivity. Qed.

Lemma poll_time_exhausted E maxAttempts delayMs todo attempt s :
  (∀ k, attempt ≤ k ≤ maxAttempts → answers_ok (fetch_answer E k) = false) →
  attempt + todo = S maxAttempts → 0 < todo →
  now (env (final (poll E maxAttempts delayMs todo attempt s)))
  = (now (env s) + probe_time E attempt todo + N.of_nat (todo - 1) * delayMs)%N.
Proof.
  revert attempt s. induction todo as [|todo IH]; intros attempt s Hno Hsum Hpos; [lia|].
  rewrite poll_step. cbv zeta. rewrite Hno by lia. rewrite probe_time_cons.
  case_bool_decide as Hlast.
  - cbn [final env now]. replace todo with 0 by lia. cbn. lia.
  - cbn [final]. rewrite IH; [|intros k Hk; apply Hno; lia|lia|lia].
    unfold delay. mrun.
    replace (N.of_nat (S todo - 1)) with (1 + N.of_nat (todo - 1))%N by lia. lia.
Qed.

Lemma poll_time_first_ok E maxAttempts delayMs todo attempt k s :
  attempt ≤ k ≤ maxAttempts → attempt + todo = S maxAttempts →
  answers_ok (fetch_answer E k) = true →
  (∀ j, attempt ≤ j < k → answers_ok (fetch_answer E j) = false) →
  now (env (final (poll E maxAttempts delayMs todo attempt s)))
  = (now (env s) + probe_time E attempt (S k - attempt) + N.of_nat (k - attempt) * delayMs)%N.
Proof.
  revert attempt s. induction todo as [|todo IH]; intros attempt s Hk Hsum Hok Hno; [lia|].
  rewrite poll_step. cbv zeta.
  destruct (decide (attempt = k)) as [->|Hne].
  - rewrite Hok. cbn [final env now]. replace (S k - k) with 1 by lia.
    replace (k - k) with 0 by lia. cbn. lia.
  - rewrite Hno by lia. rewrite bool_decide_eq_false_2 by lia.
    cbn [final]. rewrite (IH (S attempt)); [|lia|lia|done|intros j Hj; apply Hno; lia].
    replace (S k - attempt) with (S (S k - S attempt)) by lia.
    rewrite probe_time_cons. unfold delay. mrun.
    replace (N.of_nat (k - attempt)) with (1 + N.of_nat (k - S attempt))%N by lia. lia.
Qed.

(** X3. How long [waitForServices] takes.  When no probe gets an ok
    response it rejects after the 30 probes and the 29 delays of 1000 ms
    between them: the last failed probe is not followed by a delay.  When
    the [k]-th probe is the first with an ok response it returns after [k]
    probes and [k - 1] delays. *)
Theorem waitForServices_elapsed E s :
  ((∀ k, 1 ≤ k ≤ 30 → answers_ok (fetch_answer E k) = false) →
   now (env (final (waitForServices E s)))
   = (now (env s) + probe_time E 1 30 + 29 * 1000)%N) ∧
  (∀ k, 1 ≤ k ≤ 30 → answers_ok (fetch_answer E k) = true →
        (∀ j, 1 ≤ j < k → answers_ok (fetch_answer E j) = false) →
   now (env (final (waitForServices E s)))
   = (now (env s) + probe_time E 1 k + N.of_nat (k - 1) * 1000)%N).
Proof.
  split.
  - intros Hno. unfold waitForServices, waitForServices_with.
    rewrite poll_time_exhausted; [done|done|lia|lia].
  - intros k Hk Hok Hno. unfold waitForServices, waitForServices_with.
    rewrite (poll_time_first_ok _ _ _ _ _ k); [|done|lia|done|done].
    by replace (S k - 1) with k by lia.
Qed.

(** *** How long [start] takes *)

Lemma within_try_catch {A} c1 c2 (body : M A) handler :
  within c1 body → (∀ e, within c2 (handler e)) → within (c1 + c2) (try_catch body handler).
Proof.
  intros Hb Hh s. specialize (Hb s). unfold try_catch.
  destruct (result (body s)) as [a|e|e]; cbn [final]; [lia| |lia].
  specialize (Hh e (final (body s))). lia.
Qed.

Lemma within_poll E maxAttempts delayMs todo attempt :
  attempt + todo = S maxAttempts →
  within (probe_time E attempt todo + N.of_nat (todo - 1) * delayMs)
         (poll E maxAttempts delayMs todo attempt).
Proof.
  revert attempt. induction todo as [|todo IH]; intros attempt Hsum s.
  { cbn. lia. }
  rewrite poll_step. cbv zeta. rewrite probe_time_cons.
  destruct (answers_ok (fetch_answer E attempt)); [cbn [final env now]; lia|].
  case_bool_decide as Hlast; [cbn [final env now]; lia|].
  cbn [final].
  match goal with |- context [poll _ _ _ _ _ ?s2] =>
    pose proof (IH (S attempt) ltac:(lia) s2) as H2; revert H2
  end.
  unfold delay. mrun.
  replace (N.of_nat (S todo - 1)) with (1 + N.of_nat (todo - 1))%N by lia. lia.
Qed.

Lemma within_startRedis E : within (ping_time E + 10000) (startRedis E).
Proof.
  intros s. unfold startRedis, ping_time.
  destruct (ping E) as [ms code|]; [|cbn; lia].
  do 2 (erewrite final_bind_step by primitive_step; cbv beta).
  case_bool_decide; [cbn; lia|].
  unfold log. erewrite final_bind_step by primitive_step. cbv beta.
  destruct (redis E) as [d|msg|d code'|];
    repeat first [bstep | case_match]; cbn;
    repeat match goal with H : (_ <? _)%N = _ |- _ =>
      first [apply N.ltb_lt in H | apply N.ltb_ge in H] end; lia.
Qed.

Lemma startWorkers_instant E s :
  now (env (final (startWorkers E s))) = now (env s).
Proof. unfold startWorkers. destruct (worker E); repeat bstep; done. Qed.

Lemma startApiServer_instant E s :
  now (env (final (startApiServer E s))) = now (env s).
Proof. unfold startApiServer. destruct (api E); repeat bstep; done. Qed.

Lemma within_start_try E :
  within (ping_time E + 10000 + 2000 + (probe_time E 1 30 + 29 * 1000)) (start_try E).
Proof.
  unfold start_try.
  apply (within_weaken ((ping_time E + 10000)
           + ((0 + 2000) + (0 + (0 + ((probe_time E 1 30 + N.of_nat (30 - 1) * 1000) + 0)))))%N);
    [cbn; lia|].
  apply within_bind; [apply within_startRedis|intros _].
  apply within_bind; [|intros _].
  { unfold delay. apply within_bind; [by apply within_instant|intros _].
    apply within_elapse. }
  apply within_bind; [apply within_instant, startWorkers_instant|intros _].
  apply within_bind; [apply within_instant, startApiServer_instant|intros _].
  apply within_bind; [|intros _; by apply within_instant].
  by apply within_poll.
Qed.

(** X6. How long [start] takes at most, given how long the world takes to
    answer: when [redis-cli ping] ends after [ping_time E] ms and the k-th
    probe of the endpoint settles after [fetch_ms E k] ms, [start] settles
    within the time of the ping, the 10 s Redis timer, the 2 s delay, the 30
    probes with their 29 delays, and the three grace periods of a rollback.
    The premise is part of [environment]: the source puts no timer of its
    own on [redis-cli] or on [fetch], so with a [redis-cli] that never ends
    or a request that never settles [start] waits for ever, and this bound
    says nothing about such a world. *)
Theorem start_settles_within_budget E : within (start_budget E) (start E).
Proof.
  unfold start, start_budget.
  apply (within_weaken (0 + ((ping_time E + 10000 + 2000 + (probe_time E 1 30 + 29 * 1000))
                             + (3 * 5000 + 0)))%N); [lia|].
  apply within_bind; [by apply within_instant|intros _].
  apply within_try_catch; [apply within_start_try|intros e].
  apply within_bind; [apply within_stop|intros _]. by apply within_instant.
Qed.

(** *** A Redis that is already running *)

Lemma events_bind_step {A B} (m : M A) (k : A → M B) s a s' evs :
  m s = {| result := Returned a; final := s'; events := evs |} →
  events ((m ≫= k) s) = evs ++ events (k a s').
Proof. intros H. by rewrite (bind_step _ _ _ _ _ _ H). Qed.

Lemma startRedis_external E ms s :
  ping E = PingExit ms (Some 0%Z) →
  let t := (now (env s) + ms)%N in
  startRedis E s =
    {| result := Returned tt;
       final := {| this := this s;
                   env := {| now := t; procs := settle t <$> procs (env s) |} |};
       events := [(t, Ping (Some 0%Z)); (t, Log "Redis is already running")] |}.
Proof.
  intros Hping. cbv zeta. unfold startRedis. rewrite Hping.
  rewrite bool_decide_eq_true_2 by done. by mrun.
Qed.

Lemma after_redis_no_redis_spawn E : emits not_redis_spawn (after_redis E).
Proof. mstep. Qed.

Lemma stop_no_redis_spawn : emits not_redis_spawn stop.
Proof. mstep. Qed.

Lemma after_redis_keeps_redisProcess r E :
  keeps (λ s, redisProcess (this s) = r) (after_redis E).
Proof. about_this (λ m, redisProcess m = r). mstep. Qed.

Lemma count_no_redis_spawn t :
  Forall (λ te, not_redis_spawn te.2 = true) t → count is_redis_spawn t = 0.
Proof. apply count_none. intros e. unfold is_redis_spawn. by intros ->. Qed.

(** X4. When [redis-cli ping] exits with code 0, [start] does not spawn
    [redis-server] and leaves [redisProcess] as it was, whether the rest of
    the startup succeeds or fails and is rolled back: the manager never
    takes a handle on a Redis it did not start (so [stop] has none to
    signal). *)
Theorem start_leaves_external_redis E ms s :
  ping E = PingExit ms (Some 0%Z) →
  redisProcess (this (final (start E s))) = redisProcess (this s) ∧
  count is_redis_spawn (events (start E s)) = 0.
Proof.
  intros Hping. rewrite start_run. cbv zeta. cbn [final events].
  rewrite start_try_split.
  pose proof (startRedis_external E ms s Hping) as HR. cbv zeta in HR.
  rewrite (result_bind_step _ _ _ _ _ _ HR), (final_bind_step _ _ _ _ _ _ HR),
    (events_bind_step _ _ _ _ _ _ HR).
  match goal with |- context [after_redis E ?s0] => set (s1 := s0) end.
  pose proof (after_redis_keeps_redisProcess (redisProcess (this s)) E s1 eq_refl) as Hk.
  pose proof (after_redis_no_redis_spawn E s1) as He.
  cbv beta in Hk. revert Hk He. generalize (after_redis E s1). clear HR s1.
  intros r Hk He. split.
  - destruct (result r); [exact Hk| |exact Hk].
    by apply (field_stop (λ m, redisProcess m = redisProcess (this s))).
  - rewrite count_cons, !count_app, !count_cons, count_nil.
    cbn [snd is_redis_spawn not_redis_spawn negb].
    rewrite (count_no_redis_spawn _ He).
    destruct (result r); [reflexivity| |reflexivity].
    by rewrite (count_no_redis_spawn _ (stop_no_redis_spawn _)).
Qed.

(** *** What a [start] that returns has seen and done *)

Lemma bind_returned_inv {A B} (m : M A) (k : A → M B) s b :
  result ((m ≫= k) s) = Returned b →
  ∃ a, result (m s) = Returned a ∧
       result (k a (final (m s))) = Returned b ∧
       final ((m ≫= k) s) = final (k a (final (m s))) ∧
       events ((m ≫= k) s) = events (m s) ++ events (k a (final (m s))).
Proof.
  unfold mbind, M_bind, bind.
  destruct (result (m s)) as [a| |] eqn:Hr; cbn [result final events]; [|done|done].
  intros Hb. by exists a.
Qed.

Lemma poll_keeps_this x E maxAttempts delayMs todo attempt :
  keeps (λ s, this s = x) (poll E maxAttempts delayMs todo attempt).
Proof. apply keeps_poll. intros ms. apply (this_set_env (λ m, m = x)). Qed.

Lemma poll_returned_inv E maxAttempts delayMs todo attempt s :
  result (poll E maxAttempts delayMs todo attempt s) = Returned tt →
  attempt + todo = S maxAttempts → 0 < todo →
  ∃ k t, attempt ≤ k ≤ maxAttempts ∧ answers_ok (fetch_answer E k) = true ∧
         (t, Fetch GET (test_url (config (this s))) (fetch_answer E k))
           ∈ events (poll E maxAttempts delayMs todo attempt s).
Proof.
  revert attempt s. induction todo as [|todo IH]; intros attempt s Hr Hsum Hpos; [lia|].
  revert Hr. rewrite poll_step. cbv zeta.
  destruct (answers_ok (fetch_answer E attempt)) eqn:Hok.
  - intros _. exists attempt. eexists. split; [lia|]. split; [done|].
    cbn [events]. apply list_elem_of_here.
  - case_bool_decide as Hlast; [done|]. cbn [result events]. intros Hr.
    destruct (IH (S attempt) _ Hr) as (k & t & Hk & Hok' & Hin); [lia|lia|].
    exists k, t. split; [lia|]. split; [done|].
    do 2 apply list_elem_of_further. exact Hin.
Qed.

Lemma startWorkers_returned E s :
  result (startWorkers E s) = Returned tt →
  let h := length (procs (env s)) in
  (now (env s), Spawn QueueWorker h) ∈ events (startWorkers E s) ∧
  this (final (startWorkers E s)) =
    {| redisProcess := redisProcess (this s); workerProcess := Some h;
       apiProcess := apiProcess (this s); config := config (this s);
       isShuttingDown := isShuttingDown (this s) |}.
Proof.
  unfold startWorkers. destruct (worker E) as [c|msg].
  - intros _. cbv zeta. split.
    + repeat bstep. do 2 apply list_elem_of_further. apply list_elem_of_here.
    + by repeat bstep.
  - repeat bstep. done.
Qed.

Lemma startApiServer_returned E s :
  result (startApiServer E s) = Returned tt →
  let h := length (procs (env s)) in
  (now (env s), Spawn ApiIndex h) ∈ events (startApiServer E s) ∧
  this (final (startApiServer E s)) =
    {| redisProcess := redisProcess (this s); workerProcess := workerProcess (this s);
       apiProcess := Some h; config := config (this s);
       isShuttingDown := isShuttingDown (this s) |}.
Proof.
  unfold startApiServer. destruct (api E) as [c|msg].
  - intros _. cbv zeta. split.
    + repeat bstep. do 2 apply list_elem_of_further. apply list_elem_of_here.
    + by repeat bstep.
  - repeat bstep. done.
Qed.

Lemma startRedis_keeps_config c E : keeps (λ s, config (this s) = c) (startRedis E).
Proof. about_this (λ m, config m = c). mstep. Qed.

(** X2. A [start] that returns has seen readiness: one of its at most 30
    probes, a GET of the [/test] path on the configured port, got an ok
    response.  By then it has spawned the workers and the API server and
    holds their handles, and it has sent no signal. *)
Theorem start_returns_only_when_ready E s :
  result (start E s) = Returned tt →
  (∃ k t, 1 ≤ k ≤ 30 ∧ answers_ok (fetch_answer E k) = true ∧
          (t, Fetch GET (test_url (config (this s))) (fetch_answer E k))
            ∈ events (start E s)) ∧
  (∃ tw hw ta ha,
     (tw, Spawn QueueWorker hw) ∈ events (start E s) ∧
     (ta, Spawn ApiIndex ha) ∈ events (start E s) ∧
     workerProcess (this (final (start E s))) = Some hw ∧
     apiProcess (this (final (start E s))) = Some ha) ∧
  count is_kill (events (start E s)) = 0.
Proof.
  rewrite start_run. cbv zeta. cbn [result final events]. intros Hr. rewrite Hr.
  rewrite app_nil_r.
  assert (Hkill : count is_kill (events (start_try E s)) = 0)
    by (apply count_not_kill, start_try_no_kill).
  revert Hr Hkill. unfold start_try.
  intros ([] & Hr0 & Hr & -> & ->)%bind_returned_inv.
  set (s0 := final (startRedis E s)) in *.
  pose proof (startRedis_keeps_config _ E s eq_refl) as Hc0. fold s0 in Hc0. cbv beta in Hc0.
  revert Hr. intros ([] & Hr1 & Hr & -> & ->)%bind_returned_inv.
  set (s1 := final (delay 2000 s0)) in *.
  assert (Hc1 : this s1 = this s0) by done.
  revert Hr. intros ([] & Hr2 & Hr & -> & ->)%bind_returned_inv.
  destruct (startWorkers_returned E s1 Hr2) as [Hw Hthis2]. cbv zeta in Hw, Hthis2.
  set (s2 := final (startWorkers E s1)) in *.
  revert Hr. intros ([] & Hr3 & Hr & -> & ->)%bind_returned_inv.
  destruct (startApiServer_returned E s2 Hr3) as [Ha Hthis3]. cbv zeta in Ha, Hthis3.
  set (s3 := final (startApiServer E s2)) in *.
  revert Hr. intros ([] & Hr4 & Hr & -> & ->)%bind_returned_inv.
  destruct (poll_returned_inv E 30 1000 30 1 s3 Hr4) as (k & t & Hk & Hok & Hin); [lia|lia|].
  pose proof (poll_keeps_this (this s3) E 30 1000 30 1 s3 eq_refl) as Hthis4.
  cbv beta in Hthis4.
  fold (waitForServices_with 30 1000 E) in Hin, Hthis4.
  fold (waitForServices E) in Hin, Hthis4.
  intros Hkill. split; [|split].
  - exists k, t. split; [done|]. split; [done|].
    replace (config (this s)) with (config (this s3))
      by (rewrite Hthis3; cbn [config]; rewrite Hthis2; cbn [config];
          rewrite Hc1; exact Hc0).
    apply list_elem_of_further. rewrite !elem_of_app. do 4 right. by left.
  - eexists _, _, _, _. split; [|split; [|split]].
    + apply list_elem_of_further. rewrite !elem_of_app. do 2 right. left. exact Hw.
    + apply list_elem_of_further. rewrite !elem_of_app. do 3 right. left. exact Ha.
    + cbn [final log emit]. rewrite Hthis4, Hthis3, Hthis2. done.
    + cbn [final log emit]. rewrite Hthis4, Hthis3. done.
  - by rewrite count_cons, Hkill.
Qed.

(** ** The server's [initialize] *)

Lemma client_healthCheck_run baseUrl ms answer s :
  let t := (now (env s) + ms)%N in
  client_healthCheck baseUrl ms answer s =
    {| result := Returned (answers_ok answer);
       final := {| this := this s;
                   env := {| now := t; procs := settle t <$> procs (env s) |} |};
       events := [(t, Fetch GET (baseUrl +:+ "/test") answer)] |}.
Proof. by destruct answer. Qed.

Lemma health_loop_step baseUrl H maxAttempts todo attempts s :
  attempts < maxAttempts →
  let t := (now (env s) + health_ms H (S attempts))%N in
  let s1 := {| this := this s;
               env := {| now := t; procs := settle t <$> procs (env s) |} |} in
  let probe := (t, Fetch GET (baseUrl +:+ "/test") (health_answer H (S attempts))) in
  health_loop baseUrl H maxAttempts (S todo) attempts s =
    if answers_ok (health_answer H (S attempts))
    then {| result := Returned tt; final := s1; events := [probe] |}
    else if bool_decide (maxAttempts ≤ S attempts)
    then {| result := Rejected unhealthy_error; final := s1; events := [probe] |}
    else
      let s2 := {| this := this s;
                   env := {| now := (t + 2000)%N;
                             procs := settle (t + 2000)%N <$> procs (env s1) |} |} in
      let r := health_loop baseUrl H maxAttempts todo (S attempts) s2 in
      {| result := result r; final := final r;
         events := probe :: ((t + 2000)%N, TimerFired 2000) :: events r |}.
Proof.
  intros Hlt. cbv zeta. cbn [health_loop].
  rewrite bool_decide_eq_true_2 by done.
  rewrite (bind_step _ _ _ _ _ _ (client_healthCheck_run _ _ _ _)).
  destruct (answers_ok (health_answer H (S attempts))); [done|].
  destruct (bool_decide (maxAttempts ≤ S attempts)); [done|].
  reflexivity.
Qed.

Lemma health_time_cons H from n :
  health_time H from (S n) = (health_ms H (S from) + health_time H (S from) n)%N.
Proof. reflexivity. Qed.

Lemma health_loop_exhausts baseUrl H maxAttempts todo attempts s :
  (∀ k, attempts < k ≤ maxAttempts → answers_ok (health_answer H k) = false) →
  attempts + todo = maxAttempts → 0 < todo →
  let r := health_loop baseUrl H maxAttempts todo attempts s in
  result r = Rejected unhealthy_error ∧
  count is_fetch (events r) = todo ∧
  now (env (final r))
  = (now (env s) + health_time H attempts todo + N.of_nat (todo - 1) * 2000)%N.
Proof.
  revert attempts s. induction todo as [|todo IH]; intros attempts s Hno Hsum Hpos; [lia|].
  cbv zeta. rewrite health_loop_step by lia. cbv zeta. rewrite Hno by lia.
  rewrite health_time_cons.
  case_bool_decide as Hlast.
  - cbn [result final events env now]. split; [done|].
    replace todo with 0 by lia. split; [done|]. cbn. lia.
  - cbn [result final events].
    match goal with |- context [health_loop _ _ _ _ _ ?s2] =>
      destruct (IH (S attempts) s2) as (Hr & Hc & Ht)
    end.
    + intros k Hk. apply Hno. lia.
    + lia.
    + lia.
    + split; [done|]. split.
      * rewrite !count_cons, Hc. cbn. lia.
      * rewrite Ht. cbn [env now].
        replace (N.of_nat (S todo - 1)) with (1 + N.of_nat (todo - 1))%N by lia. lia.
Qed.

Lemma health_loop_first_ok baseUrl H maxAttempts todo attempts k s :
  attempts < k ≤ maxAttempts → attempts + todo = maxAttempts →
  answers_ok (health_answer H k) = true →
  (∀ j, attempts < j < k → answers_ok (health_answer H j) = false) →
  let r := health_loop baseUrl H maxAttempts todo attempts s in
  result r = Returned tt ∧
  count is_fetch (events r) = k - attempts ∧
  now (env (final r))
  = (now (env s) + health_time H attempts (k - attempts)
       + N.of_nat (k - S attempts) * 2000)%N.
Proof.
  revert attempts s. induction todo as [|todo IH]; intros attempts s Hk Hsum Hok Hno; [lia|].
  cbv zeta. rewrite health_loop_step by lia. cbv zeta.
  destruct (decide (S attempts = k)) as [<-|Hne].
  - rewrite Hok. cbn [result final events env now].
    replace (S attempts - attempts) with 1 by lia.
    replace (S attempts - S attempts) with 0 by lia.
    split; [done|]. split; [done|]. cbn. lia.
  - rewrite Hno by lia. rewrite bool_decide_eq_false_2 by lia.
    cbn [result final events].
    match goal with |- context [health_loop _ _ _ _ _ ?s2] =>
      destruct (IH (S attempts) s2) as (Hr & Hc & Ht)
    end.
    + lia.
    + lia.
    + done.
    + intros j Hj. apply Hno. lia.
    + split; [done|]. split.
      * rewrite !count_cons, Hc. cbn. lia.
      * rewrite Ht. cbn [env now].
        replace (k - attempts) with (S (k - S attempts)) by lia.
        rewrite health_time_cons.
        replace (N.of_nat (k - S attempts)) with (1 + N.of_nat (k - S (S attempts)))%N by lia.
        lia.
Qed.

(** X7. The health loop of [initialize] is bounded.  When none of the 10
    health checks is ok, it makes exactly 10 checks, with 9 waits of
    2000 ms between them (none after the last), and then throws the
    InternalError 'Firecrawl services failed to become healthy'.  When the
    [k]-th check is the first that is ok, it ends after exactly [k] checks
    and [k - 1] waits. *)
Theorem health_loop_bounded baseUrl H s :
  let r := health_loop baseUrl H 10 10 0 s in
  ((∀ k, 1 ≤ k ≤ 10 → answers_ok (health_answer H k) = false) →
   result r = Rejected (McpError InternalError "Firecrawl services failed to become healthy") ∧
   count is_fetch (events r) = 10 ∧
   now (env (final r)) = (now (env s) + health_time H 0 10 + 9 * 2000)%N) ∧
  (∀ k, 1 ≤ k ≤ 10 → answers_ok (health_answer H k) = true →
        (∀ j, 1 ≤ j < k → answers_ok (health_answer H j) = false) →
   result r = Returned tt ∧
   count is_fetch (events r) = k ∧
   now (env (final r)) = (now (env s) + health_time H 0 k + N.of_nat (k - 1) * 2000)%N).
Proof.
  cbv zeta. split.
  - intros Hno.
    destruct (health_loop_exhausts baseUrl H 10 10 0 s) as (Hr & Hc & Ht); [|done|lia|].
    + intros k Hk. apply Hno. lia.
    + done.
  - intros k Hk Hok Hno.
    destruct (health_loop_first_ok baseUrl H 10 10 0 k s) as (Hr & Hc & Ht); [lia|done|done| |].
    + intros j Hj. apply Hno. lia.
    + rewrite Nat.sub_0_r in Hc, Ht. done.
Qed.

(** *** No rollback after the health loop *)

Lemma health_loop_no_kill baseUrl H maxAttempts todo attempts :
  emits not_kill (health_loop baseUrl H maxAttempts todo attempts).
Proof.
  revert attempts. induction todo as [|todo IH]; intros attempts; cbn [health_loop].
  - apply emits_ret.
  - case_bool_decide; [|apply emits_ret].
    apply emits_bind; [munfold; mstep0|intros isHealthy].
    destruct isHealthy; [apply emits_ret|].
    cbv zeta. case_bool_decide; [apply emits_throw|].
    apply emits_bind; [apply emits_set_env|intros _].
    apply emits_bind; [by apply emits_emit|intros _]. apply IH.
Qed.

Lemma health_loop_keeps_this x baseUrl H maxAttempts todo attempts :
  keeps (λ s, this s = x) (health_loop baseUrl H maxAttempts todo attempts).
Proof.
  pose proof (λ ms, this_set_env (λ m, m = x) (λ w, {| now := (now w + ms)%N;
                 procs := settle (now w + ms)%N <$> procs w |})) as Hel.
  cbv beta in Hel. fold elapse in Hel.
  revert attempts. induction todo as [|todo IH]; intros attempts; cbn [health_loop].
  - apply keeps_ret.
  - case_bool_decide; [|apply keeps_ret].
    apply keeps_bind; [munfold; mstep0|intros isHealthy].
    destruct isHealthy; [apply keeps_ret|].
    cbv zeta. case_bool_decide; [apply keeps_throw|].
    apply keeps_bind; [apply Hel|intros _].
    apply keeps_bind; [apply keeps_emit|intros _]. apply IH.
Qed.

Lemma start_returned_run E s :
  result (start E s) = Returned tt →
  result (start_try E s) = Returned tt ∧
  final (start E s) = final (start_try E s) ∧
  events (start E s)
  = (now (env s), Log "Starting Firecrawl services...") :: events (start_try E s).
Proof.
  rewrite start_run. cbv zeta. cbn [result final events]. intros Hr.
  rewrite Hr. by rewrite app_nil_r.
Qed.

(** X8. [initialize] does not roll back: when [start] has returned and then
    none of the 10 health checks is ok, [initialize] throws, but no child is
    sent a signal, the shutting-down flag stays as it was, and the manager
    keeps the handles of the workers and the API server it spawned. *)
Theorem initialize_unhealthy_no_rollback baseUrl E H s :
  result (start E s) = Returned tt →
  (∀ k, 1 ≤ k ≤ 10 → answers_ok (health_answer H k) = false) →
  let r := initialize baseUrl E H s in
  result r = Rejected unhealthy_error ∧
  count is_kill (events r) = 0 ∧
  isShuttingDown (this (final r)) = isShuttingDown (this s) ∧
  is_Some (workerProcess (this (final r))) ∧
  is_Some (apiProcess (this (final r))).
Proof.
  intros Hstart Hno. cbv zeta. unfold initialize.
  rewrite (bind_returned _ _ _ _ Hstart). cbn [result final events].
  destruct (start_returned_run E s Hstart) as (Htry & Hfin & Hev).
  set (s1 := final (start E s)) in *.
  destruct (health_loop_exhausts baseUrl H 10 10 0 s1) as (Hr & _ & _); [|done|lia|].
  { intros k Hk. apply Hno. lia. }
  pose proof (health_loop_keeps_this (this s1) baseUrl H 10 10 0 s1 eq_refl) as Hthis.
  cbv beta in Hthis.
  pose proof (health_loop_no_kill baseUrl H 10 10 0 s1) as Hnk.
  revert Hr Hthis Hnk. generalize (health_loop baseUrl H 10 10 0 s1). intros r Hr Hthis Hnk.
  split; [done|]. split; [|rewrite Hthis; split; [|split]].
  - rewrite count_app, (count_not_kill _ Hnk), Hev, count_cons.
    rewrite count_not_kill by apply start_try_no_kill. done.
  - rewrite Hfin. by apply (flag_start_try (isShuttingDown (this s))).
  - rewrite Hfin. clear -Htry. revert Htry. unfold start_try.
    intros ([] & _ & Hr & -> & _)%bind_returned_inv.
    revert Hr. intros ([] & _ & Hr & -> & _)%bind_returned_inv.
    revert Hr. intros ([] & Hr2 & Hr & -> & _)%bind_returned_inv.
    destruct (startWorkers_returned E _ Hr2) as [_ Hthis2]. cbv zeta in Hthis2.
    revert Hr. intros ([] & Hr3 & Hr & -> & _)%bind_returned_inv.
    destruct (startApiServer_returned E _ Hr3) as [_ Hthis3]. cbv zeta in Hthis3.
    revert Hr. intros ([] & Hr4 & _ & -> & _)%bind_returned_inv.
    cbn [final log emit]. unfold waitForServices, waitForServices_with.
    rewrite (poll_keeps_this _ E 30 1000 30 1 _ eq_refl), Hthis3. cbn [workerProcess].
    rewrite Hthis2. by eexists.
  - rewrite Hfin. clear -Htry. revert Htry. unfold start_try.
    intros ([] & _ & Hr & -> & _)%bind_returned_inv.
    revert Hr. intros ([] & _ & Hr & -> & _)%bind_returned_inv.
    revert Hr. intros ([] & Hr2 & Hr & -> & _)%bind_returned_inv.
    revert Hr. intros ([] & Hr3 & Hr & -> & _)%bind_returned_inv.
    destruct (startApiServer_returned E _ Hr3) as [_ Hthis3]. cbv zeta in Hthis3.
    revert Hr. intros ([] & Hr4 & _ & -> & _)%bind_returned_inv.
    cbn [final log emit]. unfold waitForServices, waitForServices_with.
    rewrite (poll_keeps_this _ E 30 1000 30 1 _ eq_refl), Hthis3. by eexists.
Qed.

(** *** One termination after the other *)

Lemma sigterm_times_app t1 t2 :
  sigterm_times (t1 ++ t2) = sigterm_times t1 ++ sigterm_times t2.
Proof. apply omap_app. Qed.

Lemma sigterm_times_none t :
  Forall (λ te, not_sigterm te.2 = true) t → sigterm_times t = [].
Proof.
  induction 1 as [|[t0 e] t He _ IH]; [done|].
  unfold sigterm_times in *. cbn [omap list_omap snd fst] in *.
  rewrite IH. by destruct e as [| | | | | |? []| | | |].
Qed.

Lemma kill_run h sig s :
  ∃ b, kill h sig s = {| result := Returned b; final := final (kill h sig s);
                         events := [(now (env s), Kill h sig b)] |} ∧
       now (env (final (kill h sig s))) = now (env s).
Proof.
  unfold kill. destruct (procs (env s) !! h) as [p|]; [destruct (exited p)|];
    eexists; split; reflexivity.
Qed.

(** The timer callback runs exactly [grace] ms after the timer was set. *)
Lemma grace_timer_time name h grace s :
  let r := grace_timer_fires name h grace s in
  now (env (final r)) = (now (env s) + grace)%N ∧
  ((now (env s) + grace)%N, TimerFired grace) ∈ events r.
Proof.
  cbv zeta. split.
  - unfold grace_timer_fires. do 3 bstep.
    destruct (negb _); [|done].
    unfold log. bstep.
    match goal with |- context [(kill ?h0 ?sig ≫= _) ?s'] =>
      destruct (kill_run h0 sig s') as (b & Hb & Hnow) end.
    rewrite (final_bind_step _ _ _ _ _ _ Hb). cbv beta.
    cbn [mret M_ret ret final]. by rewrite Hnow.
  - unfold grace_timer_fires. do 2 bstep. apply list_elem_of_here.
Qed.

(** The 'exit' listener runs when the child exits. *)
Lemma exit_listener_time h e s :
  let r := exit_listener_runs h e s in
  now (env (final r)) = N.max (now (env s)) e ∧
  (N.max (now (env s)) e, ExitEvent h) ∈ events r.
Proof.
  cbv zeta. unfold exit_listener_runs. mrun. split; [done|apply list_elem_of_here].
Qed.

(** [terminate] does not hand over to the next child before the child it
    signalled has exited or its 5000 ms timer has fired. *)
Lemma terminate_awaits name h s :
  flagged s h = false →
  let r := terminate name (Some h) s in
  let t := now (env (final r)) in
  ((t, ExitEvent h) ∈ events r ∧ (now (env s) ≤ t < now (env s) + 5000)%N) ∨
  ((t, TimerFired 5000) ∈ events r ∧ t = (now (env s) + 5000)%N).
Proof.
  intros Hf. cbv zeta. unfold terminate.
  rewrite (bind_pure (get_killed h) _ s _ eq_refl). fold (flagged s h).
  rewrite Hf. cbn [negb]. unfold log.
  destruct (kill_run h SIGTERM s) as (b & Hb & Hnow).
  erewrite events_bind_emit by primitive_step.
  erewrite final_bind_step by primitive_step. cbv beta.
  rewrite (final_bind_step _ _ _ _ _ _ Hb), (events_bind_step _ _ _ _ _ _ Hb).
  cbv beta. set (s1 := final (kill h SIGTERM s)) in *.
  destruct (await_cases name h 5000 s1) as [->|(p & e & _ & _ & _ & He & ->)].
  - right. destruct (grace_timer_time name h 5000 s1) as [Ht Hin].
    cbv zeta in *. rewrite Ht, Hnow. split; [|done].
    rewrite Hnow in Hin. do 2 apply list_elem_of_further. exact Hin.
  - left. destruct (exit_listener_time h e s1) as [Ht Hin].
    cbv zeta in *. rewrite Ht, Hnow. rewrite Hnow in Hin, He. split; [|lia].
    do 2 apply list_elem_of_further. exact Hin.
Qed.

(** [terminate] on a child that is up and does not exit by itself ends
    [grace_wait] ms after the SIGTERM, and sends nothing else. *)
Lemma terminate_idle name h s p :
  idle_child s h p →
  let t := (now (env s) + grace_wait p)%N in
  final (terminate name (Some h) s) =
    {| this := this s;
       env := {| now := t;
                 procs := settle t <$> <[h := signalled SIGTERM (now (env s)) p]> (procs (env s)) |} |} ∧
  sigterm_times (events (terminate name (Some h) s)) = [(now (env s), h)].
Proof.
  intros (Hp & Hk & Hx & He). cbv zeta. split.
  - rewrite (terminate_live _ _ _ _ Hp Hk Hx). cbv zeta. cbn [final].
    assert (Hlt : h < length (procs (env s))) by (by eapply lookup_lt_Some).
    set (p1 := signalled SIGTERM (now (env s)) p).
    assert (Hp1 : <[h:=p1]> (procs (env s)) !! h = Some p1)
      by (by apply list_lookup_insert_eq).
    set (s1 := {| this := this s;
                  env := {| now := now (env s); procs := <[h:=p1]> (procs (env s)) |} |}).
    assert (Htimer : final (grace_timer_fires name h 5000 s1) =
              {| this := this s;
                 env := {| now := (now (env s) + 5000)%N;
                           procs := settle (now (env s) + 5000)%N <$> <[h:=p1]> (procs (env s)) |} |})
      by (by rewrite (grace_timer_after_signal name h 5000 s1 p1 Hp1 eq_refl)).
    unfold await_exit_or_timeout. cbn [s1 env procs now]. rewrite Hp1.
    replace (exited p1) with false by (by rewrite <- Hx).
    unfold grace_wait.
    destruct (on_term p) as [d|] eqn:Ht.
    + assert (He1 : exit_at p1 = Some (now (env s) + d)%N)
        by (unfold p1, signalled; simpl; by rewrite He, Ht).
      rewrite He1.
      destruct (now (env s) + d <? now (env s) + 5000)%N eqn:Hlt'.
      * apply N.ltb_lt in Hlt'. unfold exit_listener_runs. mrun.
        cbn [s1 this env now procs].
        rewrite N.max_r by lia. rewrite N.min_l by lia. done.
      * apply N.ltb_ge in Hlt'. fold s1. rewrite Htimer.
        rewrite N.min_r by lia. done.
    + assert (He1 : exit_at p1 = None)
        by (unfold p1, signalled; simpl; by rewrite He, Ht).
      rewrite He1. fold s1. by rewrite Htimer.
  - rewrite (terminate_live _ _ _ _ Hp Hk Hx). cbv zeta. cbn [events].
    unfold sigterm_times. cbn [omap list_omap snd fst sigterm_target fmap option_fmap option_map].
    f_equal. apply sigterm_times_none, await_not_sigterm.
Qed.

(** Waiting for one child leaves the other idle children as they are. *)
Lemma idle_child_elsewhere s h h' p :
  h' ≠ h → idle_child s h' p →
  ∀ x t q, idle_child {| this := x;
                         env := {| now := t;
                                   procs := settle t <$> <[h := q]> (procs (env s)) |} |} h' p.
Proof.
  intros Hne (Hp & Hk & Hx & He) x t q.
  repeat split; try done. cbn [env procs].
  rewrite list_lookup_fmap, list_lookup_insert_ne, Hp by done.
  cbn [fmap option_fmap option_map]. by rewrite settle_idle.
Qed.

(** The loop of [stop] on three children that are up and do not exit by
    themselves: each SIGTERM is sent when the wait for the child before is
    over, and the loop takes the sum of the three waits. *)
Lemma stop_loop_idle s a w r pa pw pr :
  apiProcess (this s) = Some a →
  workerProcess (this s) = Some w →
  redisProcess (this s) = Some r →
  a ≠ w → a ≠ r → w ≠ r →
  idle_child s a pa → idle_child s w pw → idle_child s r pr →
  let t0 := now (env s) in
  sigterm_times (events (stop_loop s)) =
    [(t0, a);
     ((t0 + grace_wait pa)%N, w);
     ((t0 + grace_wait pa + grace_wait pw)%N, r)] ∧
  now (env (final (stop_loop s))) =
    (t0 + grace_wait pa + grace_wait pw + grace_wait pr)%N.
Proof.
  intros Ha Hw Hr Haw Har Hwr Hpa Hpw Hpr. cbv zeta.
  rewrite stop_loop_run. cbv zeta. cbn [final events]. rewrite Ha, Hw, Hr.
  destruct (terminate_idle "API Server" a s pa Hpa) as [Hf1 Hs1]. cbv zeta in Hf1.
  set (s1 := final (terminate "API Server" (Some a) s)) in *.
  assert (Hn1 : now (env s1) = (now (env s) + grace_wait pa)%N) by (by rewrite Hf1).
  assert (Hpw1 : idle_child s1 w pw).
  { rewrite Hf1. apply idle_child_elsewhere; [congruence|done]. }
  assert (Hpr1 : idle_child s1 r pr).
  { rewrite Hf1. apply idle_child_elsewhere; [congruence|done]. }
  destruct (terminate_idle "Workers" w s1 pw Hpw1) as [Hf2 Hs2]. cbv zeta in Hf2.
  set (s2 := final (terminate "Workers" (Some w) s1)) in *.
  assert (Hn2 : now (env s2) = (now (env s1) + grace_wait pw)%N) by (by rewrite Hf2).
  assert (Hpr2 : idle_child s2 r pr).
  { rewrite Hf2. apply idle_child_elsewhere; [congruence|done]. }
  destruct (terminate_idle "Redis" r s2 pr Hpr2) as [Hf3 Hs3]. cbv zeta in Hf3.
  split.
  - rewrite !sigterm_times_app, Hs1, Hs2, Hs3, Hn2, Hn1. done.
  - rewrite Hf3. cbn [env now]. by rewrite Hn2, Hn1.
Qed.

(** C2 (as the code has it). [stop] terminates the children one after the
    other, API server, then workers, then Redis.  It always returns, after
    the three terminations, each of which starts in the world the one
    before left.  A termination does not hand over before the child it
    signalled has exited or its own 5000 ms timer has fired: it ends at the
    time of that 'exit' event, less than 5000 ms after the SIGTERM, or of
    that timer, exactly 5000 ms after it.  So for three children that are up
    and do not exit by themselves the second SIGTERM is sent only when the
    wait for the first child is over, the third when the wait for the
    second is over, and [stop] takes the sum of the three waits: up to
    three grace periods, not one. *)
Theorem stop_is_sequential s :
  result (stop s) = Returned tt ∧
  (now (env s) ≤ now (env (final (stop s))) ≤ now (env s) + 3 * 5000)%N ∧
  (isShuttingDown (this s) = false →
   ∃ s0 s1 s2 s3,
     s0 = shutting_down s ∧
     s1 = final (terminate "API Server" (apiProcess (this s)) s0) ∧
     s2 = final (terminate "Workers" (workerProcess (this s)) s1) ∧
     s3 = final (terminate "Redis" (redisProcess (this s)) s2) ∧
     final (stop s) = s3 ∧
     events (stop s) =
       (now (env s), Log "Stopping Firecrawl services...")
       :: events (terminate "API Server" (apiProcess (this s)) s0)
       ++ events (terminate "Workers" (workerProcess (this s)) s1)
       ++ events (terminate "Redis" (redisProcess (this s)) s2)
       ++ [(now (env s3), Log "Firecrawl services stopped")]) ∧
  (∀ name h s',
     flagged s' h = false →
     let r := terminate name (Some h) s' in
     let t := now (env (final r)) in
     ((t, ExitEvent h) ∈ events r ∧ (now (env s') ≤ t < now (env s') + 5000)%N) ∨
     ((t, TimerFired 5000) ∈ events r ∧ t = (now (env s') + 5000)%N)) ∧
  (∀ a w r pa pw pr,
     isShuttingDown (this s) = false →
     apiProcess (this s) = Some a →
     workerProcess (this s) = Some w →
     redisProcess (this s) = Some r →
     a ≠ w → a ≠ r → w ≠ r →
     idle_child s a pa → idle_child s w pw → idle_child s r pr →
     let t0 := now (env s) in
     sigterm_times (events (stop s)) =
       [(t0, a);
        ((t0 + grace_wait pa)%N, w);
        ((t0 + grace_wait pa + grace_wait pw)%N, r)] ∧
     now (env (final (stop s))) =
       (t0 + grace_wait pa + grace_wait pw + grace_wait pr)%N).
Proof.
  split; [apply stop_returns|]. split; [apply within_stop|].
  split; [|split; [apply terminate_awaits|]].
  { intros H. rewrite stop_first by done. cbv zeta. rewrite stop_loop_run. cbv zeta.
    cbn [final events this redisProcess workerProcess apiProcess].
    eexists _, _, _, _. by repeat split. }
  intros a w r pa pw pr Hflag Ha Hw Hr Haw Har Hwr Hpa Hpw Hpr. cbv zeta.
  rewrite stop_first by done. cbv zeta. cbn [final events].
  change (?x :: ?l) with ([x] ++ l). rewrite sigterm_times_app.
  apply (stop_loop_idle (shutting_down s)); done.
Qed.

(** *** The two URLs *)

Lemma append_assoc (a b c : string) : (a +:+ b) +:+ c = a +:+ (b +:+ c).
Proof.
  induction a as [|x a IH]; [done|].
  change (String x ((a +:+ b) +:+ c) = String x (a +:+ (b +:+ c))). by rewrite IH.
Qed.

Lemma pretty_Z_of_N (n : N) : pretty (Z.of_N n) = pretty n.
Proof. by destruct n. Qed.

(** X9. The manager's readiness probe and the client's health check go to
    the same URL exactly when the port is left out or is a number other
    than 0.  For a port of 0, NaN (what [main] passes for a
    [FIRECRAWL_PORT] that is not a number) or [undefined] the spread of the
    manager's constructor keeps that value, so the manager probes port [0],
    [NaN] or [undefined], while the client falls back to 3002.  On numbers
    [manager_test_url] is the URL of the manager that [constructor] makes. *)
Theorem client_and_manager_urls :
  (∀ configured,
     manager_test_url configured = client_baseUrl configured +:+ "/test"
     ↔ configured = None ∨ ∃ n, configured = Some (PortNumber n) ∧ n ≠ 0%Z) ∧
  (manager_test_url (Some PortNaN) = "http://localhost:NaN/test" ∧
   client_baseUrl (Some PortNaN) = "http://localhost:3002") ∧
  (manager_test_url (Some PortUndefined) = "http://localhost:undefined/test" ∧
   client_baseUrl (Some PortUndefined) = "http://localhost:3002") ∧
  (manager_test_url (Some (PortNumber 0)) = "http://localhost:0/test" ∧
   client_baseUrl (Some (PortNumber 0)) = "http://localhost:3002") ∧
  (∀ cwd a,
     test_url (config (constructor cwd a))
     = manager_test_url (PortNumber ∘ Z.of_N <$> arg_port a)).
Proof.
  split; [|by repeat split; try (intros cwd [u [p|] f]; unfold test_url, manager_test_url;
                                   cbn; by rewrite ?pretty_Z_of_N)].
  intros [[| |n]|]; unfold manager_test_url, client_baseUrl.
  - split; [intros H; vm_compute in H; discriminate|]. by intros [?|(? & ? & _)].
  - split; [intros H; vm_compute in H; discriminate|]. by intros [?|(? & ? & _)].
  - cbn [manager_port port_or_default port_truthy].
    destruct (Z.eqb_spec n 0) as [->|Hn]; cbn [negb].
    + split; [intros H; vm_compute in H; discriminate|].
      intros [?|(? & [= <-] & ?)]; done.
    + split; [intros _; right; by exists n|]. intros _. by rewrite append_assoc.
  - split; [by left|]. intros _. reflexivity.
Qed.

(** *** A graceful [stop] *)

(** X14. [stop] ends every child that honours SIGTERM: on a manager that is
    not shutting down, a child behind a handle field that has no signal
    pending and exits within the grace period once it gets SIGTERM is gone
    when [stop] returns. *)
Theorem stop_terminates_prompt_children s h p :
  isShuttingDown (this s) = false →
  managed s h → unsignalled h s →
  procs (env s) !! h = Some p → prompt p →
  running (final (stop s)) h = false.
Proof.
  intros Hflag Hm Hu Hp (d & Hd & Hlt).
  rewrite stop_first by done. cbv zeta. cbn [final].
  assert (Hr : reaction h (shutting_down s) = Some (Some d)).
  { unfold reaction. cbn [shutting_down env]. by rewrite Hp, <- Hd. }
  destruct (stop_loop_gone h d (shutting_down s) Hm Hr Hlt Hu) as (q & Hq & Hx).
  unfold running. rewrite Hq. cbn. by rewrite Hx.
Qed.

(** *** A second [start] *)

Lemma visited_is_process (process : option nat) f h :
  h ∈ List.filter f (omap id [process]) → process = Some h.
Proof.
  intros [H _]%list_elem_of_In%List.filter_In. apply list_elem_of_In in H.
  destruct process as [h'|]; cbn in H.
  - by apply list_elem_of_singleton in H as ->.
  - by apply elem_of_nil in H.
Qed.

Lemma stop_targets_managed s h :
  h ∈ sigterm_targets (events (stop s)) → managed s h.
Proof.
  destruct (isShuttingDown (this s)) eqn:Hflag.
  { rewrite stop_noop by done. cbn. by intros ?%elem_of_nil. }
  rewrite stop_first by done. cbv zeta. cbn [events].
  rewrite stop_loop_run. cbv zeta. cbn [events].
  change (sigterm_targets (?x :: ?t)) with (sigterm_targets t).
  rewrite !sigterm_targets_app, !terminate_visit.
  change (sigterm_targets [_]) with (@nil nat). rewrite app_nil_r.
  cbn [shutting_down this apiProcess workerProcess redisProcess].
  unfold managed, handles. rewrite !elem_of_app, !elem_of_cons.
  intros [H|[H|H]]; apply visited_is_process in H; rewrite H; auto.
Qed.

Lemma startRedis_grows E s :
  length (procs (env s)) ≤ length (procs (env (final (startRedis E s)))) ∧
  (redisProcess (this (final (startRedis E s))) = redisProcess (this s) ∨
   ∃ h, length (procs (env s)) ≤ h ∧
        redisProcess (this (final (startRedis E s))) = Some h).
Proof.
  unfold startRedis.
  destruct (ping E) as [ms code|]; [|by split; [|left]].
  do 2 (erewrite final_bind_step by primitive_step; cbv beta).
  case_bool_decide.
  { cbn. rewrite length_fmap. by split; [|left]. }
  unfold log. erewrite final_bind_step by primitive_step. cbv beta.
  destruct (redis E) as [d|msg|d code'|];
    repeat first [bstep | case_match]; cbn;
    rewrite ?length_fmap, ?length_app, ?length_fmap; cbn;
    (split; [lia|right; eexists; split; [|done]; lia]).
Qed.

Lemma start_try_returned_handles E s :
  result (start_try E s) = Returned tt →
  ∃ hw ha,
    length (procs (env s)) ≤ hw ∧ length (procs (env s)) ≤ ha ∧
    workerProcess (this (final (start_try E s))) = Some hw ∧
    apiProcess (this (final (start_try E s))) = Some ha ∧
    (redisProcess (this (final (start_try E s))) = redisProcess (this s) ∨
     ∃ hr, length (procs (env s)) ≤ hr ∧
           redisProcess (this (final (start_try E s))) = Some hr).
Proof.
  unfold start_try.
  intros ([] & Hr0 & Hr & -> & _)%bind_returned_inv.
  destruct (startRedis_grows E s) as [Hlen0 Hredis].
  set (s0 := final (startRedis E s)) in *.
  revert Hr. intros ([] & Hr1 & Hr & -> & _)%bind_returned_inv.
  assert (Hs1 : this (final (delay 2000 s0)) = this s0 ∧
                length (procs (env (final (delay 2000 s0)))) = length (procs (env s0))).
  { unfold delay. repeat bstep. cbn. by rewrite length_fmap. }
  destruct Hs1 as [Hthis1 Hlen1].
  set (s1 := final (delay 2000 s0)) in *.
  revert Hr. intros ([] & Hr2 & Hr & -> & _)%bind_returned_inv.
  destruct (startWorkers_returned E s1 Hr2) as [_ Hthis2]. cbv zeta in Hthis2.
  assert (Hlen2 : length (procs (env s1)) ≤ length (procs (env (final (startWorkers E s1))))).
  { unfold startWorkers. destruct (worker E); repeat bstep; cbn; rewrite length_app; lia. }
  set (s2 := final (startWorkers E s1)) in *.
  revert Hr. intros ([] & Hr3 & Hr & -> & _)%bind_returned_inv.
  destruct (startApiServer_returned E s2 Hr3) as [_ Hthis3]. cbv zeta in Hthis3.
  set (s3 := final (startApiServer E s2)) in *.
  revert Hr. intros ([] & Hr4 & _ & -> & _)%bind_returned_inv.
  cbn [final log emit]. unfold waitForServices, waitForServices_with.
  rewrite (poll_keeps_this _ E 30 1000 30 1 _ eq_refl), Hthis3.
  cbn [workerProcess apiProcess redisProcess]. rewrite Hthis2.
  cbn [workerProcess apiProcess redisProcess]. rewrite Hthis1.
  exists (length (procs (env s1))), (length (procs (env s2))).
  split; [lia|]. split; [lia|]. done.
Qed.

(** X15. A [start] on a manager that already has children abandons them:
    when it returns, the handle fields of the workers and of the API server
    name children spawned by this call, so a child that existed before is
    no longer behind any handle field, unless [redisProcess] named it, and
    the next [stop] does not send it SIGTERM. *)
Theorem start_abandons_previous_children E s h :
  result (start E s) = Returned tt →
  h < length (procs (env s)) →
  redisProcess (this s) ≠ Some h →
  ¬ managed (final (start E s)) h ∧
  h ∉ sigterm_targets (events (stop (final (start E s)))).
Proof.
  intros Hstart Hlt Hredis.
  assert (Hnot : ¬ managed (final (start E s)) h).
  { destruct (start_returned_run E s Hstart) as (Htry & -> & _).
    unfold managed, handles.
    destruct (start_try_returned_handles E s Htry)
      as (hw & ha & Hw & Ha & -> & -> & Hr).
    rewrite !elem_of_cons, elem_of_nil.
    intros [[= ->]|[[= ->]|[H|[]]]]; [lia|lia|].
    destruct Hr as [Hr|(hr & Hhr & Hr)]; rewrite Hr in H; [done|].
    injection H as ->. lia. }
  split; [done|]. intros H. by apply Hnot, stop_targets_managed.
Qed.

(** ** Invariants of the manager *)

(** *** Signals are sent by [stop] only *)

Lemma healthCheck_no_kill ms answer : emits not_kill (healthCheck ms answer).
Proof. mstep. Qed.

Lemma perform_no_kill c s :
  isShuttingDown (this (perform c s).1) = false → count is_kill (perform c s).2 = 0.
Proof.
  destruct c as [E| |ms answer]; unfold perform; cbn [fst snd].
  - rewrite start_run. cbv zeta. cbn [final events].
    rewrite count_cons, count_app. cbn [snd is_kill].
    rewrite count_not_kill by apply start_try_no_kill.
    destruct (result (start_try E s)); [done| |done].
    by rewrite stop_sets_flag.
  - by rewrite stop_sets_flag.
  - intros _. apply count_not_kill, healthCheck_no_kill.
Qed.

(** X21. Until [stop] runs, no signal is sent: over any sequence of calls of
    [start], [stop] and [healthCheck] after which the shutting-down flag is
    still clear, no [kill] was called at all. *)
Theorem no_signal_before_stop cs s :
  isShuttingDown (this (perform_all cs s).1) = false →
  count is_kill (perform_all cs s).2 = 0.
Proof.
  revert s. induction cs as [|c cs IH]; intros s; [done|].
  cbn [perform_all].
  pose proof (perform_no_kill c s) as Hc.
  pose proof (perform_all_flag cs (perform c s).1) as Hmono.
  specialize (IH (perform c s).1).
  destruct (perform c s) as [s1 t1]. cbn [fst snd] in *.
  destruct (perform_all cs s1) as [s2 t2]. cbn [fst snd] in *.
  intros Hflag. rewrite count_app, IH by done.
  destruct (isShuttingDown (this s1)) eqn:H1; [|by rewrite Hc].
  rewrite Hmono in Hflag; done.
Qed.

(** *** A child that ignores SIGTERM *)

Lemma stubborn_settled h x t t' s :
  stubborn h s →
  stubborn h {| this := x; env := {| now := t'; procs := settle t <$> procs (env s) |} |}.
Proof.
  intros (p & Hp & Hx & He & Ht). exists p. cbn [env procs].
  rewrite lookup_settled, Hp. cbn. by rewrite settle_idle.
Qed.

Lemma stubborn_elapse h ms : keeps (stubborn h) (elapse ms).
Proof. intros s. apply stubborn_settled. Qed.

Lemma stubborn_elapse_until h t : keeps (stubborn h) (elapse_until t).
Proof. intros s. apply stubborn_settled. Qed.

Lemma stubborn_kill_other h h' sig : h ≠ h' → keeps (stubborn h) (kill h' sig).
Proof.
  intros Hne s (p & Hp & Hrest).
  destruct (kill_lookup h' sig s h) as [H|(q & ? & _)]; [|done].
  exists p. by rewrite H.
Qed.

Lemma stubborn_terminate_other h h' name :
  h ≠ h' → keeps (stubborn h) (terminate name (Some h')).
Proof.
  intros Hne.
  pose proof (stubborn_elapse h). pose proof (stubborn_elapse_until h).
  pose proof (λ sig, stubborn_kill_other h h' sig Hne).
  mstep.
Qed.

Lemma stubborn_terminate_self h name : keeps (stubborn h) (terminate name (Some h)).
Proof.
  intros s (p & Hp & Hx & He & Ht).
  destruct (killed p) eqn:Hk.
  { unfold terminate.
    rewrite (bind_pure (get_killed h) _ s (killed p))
      by (unfold get_killed; by rewrite Hp).
    rewrite Hk. by exists p. }
  rewrite (terminate_live _ _ _ _ Hp Hk Hx). cbv zeta. cbn [final].
  assert (Hlt : h < length (procs (env s))) by (by eapply lookup_lt_Some).
  set (p1 := signalled SIGTERM (now (env s)) p).
  assert (Hp1 : <[h:=p1]> (procs (env s)) !! h = Some p1)
    by (by apply list_lookup_insert_eq).
  assert (He1 : exit_at p1 = None) by (unfold p1, signalled; simpl; by rewrite He, Ht).
  unfold await_exit_or_timeout. cbn [env procs now]. rewrite Hp1.
  replace (exited p1) with false by (by rewrite <- Hx).
  rewrite He1.
  rewrite (grace_timer_after_signal name h 5000
             {| this := this s;
                env := {| now := now (env s); procs := <[h:=p1]> (procs (env s)) |} |}
             p1 Hp1 eq_refl).
  cbn [final]. exists p1. cbn [env procs].
  rewrite lookup_settled, Hp1. cbn. rewrite settle_idle by done.
  repeat split; first [done | by rewrite <- Hx].
Qed.

Lemma stubborn_terminate h name process : keeps (stubborn h) (terminate name process).
Proof.
  destruct process as [h'|]; [|by intros s].
  destruct (decide (h = h')) as [<-|Hne].
  - apply stubborn_terminate_self.
  - by apply stubborn_terminate_other.
Qed.

(** X19. [stop] does not end a child that ignores SIGTERM: a child that is
    up, does not exit by itself and does not react to SIGTERM is still
    running when [stop] returns, whichever handle field names it, and no
    SIGKILL was delivered to any child. *)
Theorem stop_leaves_stubborn_child_running s h :
  stubborn h s →
  running (final (stop s)) h = true ∧
  count is_delivered_sigkill (events (stop s)) = 0.
Proof.
  intros Hs. split; [|apply stop_never_delivers_sigkill].
  assert (Hfin : stubborn h (final (stop s))).
  { destruct (isShuttingDown (this s)) eqn:Hflag.
    - by rewrite stop_noop.
    - rewrite stop_first by done. cbv zeta. cbn [final].
      rewrite stop_loop_run. cbv zeta. cbn [final].
      do 3 apply stubborn_terminate. exact Hs. }
  destruct Hfin as (p & Hp & Hx & _). unfold running. rewrite Hp. cbn. by rewrite Hx.
Qed.

(** *** The handle fields name different children *)

Lemma well_handled_same s s' :
  handles (this s') = handles (this s) →
  length (procs (env s)) ≤ length (procs (env s')) →
  well_handled s → well_handled s'.
Proof.
  intros Hh Hlen [Hnd Hlt]. unfold well_handled, managed in *. rewrite Hh.
  split; [done|]. intros h Hm. specialize (Hlt h Hm). lia.
Qed.

(** One entry of a list of handles is replaced by a handle that is larger
    than all of them. *)
Lemma replace_handle (pre : list (option nat)) x post n :
  NoDup (omap id (pre ++ x :: post)) →
  (∀ h, Some h ∈ pre ++ x :: post → h < n) →
  NoDup (omap id (pre ++ Some n :: post)) ∧
  ∀ h, Some h ∈ pre ++ Some n :: post → h < S n.
Proof.
  intros Hnd Hlt.
  assert (Hpre : ∀ h, h ∈ omap id pre → h < n).
  { intros h (o & Ho & Hid)%list_elem_of_omap. cbn in Hid. subst o.
    apply Hlt, elem_of_app. by left. }
  assert (Hpost : ∀ h, h ∈ omap id post → h < n).
  { intros h (o & Ho & Hid)%list_elem_of_omap. cbn in Hid. subst o.
    apply Hlt, elem_of_app. right. by apply list_elem_of_further. }
  split.
  - rewrite omap_app in Hnd |- *.
    apply NoDup_app in Hnd as (Hnd1 & Hdisj & Hnd2).
    assert (Hnd3 : NoDup (omap id post)).
    { destruct x as [hx|]; cbn in Hnd2; [by apply NoDup_cons in Hnd2 as [_ ?]|done]. }
    apply NoDup_app. split; [done|]. split.
    + intros h Hh. cbn. intros [->|Hin]%elem_of_cons.
      * specialize (Hpre _ Hh). lia.
      * apply (Hdisj h Hh). destruct x as [hx|]; cbn; [by apply list_elem_of_further|done].
    + cbn. apply NoDup_cons. split; [|done]. intros Hin. specialize (Hpost _ Hin). lia.
  - intros h [Hin|[[= ->]|Hin]%elem_of_cons]%elem_of_app; [|lia|].
    + assert (h < n); [|lia]. apply Hlt, elem_of_app. by left.
    + assert (h < n); [|lia]. apply Hlt, elem_of_app. right. by apply list_elem_of_further.
Qed.

(** One field is set to the child that has just been spawned. *)
Lemma well_handled_spawned s s' a w r :
  well_handled s →
  length (procs (env s')) = S (length (procs (env s))) →
  handles (this s) = [a; w; r] →
  (handles (this s') = [Some (length (procs (env s))); w; r] ∨
   handles (this s') = [a; Some (length (procs (env s))); r] ∨
   handles (this s') = [a; w; Some (length (procs (env s)))]) →
  well_handled s'.
Proof.
  intros [Hnd Hlt] Hlen Hh Hh'. unfold well_handled, managed in *.
  rewrite Hh in Hnd, Hlt. rewrite Hlen.
  destruct Hh' as [-> | [-> | ->]].
  - exact (replace_handle [] a [w; r] _ Hnd Hlt).
  - exact (replace_handle [a] w [r] _ Hnd Hlt).
  - exact (replace_handle [a; w] r [] _ Hnd Hlt).
Qed.

Lemma well_handled_elapse ms : keeps well_handled (elapse ms).
Proof.
  intros s. apply well_handled_same; [done|].
  unfold elapse, set_env. cbn. by rewrite length_fmap.
Qed.

Lemma well_handled_elapse_until t : keeps well_handled (elapse_until t).
Proof.
  intros s. apply well_handled_same; [done|].
  unfold elapse_until, set_env. cbn. by rewrite length_fmap.
Qed.

Lemma well_handled_kill h sig : keeps well_handled (kill h sig).
Proof.
  intros s. apply well_handled_same.
  - by apply (this_kill (λ m, handles m = handles (this s))).
  - unfold kill. destruct (procs (env s) !! h) as [p|]; [destruct (exited p)|]; cbn;
      rewrite ?length_insert; done.
Qed.

Lemma well_handled_flag :
  keeps well_handled
    (set_this (λ m, {| redisProcess := redisProcess m; workerProcess := workerProcess m;
                       apiProcess := apiProcess m; config := config m;
                       isShuttingDown := true |})).
Proof. intros s. by apply well_handled_same. Qed.

Lemma well_handled_stop : keeps well_handled stop.
Proof.
  pose proof well_handled_elapse. pose proof well_handled_elapse_until.
  pose proof well_handled_kill. pose proof well_handled_flag.
  mstep.
Qed.

Lemma well_handled_healthCheck ms answer : keeps well_handled (healthCheck ms answer).
Proof. pose proof well_handled_elapse. mstep. Qed.

Lemma well_handled_delay ms : keeps well_handled (delay ms).
Proof. pose proof well_handled_elapse. mstep. Qed.

Lemma well_handled_waitForServices E : keeps well_handled (waitForServices E).
Proof. apply keeps_poll, well_handled_elapse. Qed.

(** Settles a stage that may spawn one child and store its handle. *)
Ltac spawning_stage s Hs :=
  repeat first [bstep | case_match]; try exact Hs;
  rewrite ?length_fmap;
  first
    [ apply (well_handled_same s); [reflexivity|cbn; rewrite ?length_fmap; lia|exact Hs]
    | apply (well_handled_spawned s _ (apiProcess (this s)) (workerProcess (this s))
               (redisProcess (this s)) Hs);
      [ cbn; rewrite ?length_fmap, ?length_app, ?length_fmap; cbn; lia
      | reflexivity
      | cbn; auto ] ].

Lemma well_handled_startRedis E : keeps well_handled (startRedis E).
Proof.
  intros s Hs. unfold startRedis.
  destruct (ping E) as [ms code|]; [|exact Hs].
  do 2 (erewrite final_bind_step by primitive_step; cbv beta).
  case_bool_decide.
  { cbn. apply (well_handled_same s); [done|cbn; by rewrite length_fmap|done]. }
  unfold log. erewrite final_bind_step by primitive_step. cbv beta.
  destruct (redis E) as [d|msg|d code'|]; spawning_stage s Hs.
Qed.

Lemma well_handled_startWorkers E : keeps well_handled (startWorkers E).
Proof.
  intros s Hs. unfold startWorkers. destruct (worker E); spawning_stage s Hs.
Qed.

Lemma well_handled_startApiServer E : keeps well_handled (startApiServer E).
Proof.
  intros s Hs. unfold startApiServer. destruct (api E); spawning_stage s Hs.
Qed.

Lemma well_handled_start E : keeps well_handled (start E).
Proof.
  unfold start, start_try.
  apply keeps_bind; [apply keeps_emit|intros _].
  apply keeps_try_catch.
  - apply keeps_bind; [apply well_handled_startRedis|intros _].
    apply keeps_bind; [apply well_handled_delay|intros _].
    apply keeps_bind; [apply well_handled_startWorkers|intros _].
    apply keeps_bind; [apply well_handled_startApiServer|intros _].
    apply keeps_bind; [apply well_handled_waitForServices|intros _].
    apply keeps_emit.
  - intros e. apply keeps_bind; [apply well_handled_stop|intros _]. apply keeps_throw.
Qed.

(** X20. The handle fields always name different children that exist: if
    that holds on a manager (as on a new one, which has no handle), it
    holds after any sequence of calls of [start], [stop] and [healthCheck],
    however the calls end. *)
Theorem handles_stay_distinct cs s :
  well_handled s → well_handled (perform_all cs s).1.
Proof.
  revert s. induction cs as [|c cs IH]; intros s Hs; [done|].
  cbn [perform_all].
  assert (Hc : well_handled (perform c s).1).
  { destruct c as [E| |ms answer]; unfold perform; cbn [fst].
    - by apply well_handled_start.
    - by apply well_handled_stop.
    - by apply well_handled_healthCheck. }
  destruct (perform c s) as [s1 t1]. specialize (IH s1 Hc).
  by destruct (perform_all cs s1) as [s2 t2].
Qed.

(** ** How [start] can fail *)

Lemma rejects_bind {A B} P (m : M A) (k : A → M B) :
  rejects P m → (∀ a, rejects P (k a)) → rejects P (m ≫= k).
Proof.
  intros Hm Hk s e. unfold mbind, M_bind, bind.
  destruct (result (m s)) as [a|e'|e'] eqn:Hr; cbn [result]; [|by intros [= <-]; eauto|done].
  apply Hk.
Qed.

Lemma escapes_bind {A B} P (m : M A) (k : A → M B) :
  escapes P m → (∀ a, escapes P (k a)) → escapes P (m ≫= k).
Proof.
  intros Hm Hk s e. unfold mbind, M_bind, bind.
  destruct (result (m s)) as [a|e'|e'] eqn:Hr; cbn [result]; [|done|by intros [= <-]; eauto].
  apply Hk.
Qed.

Lemma returns_rejects {A} P (f : M A) : returns f → rejects P f.
Proof. intros Hf s e He. destruct (Hf s) as [a Ha]. congruence. Qed.

Lemma returns_escapes {A} P (f : M A) : returns f → escapes P f.
Proof. intros Hf s e He. destruct (Hf s) as [a Ha]. congruence. Qed.

Lemma returns_delay ms : returns (delay ms).
Proof. munfold. unfold elapse. mstep0. Qed.

Lemma startRedis_fails E :
  rejects (start_rejection E) (startRedis E) ∧ escapes (start_escape E) (startRedis E).
Proof.
  unfold startRedis.
  destruct (ping E) as [ms code|] eqn:Hping.
  2:{ split; intros s e; [done|]. intros [= <-]. by left. }
  split; intros s e;
    (do 2 (erewrite result_bind_step by primitive_step; cbv beta);
     case_bool_decide; [done|];
     unfold log; erewrite result_bind_step by primitive_step; cbv beta;
     destruct (redis E) as [d|msg|d code'|] eqn:Hredis;
     repeat first [bstep | case_match]; cbn; try done).
  - intros [= <-]. unfold start_rejection, redis_timeout. auto.
  - intros [= <-]. left. by exists msg.
  - intros [= <-]. right. left. exists d, code'. split; [done|]. split; [|done].
    intros ->. done.
  - intros [= <-]. unfold start_rejection, redis_timeout. auto.
  - intros [= <-]. unfold start_rejection, redis_timeout. auto.
  - intros [= <-]. unfold start_rejection, redis_timeout. auto.
Qed.

Lemma startWorkers_fails E :
  rejects (start_rejection E) (startWorkers E) ∧ escapes (start_escape E) (startWorkers E).
Proof.
  unfold startWorkers.
  destruct (worker E) as [c|msg] eqn:Hw; split; intros s e; repeat bstep; cbn; try done.
  intros [= <-]. right. left. by exists msg.
Qed.

Lemma startApiServer_fails E :
  rejects (start_rejection E) (startApiServer E) ∧
  escapes (start_escape E) (startApiServer E).
Proof.
  unfold startApiServer.
  destruct (api E) as [c|msg] eqn:Ha; split; intros s e; repeat bstep; cbn; try done.
  intros [= <-]. right. right. by exists msg.
Qed.

Lemma poll_fails E maxAttempts delayMs todo attempt s :
  (∀ e, result (poll E maxAttempts delayMs todo attempt s) = Rejected e →
        e = readiness_error maxAttempts) ∧
  (∀ e, result (poll E maxAttempts delayMs todo attempt s) ≠ Uncaught e).
Proof.
  revert attempt s. induction todo as [|todo IH]; intros attempt s; [done|].
  rewrite poll_step. cbv zeta.
  destruct (answers_ok (fetch_answer E attempt)); [done|].
  case_bool_decide; [split; [by intros e [= <-]|done]|].
  cbn [result]. apply IH.
Qed.

Lemma start_try_fails E :
  rejects (start_rejection E) (start_try E) ∧ escapes (start_escape E) (start_try E).
Proof.
  destruct (startRedis_fails E) as [Hr1 He1].
  destruct (startWorkers_fails E) as [Hr2 He2].
  destruct (startApiServer_fails E) as [Hr3 He3].
  assert (Hr4 : rejects (start_rejection E) (waitForServices E)).
  { intros s e He. apply poll_fails in He as ->. unfold start_rejection. auto. }
  assert (He4 : escapes (start_escape E) (waitForServices E)).
  { intros s e He. by apply poll_fails in He. }
  unfold start_try. split.
  - apply rejects_bind; [done|intros _].
    apply rejects_bind; [apply returns_rejects, returns_delay|intros _].
    apply rejects_bind; [done|intros _].
    apply rejects_bind; [done|intros _].
    apply rejects_bind; [done|intros _].
    apply returns_rejects, returns_emit.
  - apply escapes_bind; [done|intros _].
    apply escapes_bind; [apply returns_escapes, returns_delay|intros _].
    apply escapes_bind; [done|intros _].
    apply escapes_bind; [done|intros _].
    apply escapes_bind; [done|intros _].
    apply returns_escapes, returns_emit.
Qed.

(** X22. How [start] can fail.  It rejects only with one of four
    InternalErrors: Redis could not be spawned, Redis exited with a
    non-zero code before it was ready, Redis was not ready within 10
    seconds, or the API server did not answer 30 probes; the rollback never
    replaces that error by one of its own.  The only exceptions that leave
    it uncaught (and so without rollback) are the spawn error of
    [redis-cli] and the errors thrown by the 'error' listeners of the
    workers and of the API server. *)
Theorem start_failures E s e :
  (result (start E s) = Rejected e → start_rejection E e) ∧
  (result (start E s) = Uncaught e → start_escape E e).
Proof.
  rewrite start_run. cbv zeta. cbn [result].
  destruct (start_try_fails E) as [Hr He]. split; [apply Hr|apply He].
Qed.

(** ** The client *)

Section client_facts.
Context (JSON_parse : string → string + json) (baseUrl : string).

Lemma handleError_throws {A} error operation :
  ∃ code message,
    @handleError baseUrl A error operation = inl (ThrownMcpError code message) ∧
    match error with
    | ThrownMcpError code' message' => code = code' ∧ message = message'
    | _ => code = InternalError ∧ is_backend_error message = false
    end.
Proof.
  destruct error as [code message|name message|]; cbn [handleError].
  - by eexists _, _.
  - destruct (String.eqb name "AbortError" || includes message "timeout");
      [|destruct (includes message "fetch")]; by eexists _, _.
  - by eexists _, _.
Qed.

Lemma prefix_app (p x : string) : String.prefix p (p +:+ x) = true.
Proof.
  induction p as [|a p IH]; [by destruct x|].
  change (String a p +:+ x) with (String a (p +:+ x)). cbn [String.prefix].
  by destruct (Ascii.ascii_dec a a).
Qed.

(** What an operation gives, reply by reply. *)
Lemma call_client_cases o r :
  let res := (call_client JSON_parse baseUrl o r).2 in
  match r with
  | FetchRejects name message | BodyRejects _ name message =>
      res = handleError baseUrl (ThrownError name message) (operation_name o)
  | Responds status text =>
      if ok status
      then match JSON_parse text with
           | inl message =>
               res = handleError baseUrl (ThrownError "SyntaxError" message) (operation_name o)
           | inr response =>
               match get response "success" with
               | inl e => response = JNull ∧
                          res = handleError baseUrl e (operation_name o)
               | inr success =>
                   if truthy success
                   then ∃ data, get response "data" = inr data ∧ res = inr data
                   else ∃ message, res = inl (ThrownMcpError InvalidRequest message) ∧
                                   is_backend_error message = false
               end
           end
      else res = inl (ThrownMcpError InternalError
                        ("Firecrawl API error (" +:+ pretty status +:+ "): "
                           +:+ to_string (errorMessage JSON_parse status text)))
  end.
Proof.
  cbv zeta.
  destruct o; cbn [call_client scrapeUrl crawlWebsite getCrawlStatus searchAndScrape
                   makeRequest fst snd operation_name];
    (destruct r as [name message|status text|status name message]; [done| |done]);
    (destruct (ok status); cbn [negb]; [|done]);
    unfold parse; (destruct (JSON_parse text) as [message|response]; [done|]);
    cbn [mbind exn_bind];
    (destruct response; cbn [get mbind exn_bind]; [done|..]);
    (match goal with |- context [truthy ?v] => destruct (truthy v) end;
     cbn [negb try_ mbind exn_bind]; by eexists).
Qed.

(** X10. Whatever the world replies, an operation of the client that fails
    throws an [McpError], never the exception it caught.  Its code is
    InvalidRequest exactly when the backend answered with an ok status and a
    JSON body whose [success] member is falsy, and InternalError in every
    other case. *)
Theorem client_throws_only_McpError o r e :
  (call_client JSON_parse baseUrl o r).2 = inl e →
  ∃ code message,
    e = ThrownMcpError code message ∧
    (code = InvalidRequest ↔
     ∃ status text response success,
       r = Responds status text ∧ ok status = true ∧
       JSON_parse text = inr response ∧
       get response "success" = inr success ∧ truthy success = false).
Proof.
  pose proof (call_client_cases o r) as H. cbv zeta in H.
  assert (Hother : ∀ error : thrown,
            (∀ c m, error ≠ ThrownMcpError c m) →
            (call_client JSON_parse baseUrl o r).2
              = handleError baseUrl error (operation_name o) →
            (call_client JSON_parse baseUrl o r).2 = inl e →
            ∃ message, e = ThrownMcpError InternalError message).
  { intros error Hne Hres He. rewrite Hres in He.
    destruct (@handleError_throws (option json) error (operation_name o))
      as (code & message & Hh & Hc).
    rewrite Hh in He. injection He as <-.
    destruct error as [c m|n m|]; [by destruct (Hne c m)|..]; destruct Hc as [-> _];
      by eexists. }
  intros He.
  destruct r as [name message|status text|status name message].
  - opose proof (Hother _ _ H He) as [m ->]; [done|]. eexists _, _. split; [done|].
    split; [done|]. by intros (? & ? & ? & ? & ? & _).
  - destruct (ok status) eqn:Hok.
    + destruct (JSON_parse text) as [message|response] eqn:Hparse.
      * opose proof (Hother _ _ H He) as [m ->]; [done|]. eexists _, _. split; [done|].
        split; [done|]. intros (? & ? & ? & ? & [= <- <-] & _ & ? & _). congruence.
      * destruct (get response "success") as [e0|success] eqn:Hget.
        -- destruct H as [-> H]. cbn in Hget. injection Hget as <-.
           opose proof (Hother _ _ H He) as [m ->]; [done|]. eexists _, _. split; [done|].
           split; [done|].
           intros (? & ? & ? & ? & [= <- <-] & _ & Hp & Hg & _).
           rewrite Hparse in Hp. injection Hp as <-. done.
        -- destruct (truthy success) eqn:Htruthy.
           ++ destruct H as (data & _ & H). congruence.
           ++ destruct H as (message & H & _). rewrite H in He. injection He as <-.
              eexists _, _. split; [done|]. split; [|done]. intros _.
              by exists status, text, response, success.
    + rewrite H in He. injection He as <-. eexists _, _. split; [done|].
      split; [done|]. intros (? & ? & ? & ? & [= <- <-] & ? & _). congruence.
  - opose proof (Hother _ _ H He) as [m ->]; [done|]. eexists _, _. split; [done|].
    split; [done|]. by intros (? & ? & ? & ? & ? & _).
Qed.

(** X11. Backend errors are told apart from every other failure by the
    text the client constructs its [McpError] with (the second argument of
    [new McpError], not the [message] property that the SDK derives from
    it): the text starts with 'Firecrawl API error (', the wording of
    [makeRequest], exactly when the backend answered with a status that is
    not ok; a connection failure, a timeout or an unreadable body never
    gets that wording, and a backend error is never reworded by
    [handleError], whatever its text says. *)
Theorem backend_error_wording o r code message :
  (call_client JSON_parse baseUrl o r).2 = inl (ThrownMcpError code message) →
  (is_backend_error message = true ↔
   ∃ status text, r = Responds status text ∧ ok status = false).
Proof.
  pose proof (call_client_cases o r) as H. cbv zeta in H.
  assert (Hother : ∀ error : thrown,
            (∀ c m, error ≠ ThrownMcpError c m) →
            (call_client JSON_parse baseUrl o r).2
              = handleError baseUrl error (operation_name o) →
            (call_client JSON_parse baseUrl o r).2 = inl (ThrownMcpError code message) →
            is_backend_error message = false).
  { intros error Hne Hres He. rewrite Hres in He.
    destruct (@handleError_throws (option json) error (operation_name o))
      as (code' & message' & Hh & Hc).
    rewrite Hh in He. injection He as <- <-.
    destruct error as [c m|n m|]; [by destruct (Hne c m)|..]; by destruct Hc. }
  intros He.
  destruct r as [name msg|status text|status name msg].
  - opose proof (Hother _ _ H He) as ->; [done|]. split; [done|]. by intros (? & ? & ? & _).
  - destruct (ok status) eqn:Hok.
    + assert (Hno : is_backend_error message = false).
      { destruct (JSON_parse text) as [msg|response] eqn:Hparse.
        - by opose proof (Hother _ _ H He) as ->.
        - destruct (get response "success") as [e0|success] eqn:Hget.
          + destruct H as [-> H]. cbn in Hget. injection Hget as <-.
            by opose proof (Hother _ _ H He) as ->.
          + destruct (truthy success).
            * destruct H as (data & _ & H). congruence.
            * destruct H as (msg & H & Hmsg). congruence. }
      rewrite Hno. split; [done|]. intros (? & ? & [= <- <-] & ?). congruence.
    + rewrite H in He. injection He as <- <-. split; [|intros _; apply prefix_app].
      intros _. by eexists _, _.
  - opose proof (Hother _ _ H He) as ->; [done|]. split; [done|]. by intros (? & ? & ? & _).
Qed.

(** X12. An operation returns only on success: it returns [data] exactly
    when the backend answered with an ok status and a body that is JSON,
    not [null], with a truthy [success] member, and [data] is the [data]
    member of that body (or [undefined] when there is none). *)
Theorem client_returns_only_on_success o r data :
  (call_client JSON_parse baseUrl o r).2 = inr data ↔
  ∃ status text response success,
    r = Responds status text ∧ ok status = true ∧
    JSON_parse text = inr response ∧
    get response "success" = inr success ∧ truthy success = true ∧
    get response "data" = inr data.
Proof.
  pose proof (call_client_cases o r) as H. cbv zeta in H.
  assert (Hother : ∀ error : thrown,
            (call_client JSON_parse baseUrl o r).2
              = handleError baseUrl error (operation_name o) →
            (call_client JSON_parse baseUrl o r).2 ≠ inr data).
  { intros error Hres He. rewrite Hres in He.
    destruct (@handleError_throws (option json) error (operation_name o))
      as (code & message & Hh & _). congruence. }
  split.
  - intros He.
    destruct r as [name msg|status text|status name msg];
      [by destruct (Hother _ H)| |by destruct (Hother _ H)].
    destruct (ok status) eqn:Hok; [|congruence].
    destruct (JSON_parse text) as [msg|response] eqn:Hparse; [by destruct (Hother _ H)|].
    destruct (get response "success") as [e0|success] eqn:Hget.
    { destruct H as [_ H]. by destruct (Hother _ H). }
    destruct (truthy success) eqn:Htruthy.
    + destruct H as (data' & Hdata & H). rewrite H in He. injection He as ->.
      by exists status, text, response, success.
    + destruct H as (msg & H & _). congruence.
  - intros (status & text & response & success & -> & Hok & Hparse & Hget & Htruthy & Hdata).
    rewrite Hok, Hparse, Hget, Htruthy in H. destruct H as (data' & Hdata' & ->). congruence.
Qed.

(** X13. How a [fetch] that rejects is reported.  An error named AbortError,
    or whose message mentions 'timeout', is reported as a timeout of the
    operation, also when its message mentions 'fetch'; any other error whose
    message mentions 'fetch' as a failure to connect to the server at
    [baseUrl]; and any other error with its own message. *)
Theorem fetch_rejection_reported o name message :
  let res := (call_client JSON_parse baseUrl o (FetchRejects name message)).2 in
  (name = "AbortError" ∨ includes message "timeout" = true →
   res = inl (ThrownMcpError InternalError
                ("Request to " +:+ operation_name o
                   +:+ " timed out. The operation may still be processing."))) ∧
  (name ≠ "AbortError" → includes message "timeout" = false →
   (includes message "fetch" = true →
    res = inl (ThrownMcpError InternalError
                 ("Unable to connect to Firecrawl server at " +:+ baseUrl
                    +:+ ". Make sure Firecrawl is running locally."))) ∧
   (includes message "fetch" = false →
    res = inl (ThrownMcpError InternalError
                 ("Failed to " +:+ operation_name o +:+ ": " +:+ message)))).
Proof.
  cbv zeta. rewrite (call_client_cases o (FetchRejects name message)).
  cbn [handleError]. split.
  - intros [-> | ->]; [done|]. by rewrite orb_true_r.
  - intros Hname%String.eqb_neq -> . rewrite Hname. cbn [orb].
    split; by intros ->.
Qed.
End client_facts.

(** ** The options the handlers pass on *)

Lemma member_cons key k v rest :
  member key ((k, v) :: rest)
  = match member key rest with
    | Some v' => Some v'
    | None => if String.eqb k key then Some v else None
    end.
Proof. reflexivity. Qed.

(** X18. The handlers' defaults apply exactly to the keys the caller left
    out: every key of the caller's options reaches the client with the
    caller's value, also a falsy one (a [maxDepth] or [limit] of 0 is not
    replaced) and also [scrapeOptions] (which then gets no default
    [formats]); a key that is left out gets its default if it has one:
    [maxDepth] 2 and [limit] 10 for a crawl, [limit] 5 for a search,
    [formats] ['markdown'] for a scrape, and [scrapeOptions] with [formats]
    ['markdown'] for a crawl and a search. *)
Theorem handler_defaults_only_when_absent options key :
  member key (scrapeOptions options)
  = match member key options with
    | Some v => Some v
    | None => if String.eqb key "formats" then Some (JArray [JString "markdown"]) else None
    end ∧
  member key (crawlOptions options)
  = match member key options with
    | Some v => Some v
    | None => if String.eqb key "maxDepth" then Some (JNumber 2)
              else if String.eqb key "limit" then Some (JNumber 10)
              else if String.eqb key "scrapeOptions" then Some markdown_only
              else None
    end ∧
  ∀ query,
    member key (searchOptions query options)
    = match member key options with
      | Some v => Some v
      | None => if String.eqb key "query" then Some query
                else if String.eqb key "limit" then Some (JNumber 5)
                else if String.eqb key "scrapeOptions" then Some markdown_only
                else None
      end.
Proof.
  unfold scrapeOptions, crawlOptions, searchOptions.
  split; [|split; [|intros query]]; rewrite !member_cons;
    destruct (member key options) as [v|] eqn:Hkey; try done;
    repeat match goal with
    | |- context [String.eqb ?a key] =>
        rewrite (String.eqb_sym a key); destruct (String.eqb_spec key a) as [->|]
    end; try done;
    revert Hkey; intros ->; reflexivity.
Qed.

(** ** The command line *)

Lemma parse_loop_keeps args c :
  c ≠ EmptyString →
  (∀ a, a ∈ args → takes_value a = false) →
  List.filter is_info_flag args = [] →
  parse_loop args (Some c) = Some c.
Proof.
  intros Hc. induction args as [|arg rest IH]; intros Hval Hflag; [done|].
  cbn [parse_loop List.filter] in *.
  destruct (is_info_flag arg); [done|].
  rewrite (Hval arg) by apply list_elem_of_here.
  assert (Hrest : parse_loop rest (Some c) = Some c).
  { apply IH; [|done]. intros a Ha. apply Hval. by apply list_elem_of_further. }
  destruct (String.eqb arg "--debug"); [done|].
  cbn [no_command]. by apply String.eqb_neq in Hc as ->.
Qed.

Lemma is_info_flag_nonempty flag : is_info_flag flag = true → flag ≠ EmptyString.
Proof. by intros H ->. Qed.

Lemma parse_loop_last_flag args command flag :
  (∀ a, a ∈ args → takes_value a = false) →
  last (List.filter is_info_flag args) = Some flag →
  parse_loop args command = Some flag.
Proof.
  revert command. induction args as [|arg rest IH]; intros command Hval Hlast; [done|].
  assert (Hval' : ∀ a, a ∈ rest → takes_value a = false)
    by (intros a Ha; apply Hval; by apply list_elem_of_further).
  cbn [parse_loop List.filter] in *.
  destruct (is_info_flag arg) eqn:Hflag.
  - destruct (List.filter is_info_flag rest) as [|f fs] eqn:Hrest.
    + injection Hlast as ->.
      apply parse_loop_keeps; [by apply is_info_flag_nonempty|done|done].
    + apply IH; [done|]. exact Hlast.
  - rewrite (Hval arg) by apply list_elem_of_here.
    destruct (String.eqb arg "--debug"); [by apply IH|].
    destruct (no_command command && negb (String.prefix "--" arg)); by apply IH.
Qed.

Lemma shown_by_dispatch flag : is_info_flag flag = true → dispatch (Some flag) = shown_by flag.
Proof.
  unfold is_info_flag, dispatch, shown_by.
  destruct (String.eqb_spec flag "--version") as [->|]; [done|].
  destruct (String.eqb_spec flag "-v") as [->|]; [done|].
  destruct (String.eqb_spec flag "--help") as [->|]; [done|].
  destruct (String.eqb_spec flag "-h") as [->|]; done.
Qed.

(** X16. A version or help flag wins over any command: when no argument
    is one of the options that take a value, the command is the last
    version or help flag of the command line, whatever comes before or after
    it, so the version or the help text is shown and the server is not
    started. *)
Theorem info_flag_wins argv flag :
  (∀ a, a ∈ drop 2 argv → takes_value a = false) →
  last (List.filter is_info_flag (drop 2 argv)) = Some flag →
  parseCliArgs argv = Some flag ∧
  dispatch (parseCliArgs argv) = shown_by flag ∧
  dispatch (parseCliArgs argv) ≠ Main.
Proof.
  intros Hval Hlast. unfold parseCliArgs.
  rewrite (parse_loop_last_flag _ None flag Hval Hlast).
  assert (Hflag : is_info_flag flag = true).
  { apply last_Some in Hlast as [l Hl].
    assert (Hin : List.In flag (List.filter is_info_flag (drop 2 argv)))
      by (rewrite Hl; apply List.in_or_app; right; by left).
    by apply List.filter_In in Hin as [_ ?]. }
  split; [done|]. rewrite shown_by_dispatch by done. split; [done|].
  unfold shown_by. by case_match.
Qed.

(** X17. The argument after [--transport], [--port] or [--host] is skipped
    whatever it is: it is never taken for a command or a flag, also when it
    is [--help] or [setup]. *)
Theorem option_value_is_skipped pre opt value post command :
  (∀ a, a ∈ pre → takes_value a = false) →
  takes_value opt = true →
  parse_loop (pre ++ opt :: value :: post) command
  = parse_loop (pre ++ post) command.
Proof.
  intros Hpre Hopt. revert command.
  induction pre as [|arg pre IH]; intros command.
  - cbn [app parse_loop]. rewrite Hopt.
    assert (Hnf : is_info_flag opt = false).
    { revert Hopt. unfold takes_value, is_info_flag.
      destruct (String.eqb_spec opt "--transport") as [->|]; [done|].
      destruct (String.eqb_spec opt "--port") as [->|]; [done|].
      destruct (String.eqb_spec opt "--host") as [->|]; done. }
    by rewrite Hnf.
  - assert (Hpre' : ∀ a, a ∈ pre → takes_value a = false)
      by (intros a Ha; apply Hpre; by apply list_elem_of_further).
    cbn [app parse_loop]. rewrite (Hpre arg) by apply list_elem_of_here.
    repeat case_match; by apply IH.
Qed.

(** ** The theorems at concrete inputs *)

Lemma start_rolls_back_witness :
  count is_stop_loop (events (start (never_ready 0) (fresh "/opt/firecrawl"))) = 1 ∧
  isShuttingDown (this (final (start (never_ready 0) (fresh "/opt/firecrawl")))) = true ∧
  ∀ h p, managed (final (start (never_ready 0) (fresh "/opt/firecrawl"))) h →
         procs (env (final (start (never_ready 0) (fresh "/opt/firecrawl")))) !! h = Some p →
         prompt p →
         running (final (start (never_ready 0) (fresh "/opt/firecrawl"))) h = false.
Proof.
  apply (start_rolls_back (never_ready 0) (fresh "/opt/firecrawl") (readiness_error 30)).
  - reflexivity.
  - intros h p H. destruct h; simpl in H; discriminate.
  - vm_compute. reflexivity.
Defined.

Lemma stop_is_sequential_witness :
  sigterm_times (events (stop three_up)) = [(0%N, 2); (4000%N, 1); (8000%N, 0)] ∧
  now (env (final (stop three_up))) = 12000%N.
Proof.
  destruct (stop_is_sequential three_up) as (_ & _ & _ & _ & H).
  apply (H 2 1 0 (child_up (Some 4000%N)) (child_up (Some 4000%N))
           (child_up (Some 4000%N))); try done; by repeat split.
Defined.

Lemma terminate_never_escalates_witness :
  result (terminate "API Server" (Some 0) stubborn_api) = Returned tt ∧
  events (terminate "API Server" (Some 0) stubborn_api) =
    [(0%N, Log "Stopping API Server..."); (0%N, Kill 0 SIGTERM true);
     (5000%N, TimerFired 5000)] ∧
  count is_sigkill (events (terminate "API Server" (Some 0) stubborn_api)) = 0 ∧
  now (env (final (terminate "API Server" (Some 0) stubborn_api))) = 5000%N ∧
  running (final (terminate "API Server" (Some 0) stubborn_api)) 0 = true.
Proof.
  apply (terminate_never_escalates "API Server" 0 stubborn_api (child_up None));
    reflexivity.
Defined.

Lemma waitForServices_bounded_witness :
  result (waitForServices_with 30 1000 (never_ready 0) (fresh "/opt/firecrawl"))
    = Rejected (McpError InternalError
        "Firecrawl API server failed to respond after 30 seconds") ∧
  count is_fetch (events (waitForServices_with 30 1000 (never_ready 0)
                            (fresh "/opt/firecrawl"))) = 30.
Proof.
  apply (waitForServices_bounded (never_ready 0) 30 1000 (fresh "/opt/firecrawl")).
  - lia.
  - intros k Hk. reflexivity.
Defined.

Lemma stop_idempotent_witness :
  stop (final (start (never_ready 0) (fresh "/opt/firecrawl")))
  = ret tt (final (start (never_ready 0) (fresh "/opt/firecrawl"))).
Proof.
  apply (stop_idempotent (fresh "/opt/firecrawl")) with (e := readiness_error 30).
  vm_compute. reflexivity.
Defined.

Lemma start_spawn_order_witness :
  ∃ pre1 pre2 t0,
    take 8 (events (start ready_at_once (fresh "/opt/firecrawl")))
      = pre1 ++ (t0, Delay 2000) :: pre2 ∧
    broker_live pre1 ∧ (t0 + 2000 ≤ 2310)%N.
Proof.
  apply (start_spawn_order ready_at_once (fresh "/opt/firecrawl")
           (take 8 (events (start ready_at_once (fresh "/opt/firecrawl"))))
           2310%N QueueWorker 1
           (drop 9 (events (start ready_at_once (fresh "/opt/firecrawl"))))).
  - vm_compute. reflexivity.
  - reflexivity.
Defined.

Lemma settle_delay_after_broker_only_witness :
  ∃ pre1 logs hw,
    take 11 (events (start ready_at_once (fresh "/opt/firecrawl")))
      = pre1 ++ (2310%N, Spawn QueueWorker hw) :: logs ∧
    Forall (λ te, is_log te.2 = true ∧ te.1 = 2310%N) logs.
Proof.
  apply (settle_delay_after_broker_only ready_at_once (fresh "/opt/firecrawl")
           (take 11 (events (start ready_at_once (fresh "/opt/firecrawl"))))
           2310%N ApiIndex 2
           (drop 12 (events (start ready_at_once (fresh "/opt/firecrawl"))))).
  - vm_compute. reflexivity.
  - reflexivity.
Defined.

Lemma handles_never_released_witness :
  is_Some (apiProcess (this (perform_all [CallStop]
             (final (start ready_at_once (fresh "/opt/firecrawl")))).1)).
Proof.
  apply (handles_never_released [CallStop]
           (final (start ready_at_once (fresh "/opt/firecrawl")))).
  vm_compute. by eexists.
Defined.

Lemma shutting_down_flag_monotone_witness :
  isShuttingDown (this (perform_all [CallStart (never_ready 0)]
                          (final (stop (fresh "/opt/firecrawl")))).1) = true.
Proof.
  apply (shutting_down_flag_monotone [CallStart (never_ready 0)]
           (final (stop (fresh "/opt/firecrawl"))) (never_ready 0)).
  reflexivity.
Defined.

Lemma stop_signals_in_reverse_order_witness :
  sigterm_targets (events (stop three_up))
  = List.filter (λ h, negb (flagged three_up h)) (omap id (handles (this three_up))).
Proof.
  apply (stop_signals_in_reverse_order three_up).
  - reflexivity.
  - apply (bool_decide_unpack _). vm_compute. reflexivity.
Defined.

Lemma start_returns_only_when_ready_witness :
  count is_kill (events (start ready_at_once (fresh "/opt/firecrawl"))) = 0.
Proof.
  apply (start_returns_only_when_ready ready_at_once (fresh "/opt/firecrawl")).
  vm_compute. reflexivity.
Defined.

Lemma start_leaves_external_redis_witness :
  redisProcess (this (final (start external_redis (fresh "/opt/firecrawl")))) = None ∧
  count is_redis_spawn (events (start external_redis (fresh "/opt/firecrawl"))) = 0.
Proof.
  apply (start_leaves_external_redis external_redis 10 (fresh "/opt/firecrawl")).
  reflexivity.
Defined.

Lemma terminate_exited_child_waits_witness :
  result (terminate "Workers" (Some 0) crashed_worker) = Returned tt ∧
  events (terminate "Workers" (Some 0) crashed_worker) =
    [(0%N, Log "Stopping Workers..."); (0%N, Kill 0 SIGTERM false);
     (5000%N, TimerFired 5000); (5000%N, Log "Force killing Workers...");
     (5000%N, Kill 0 SIGKILL false)] ∧
  now (env (final (terminate "Workers" (Some 0) crashed_worker))) = 5000%N.
Proof.
  apply (terminate_exited_child_waits "Workers" 0 crashed_worker
           {| killed := false; exited := true; exit_at := None; on_term := None |});
    reflexivity.
Defined.

Lemma stop_leaves_stubborn_child_running_witness :
  running (final (stop stubborn_api)) 0 = true ∧
  count is_delivered_sigkill (events (stop stubborn_api)) = 0.
Proof.
  apply (stop_leaves_stubborn_child_running stubborn_api 0).
  exists (child_up None). repeat split; reflexivity.
Defined.

Lemma handles_stay_distinct_witness :
  well_handled (perform_all [CallStart ready_at_once; CallStop] (fresh "/opt/firecrawl")).1.
Proof.
  apply (handles_stay_distinct [CallStart ready_at_once; CallStop] (fresh "/opt/firecrawl")).
  split.
  - apply NoDup_nil_2.
  - intros h Hm. unfold managed in Hm. cbn in Hm.
    repeat (apply elem_of_cons in Hm as [Hm|Hm]; [discriminate|]).
    by apply elem_of_nil in Hm.
Defined.

Lemma no_signal_before_stop_witness :
  count is_kill (perform_all [CallStart ready_at_once; CallHealthCheck 5 (Response 200)]
                   (fresh "/opt/firecrawl")).2 = 0.
Proof.
  apply (no_signal_before_stop [CallStart ready_at_once; CallHealthCheck 5 (Response 200)]
           (fresh "/opt/firecrawl")).
  vm_compute. reflexivity.
Defined.

Lemma initialize_unhealthy_no_rollback_witness :
  result (initialize "http://localhost:3002" ready_at_once never_healthy
            (fresh "/opt/firecrawl")) = Rejected unhealthy_error ∧
  count is_kill (events (initialize "http://localhost:3002" ready_at_once never_healthy
                           (fresh "/opt/firecrawl"))) = 0 ∧
  isShuttingDown (this (final (initialize "http://localhost:3002" ready_at_once
                                 never_healthy (fresh "/opt/firecrawl")))) = false ∧
  is_Some (workerProcess (this (final (initialize "http://localhost:3002" ready_at_once
                                         never_healthy (fresh "/opt/firecrawl"))))) ∧
  is_Some (apiProcess (this (final (initialize "http://localhost:3002" ready_at_once
                                      never_healthy (fresh "/opt/firecrawl"))))).
Proof.
  apply (initialize_unhealthy_no_rollback "http://localhost:3002" ready_at_once
           never_healthy (fresh "/opt/firecrawl")).
  - vm_compute. reflexivity.
  - intros k Hk. reflexivity.
Defined.

Lemma stop_terminates_prompt_children_witness :
  running (final (stop three_up)) 1 = false.
Proof.
  apply (stop_terminates_prompt_children three_up 1 (child_up (Some 4000%N))).
  - reflexivity.
  - unfold managed. vm_compute. apply list_elem_of_further, list_elem_of_here.
  - intros p [= <-]. discriminate.
  - reflexivity.
  - exists 4000%N. split; [reflexivity|lia].
Defined.

Lemma start_abandons_previous_children_witness :
  ¬ managed (final (start ready_at_once
                      (final (start ready_at_once (fresh "/opt/firecrawl"))))) 1 ∧
  1 ∉ sigterm_targets
        (events (stop (final (start ready_at_once
                                (final (start ready_at_once (fresh "/opt/firecrawl"))))))).
Proof.
  apply (start_abandons_previous_children ready_at_once
           (final (start ready_at_once (fresh "/opt/firecrawl"))) 1).
  - vm_compute. reflexivity.
  - vm_compute. lia.
  - vm_compute. discriminate.
Defined.

Lemma client_throws_only_McpError_witness :
  ∃ code message,
    ThrownMcpError InternalError
      "Unable to connect to Firecrawl server at http://localhost:3002. Make sure Firecrawl is running locally."
    = ThrownMcpError code message ∧
    (code = InvalidRequest ↔
     ∃ status text response success,
       FetchRejects "TypeError" "fetch failed" = Responds status text ∧ ok status = true ∧
       example_parse text = inr response ∧
       get response "success" = inr success ∧ truthy success = false).
Proof.
  apply (client_throws_only_McpError example_parse "http://localhost:3002"
           (GetCrawlStatus "job-1") (FetchRejects "TypeError" "fetch failed")).
  vm_compute. reflexivity.
Defined.

Lemma backend_error_wording_witness :
  is_backend_error "Firecrawl API error (500): upstream timeout while we fetch" = true ↔
  ∃ status text,
    Responds 500 "upstream timeout while we fetch" = Responds status text ∧
    ok status = false.
Proof.
  apply (backend_error_wording example_parse "http://localhost:3002"
           (ScrapeUrl "https://example.com" [])
           (Responds 500 "upstream timeout while we fetch") InternalError).
  vm_compute. reflexivity.
Defined.

Lemma info_flag_wins_witness :
  parseCliArgs ["node"; "index.js"; "start"; "--help"; "extra"] = Some "--help" ∧
  dispatch (parseCliArgs ["node"; "index.js"; "start"; "--help"; "extra"])
    = shown_by "--help" ∧
  dispatch (parseCliArgs ["node"; "index.js"; "start"; "--help"; "extra"]) ≠ Main.
Proof.
  apply (info_flag_wins ["node"; "index.js"; "start"; "--help"; "extra"] "--help").
  - intros a Ha. cbn [drop] in Ha.
    repeat (apply elem_of_cons in Ha as [->|Ha]; [reflexivity|]).
    by apply elem_of_nil in Ha.
  - reflexivity.
Defined.

Lemma option_value_is_skipped_witness :
  parse_loop (["--debug"] ++ "--port" :: "--help" :: ["setup"]) None
  = parse_loop (["--debug"] ++ ["setup"]) None.
Proof.
  apply (option_value_is_skipped ["--debug"] "--port" "--help" ["setup"] None).
  - intros a Ha. apply list_elem_of_singleton in Ha as ->. reflexivity.
  - reflexivity.
Defined.
